(** * Context persistence: knowledge graph, hybrid search, entity de-duplication

    A shallow embedding of
      - [context_persistence/models_enhanced.py]   (Entity, Relationship,
                                                    the bi-temporal helpers)
      - [context_persistence/entity_extractor.py]  (deduplicate_entities,
                                                    extract_entity_mentions)
      - [context_persistence/knowledge_graph.py]   (KnowledgeGraph)
      - [context_persistence/hybrid_search.py]     (HybridSearch)
      - [context_persistence/server.py]            (the hashing embedding, the
                                                    tools search_hybrid and
                                                    get_entity_history)
    followed by the properties of these modules.

    Conventions of the embedding.
      - Python [float] scores and confidences are exact rationals ([Q]) and
        are compared as rationals.
      - [datetime] values are integers ([Z], a time stamp).
      - A Python [dict] whose insertion order is observable is an
        insertion-ordered association list ([ODict]); a dictionary that is
        only looked up is a [gmap]; a Python [set] is a [gset].
      - A call that can raise returns a [result]; [build_graph], which
        mutates the knowledge graph, threads the graph through a state
        monad, so that the graph left behind by a raising call is visible.
      - A loop that need not end is run for a given number of rounds and
        returns [None] when it has not ended by then. *)

From Stdlib Require Import QArith Lia Ascii String.
From stdpp Require Import base gmap sets list strings pretty sorting.

Local Open Scope string_scope.
Local Open Scope list_scope.

(* [set_solver] clears hypotheses that are sometimes gone already. *)
#[local] Set Warnings "-clear-no-such-hyp".

(** * Part I: the embedding *)

(** ** Python values, exceptions, built-ins *)

(** The values stored in the open key-value bags ([meta_data], [properties],
    [metadata], Qdrant payloads). *)
Inductive PyVal :=
  | VNone
  | VStr (s : string)
  | VInt (z : Z)
  | VNum (q : Q).

(** An exception, identified by its message. *)
Definition exn := string.

(** The outcome of a call that can raise. *)
Inductive result (A : Type) :=
  | Ok (a : A)
  | Raise (e : exn).
Arguments Ok {A} a.
Arguments Raise {A} e.

#[global] Instance result_ret : MRet result := @Ok.
#[global] Instance result_bind : MBind result := λ A B f m,
  match m with
  | Ok a => f a
  | Raise e => Raise e
  end.

(** Strict comparison of rationals as a boolean ([a < b]). *)
Definition Qlt_bool (a b : Q) : bool := negb (Qle_bool b a).

(** [l[:n]] *)
Definition py_slice_to {A : Type} (l : list A) (n : Z) : list A :=
  if (0 <=? n)%Z then take (Z.to_nat n) l
  else take (length l - Z.to_nat (- n)) l.

(** [enumerate(l, start)] *)
Definition enumerate {A : Type} (start : nat) (l : list A) : list (nat * A) :=
  zip (seq start (length l)) l.

(** [f"{x}"] for a value that may be [None]. *)
Definition fmt_opt (x : option string) : string := default "None" x.

(** Truth value of an optional string ([None] and [""] are false). *)
Definition truthy (x : option string) : bool :=
  match x with
  | Some s => negb (bool_decide (s = ""))
  | None => false
  end.

(** [sub in s] *)
Fixpoint str_contains (sub s : string) : bool :=
  String.prefix sub s ||
  match s with
  | EmptyString => false
  | String _ s' => str_contains sub s'
  end.

(** [s.count(sub)] for a non-empty [sub]: occurrences that do not overlap,
    scanning from the left; [skip] characters belong to the last match. *)
Fixpoint str_count_from (sub s : string) (skip : nat) : nat :=
  match s with
  | EmptyString => 0
  | String _ s' =>
      match skip with
      | S k => str_count_from sub s' k
      | O =>
          if String.prefix sub s
          then S (str_count_from sub s' (String.length sub - 1))
          else str_count_from sub s' 0
      end
  end.

(** [s.count(sub)]; the empty string occurs [len(s) + 1] times. *)
Definition str_count (s sub : string) : nat :=
  match sub with
  | EmptyString => S (String.length s)
  | _ => str_count_from sub s 0
  end.

(** The distinct elements of a list, in the order of their first
    occurrence (the key order of a dictionary filled from the list). *)
Definition unique_first (l : list string) : list string :=
  foldl (λ acc x, if decide (x ∈ acc) then acc else acc ++ [x]) [] l.

(** ASCII lower-casing, an instance of [str.lower] to run the definitions. *)
Definition ascii_lower_char (c : ascii) : ascii :=
  let n := nat_of_ascii c in
  if (65 <=? n)%nat && (n <=? 90)%nat then ascii_of_nat (n + 32) else c.

Fixpoint ascii_lower (s : string) : string :=
  match s with
  | EmptyString => EmptyString
  | String c s' => String (ascii_lower_char c) (ascii_lower s')
  end.

(** A slice index of a sequence of [len] elements: a negative index counts
    from the end, and an index beyond an end is that end. *)
Definition py_index (len : nat) (i : Z) : nat :=
  if (i <? 0)%Z then Z.to_nat (Z.of_nat len + i) else Nat.min (Z.to_nat i) len.

(** [s[a:b]] *)
Definition str_slice (s : string) (a b : Z) : string :=
  let a' := py_index (String.length s) a in
  let b' := py_index (String.length s) b in
  String.substring a' (b' - a') s.

(** [s.find(sub, start)] for [start >= 0]: the least index from [start] on
    at which [sub] occurs in [s], [None] for [-1]. *)
Definition str_find (s sub : string) (start : nat) : option nat :=
  String.index start sub s.

(** ** Stable sorting

    [list.sort] and [sorted] are stable.  The result of a stable sort is
    determined by the list and the order, so insertion from the right, which
    keeps equal elements in their original order, computes the list that
    Python's sort computes.  [leb x y] says that [x] may stay in front of
    [y]: for an ascending sort [key x <= key y], for [reverse=True]
    [key y <= key x]. *)

Fixpoint insert_stable {A : Type} (leb : A → A → bool) (x : A) (l : list A)
    : list A :=
  match l with
  | [] => [x]
  | y :: l' => if leb x y then x :: l else y :: insert_stable leb x l'
  end.

Definition sorted_stable {A : Type} (leb : A → A → bool) (l : list A) : list A :=
  foldr (insert_stable leb) [] l.

(** ** Insertion-ordered dictionaries

    A Python [dict] keeps its keys in the order of their first insertion;
    assigning to a key that is present replaces the value in place. *)

Module ODict.

Fixpoint get {K V : Type} `{EqDecision K} (d : list (K * V)) (k : K) : option V :=
  match d with
  | [] => None
  | (k', v) :: d' => if decide (k = k') then Some v else get d' k
  end.

Fixpoint set {K V : Type} `{EqDecision K} (d : list (K * V)) (k : K) (v : V)
    : list (K * V) :=
  match d with
  | [] => [(k, v)]
  | (k', v') :: d' =>
      if decide (k = k') then (k, v) :: d' else (k', v') :: set d' k v
  end.

Definition keys {K V : Type} (d : list (K * V)) : list K := d.*1.
Definition values {K V : Type} (d : list (K * V)) : list V := d.*2.
Definition items {K V : Type} (d : list (K * V)) : list (K * V) := d.

End ODict.

(** ** entity_extractor.py *)

Module EntityExtractor.

(** The entity dictionaries built by [extract_entities]. *)
Record EntityDict := {
  ed_id : string;
  ed_name : string;
  ed_entity_type : string;
  ed_description : string;
  ed_event_time : Z;
  ed_ingestion_time : Z;
  ed_valid_from : Z;
  ed_valid_until : option Z;
  ed_conversation_id : string;
  ed_message_id : option Z;
  ed_confidence : Q;
  ed_meta_data : gmap string PyVal
}.

Section Dedup.
(** [str.lower]; nothing below depends on how it maps characters. *)
Context (lower : string → string).

(** [key = (entity["name"].lower(), entity["entity_type"])] *)
Definition dedup_key (entity : EntityDict) : string * string :=
  (lower (ed_name entity), ed_entity_type entity).

(** The body of the loop of [deduplicate_entities]:
    [if key not in seen or entity["confidence"] > seen[key]["confidence"]:
         seen[key] = entity] *)
Definition dedup_step (seen : list ((string * string) * EntityDict))
    (entity : EntityDict) : list ((string * string) * EntityDict) :=
  let key := dedup_key entity in
  match ODict.get seen key with
  | None => ODict.set seen key entity
  | Some kept =>
      if Qlt_bool (ed_confidence kept) (ed_confidence entity)
      then ODict.set seen key entity
      else seen
  end.

Definition deduplicate_entities (entities : list EntityDict) : list EntityDict :=
  let seen := foldl dedup_step [] entities in
  ODict.values seen.

End Dedup.
(** The mention dictionaries built by [extract_entity_mentions]. *)
Module Mention.
Record t := {
  entity_id : option string;
  conversation_id : string;
  message_id : Z;
  mention_text : string;
  context_snippet : string;
  position : nat;
  timestamp : Z;
  confidence : Q
}.
End Mention.

Section Mentions.
(** [str.lower], and [datetime.utcnow()] as read in the round of the loop
    that appends the mention of that index. *)
Context (lower : string → string) (utcnow : nat → Z).

(** The dictionary appended for an occurrence at [pos]. *)
Definition mention (text entity_name conversation_id : string) (message_id : Z)
    (context_window : Z) (pos : nat) (now : Z) : Mention.t :=
  (* Extract context snippet *)
  let start := Z.max 0 (Z.of_nat pos - context_window) in
  let end_ :=
    Z.min (Z.of_nat (String.length text))
      (Z.of_nat pos + Z.of_nat (String.length entity_name) + context_window) in
  let context := str_slice text start end_ in
  {| Mention.entity_id := None;
     Mention.conversation_id := conversation_id;
     Mention.message_id := message_id;
     Mention.mention_text :=
       str_slice text (Z.of_nat pos)
         (Z.of_nat pos + Z.of_nat (String.length entity_name));
     Mention.context_snippet := context;
     Mention.position := pos;
     Mention.timestamp := now;
     Mention.confidence := 1 |}.

(** The [while True] loop of [extract_entity_mentions], run for at most
    [fuel] rounds; [None] when it has not reached its [break] by then. *)
Fixpoint mentions_loop (fuel : nat) (text entity_name conversation_id : string)
    (message_id : Z) (context_window : Z) (pos : nat) (mentions : list Mention.t)
    : option (list Mention.t) :=
  match fuel with
  | O => None
  | S fuel' =>
      match str_find (lower text) (lower entity_name) pos with
      | None => Some mentions
      | Some pos =>
          let mentions :=
            mentions ++ [mention text entity_name conversation_id message_id
                           context_window pos (utcnow (length mentions))] in
          mentions_loop fuel' text entity_name conversation_id message_id
            context_window (pos + String.length entity_name) mentions
      end
  end.

(** [extract_entity_mentions(text, entity_name, conversation_id, message_id,
    context_window)] *)
Definition extract_entity_mentions (fuel : nat)
    (text entity_name conversation_id : string) (message_id : Z)
    (context_window : Z) : option (list Mention.t) :=
  mentions_loop fuel text entity_name conversation_id message_id context_window
    0 [].

End Mentions.
End EntityExtractor.

(** ** models_enhanced.py: the rows of the temporal store *)

(** [confidence] is a Float column with default [1.0]; every writer of the
    repository stores a number there. *)
Module Entity.
Record t := {
  id : string;
  name : string;
  entity_type : string;
  description : option string;
  event_time : Z;
  ingestion_time : Z;
  valid_from : Z;
  valid_until : option Z;
  conversation_id : option string;
  message_id : option Z;
  confidence : Q;
  meta_data : gmap string PyVal
}.
End Entity.

Module Relationship.
Record t := {
  id : string;
  source_entity_id : string;
  target_entity_id : string;
  relationship_type : string;
  event_time : Z;
  ingestion_time : Z;
  valid_from : Z;
  valid_until : option Z;
  conversation_id : option string;
  message_id : option Z;
  confidence : Q;
  properties : gmap string PyVal
}.
End Relationship.

(** [server.Message] *)
Module Message.
Record t := {
  id : Z;
  conversation_id : option string;
  timestamp : option Z;
  role : string;
  content : string;
  tokens : option Z
}.
End Message.

(** ** networkx

    The part of [networkx.MultiDiGraph] and of the networkx algorithms that
    [knowledge_graph.py] calls.  A node carries an attribute dictionary: the
    seven attributes that [build_graph] passes to [add_node], or the empty
    dictionary of a node that [add_edge] created for an endpoint ([None]
    below).  Edges are kept in insertion order; neighbours are listed in
    the order of the first edge that leads to them. *)

Module NodeAttrs.
Record t := {
  name : string;
  entity_type : string;
  description : option string;
  confidence : Q;
  meta_data : gmap string PyVal;
  conversation_id : option string;
  message_id : option Z
}.
End NodeAttrs.

Module EdgeAttrs.
Record t := {
  relationship_type : string;
  confidence : Q;
  properties : gmap string PyVal;
  conversation_id : option string;
  message_id : option Z
}.
End EdgeAttrs.

Module Edge.
Record t := {
  u : string;
  v : string;
  key : string;
  data : EdgeAttrs.t
}.
End Edge.

Module nx.

Record MultiDiGraph := {
  _node : gmap string (option NodeAttrs.t);
  _edges : list Edge.t
}.

Definition empty : MultiDiGraph := {| _node := ∅; _edges := [] |}.

(** [G.clear()] *)
Definition clear (G : MultiDiGraph) : MultiDiGraph := empty.

(** [n in G] *)
Definition contains (G : MultiDiGraph) (n : string) : bool :=
  bool_decide (is_Some (_node G !! n)).

(** [G.nodes[n]] as the optional attribute record ([None] for the empty
    dictionary). *)
Definition node_data (G : MultiDiGraph) (n : string) : option NodeAttrs.t :=
  mjoin (_node G !! n).

(** [G.add_node(n, **attrs)] with the seven attributes of [build_graph]:
    a new node gets them, a present node has them all overwritten. *)
Definition add_node (G : MultiDiGraph) (n : string) (attrs : NodeAttrs.t)
    : MultiDiGraph :=
  {| _node := <[n := Some attrs]> (_node G); _edges := _edges G |}.

(** An endpoint of a new edge becomes a node with no attributes unless it
    is one already. *)
Definition touch (nodes : gmap string (option NodeAttrs.t)) (n : string)
    : gmap string (option NodeAttrs.t) :=
  match nodes !! n with
  | Some _ => nodes
  | None => <[n := None]> nodes
  end.

Definition same_edge (e e' : Edge.t) : bool :=
  bool_decide (Edge.u e = Edge.u e') && bool_decide (Edge.v e = Edge.v e')
  && bool_decide (Edge.key e = Edge.key e').

(** An edge with the key of a present edge between the same nodes replaces
    its attributes; any other edge is new. *)
Fixpoint put_edge (es : list Edge.t) (e : Edge.t) : list Edge.t :=
  match es with
  | [] => [e]
  | e' :: es' => if same_edge e e' then e :: es' else e' :: put_edge es' e
  end.

(** [G.add_edge(u, v, key=key, **attrs)] *)
Definition add_edge (G : MultiDiGraph) (u v key : string) (attrs : EdgeAttrs.t)
    : MultiDiGraph :=
  {| _node := touch (touch (_node G) u) v;
     _edges := put_edge (_edges G)
                 {| Edge.u := u; Edge.v := v; Edge.key := key; Edge.data := attrs |} |}.

(** [G.number_of_nodes()] *)
Definition number_of_nodes (G : MultiDiGraph) : Z := Z.of_nat (size (_node G)).

(** [G.successors(n)] *)
Definition successors (G : MultiDiGraph) (n : string) : list string :=
  unique_first (Edge.v <$> filter (λ e, Edge.u e = n) (_edges G)).

(** [G.predecessors(n)] *)
Definition predecessors (G : MultiDiGraph) (n : string) : list string :=
  unique_first (Edge.u <$> filter (λ e, Edge.v e = n) (_edges G)).

(** [G.neighbors(n)]: on a directed graph, the successors of [n]. *)
Definition neighbors (G : MultiDiGraph) (n : string) : list string :=
  successors G n.

(** [G.get_edge_data(u, v)]: the attributes of the edges from [u] to [v],
    by key. *)
Definition get_edge_data (G : MultiDiGraph) (u v : string)
    : list (string * EdgeAttrs.t) :=
  (λ e, (Edge.key e, Edge.data e))
    <$> filter (λ e, Edge.u e = u ∧ Edge.v e = v) (_edges G).

(** [G.edges(n, keys=True)]: the edges that leave [n], grouped by target. *)
Definition out_edges (G : MultiDiGraph) (n : string) : list (string * string) :=
  flat_map (λ w, (λ kd, (w, kd.1)) <$> get_edge_data G n w) (successors G n).

(** The neighbours of [n] in [G.to_undirected()]: the other end of every
    edge at [n], whatever its direction. *)
Definition undirected_neighbors (G : MultiDiGraph) (n : string) : list string :=
  unique_first
    (flat_map (λ e, (if decide (Edge.u e = n) then [Edge.v e] else [])
                    ++ (if decide (Edge.v e = n) then [Edge.u e] else []))
       (_edges G)).

(** *** [single_source_shortest_path_length]

    Breadth-first search by levels, as networkx writes it:
    [for v in thislevel: for w in adj[v]: if w not in seen:
       seen.add(w); nextlevel.append(w); yield (w, level)].
    (networkx also stops as soon as every node has been seen; no new node
    can be found after that, so the dictionary is the same.) *)

Fixpoint visit (ws : list string) (seen : gset string) (nextlevel : list string)
    : gset string * list string :=
  match ws with
  | [] => (seen, nextlevel)
  | w :: ws' =>
      if decide (w ∈ seen) then visit ws' seen nextlevel
      else visit ws' ({[w]} ∪ seen) (nextlevel ++ [w])
  end.

Fixpoint sweep (adj : string → list string) (thislevel : list string)
    (seen : gset string) (nextlevel : list string) : gset string * list string :=
  match thislevel with
  | [] => (seen, nextlevel)
  | v :: rest =>
      let '(seen', nextlevel') := visit (adj v) seen nextlevel in
      sweep adj rest seen' nextlevel'
  end.

(** [while nextlevel and cutoff > level]; [n] is [cutoff - level]. *)
Fixpoint bfs_levels (adj : string → list string) (n : nat) (level : nat)
    (thislevel : list string) (seen : gset string) : list (string * nat) :=
  match n with
  | O => []
  | S n' =>
      match thislevel with
      | [] => []
      | _ =>
          let '(seen', nextlevel) := sweep adj thislevel seen [] in
          ((λ w, (w, S level)) <$> nextlevel)
            ++ bfs_levels adj n' (S level) nextlevel seen'
      end
  end.

(** The dictionary node -> distance, in the order of discovery. *)
Definition single_source_shortest_path_length (adj : string → list string)
    (source : string) (cutoff : Z) : list (string * nat) :=
  (source, O) :: bfs_levels adj (Z.to_nat cutoff) O [source] {[source]}.

(** *** [all_simple_paths]

    Depth-first enumeration of the simple paths from [source] to [target]
    with at most [cutoff] edges.  [budget] is the number of edges that may
    still be appended to the current path, whose nodes are [path_rev]
    (last node first); the search does not continue through the target.
    Parallel edges give the same node path once each.  For a source that
    is the target, networkx 3 yields the one-node path (earlier releases
    yield nothing). *)

Fixpoint dfs_paths (G : MultiDiGraph) (target : string) (budget : nat)
    (path_rev : list string) (n : string) : list (list string) :=
  match budget with
  | O => []
  | S b =>
      flat_map (λ e : string * string,
          let w := e.1 in
          if decide (w ∈ path_rev) then []
          else if decide (w = target) then [rev (w :: path_rev)]
          else dfs_paths G target b (w :: path_rev) w)
        (out_edges G n)
  end.

Definition all_simple_paths (G : MultiDiGraph) (source target : string)
    (cutoff : Z) : list (list string) :=
  if (cutoff <? 0)%Z then []
  else if decide (source = target) then [[source]]
  else dfs_paths G target (Z.to_nat cutoff) [source] source.

(** *** [shortest_path]

    networkx returns a path with the fewest edges and raises
    [NetworkXNoPath] when there is none; which of several shortest paths it
    returns is not part of its contract.  The model finds one by
    breadth-first search; a frontier entry is a node with the path (last
    node first) that reached it. *)

Fixpoint visit_paths (ws : list string) (p : list string) (seen : gset string)
    (next : list (string * list string))
    : gset string * list (string * list string) :=
  match ws with
  | [] => (seen, next)
  | w :: ws' =>
      if decide (w ∈ seen) then visit_paths ws' p seen next
      else visit_paths ws' p ({[w]} ∪ seen) (next ++ [(w, w :: p)])
  end.

Fixpoint sweep_paths (adj : string → list string)
    (thislevel : list (string * list string)) (seen : gset string)
    (next : list (string * list string))
    : gset string * list (string * list string) :=
  match thislevel with
  | [] => (seen, next)
  | (v, p) :: rest =>
      let '(seen', next') := visit_paths (adj v) p seen next in
      sweep_paths adj rest seen' next'
  end.

Fixpoint search_paths (adj : string → list string) (target : string)
    (fuel : nat) (thislevel : list (string * list string)) (seen : gset string)
    : option (list string) :=
  match ODict.get thislevel target with
  | Some p => Some (rev p)
  | None =>
      match fuel with
      | O => None
      | S fuel' =>
          match thislevel with
          | [] => None
          | _ =>
              let '(seen', next) := sweep_paths adj thislevel seen [] in
              search_paths adj target fuel' next seen'
          end
      end
  end.

(** Every level after the first holds a node that a distinct edge
    discovered, so there are at most as many levels as edges
    ([find_shortest_path_complete] below). *)
Definition shortest_path (G : MultiDiGraph) (source target : string)
    : result (list string) :=
  match search_paths (successors G) target (length (_edges G))
          [(source, [source])] {[source]} with
  | Some p => Ok p
  | None => Raise "NetworkXNoPath"
  end.

(** [G.out_degree(n)], [G.in_degree(n)] and [G.degree(n)]: the number of
    edges that leave [n], that enter it, and both together (a loop at [n]
    counts on both sides). *)
Definition out_degree (G : MultiDiGraph) (n : string) : nat :=
  length (filter (λ e, Edge.u e = n) (_edges G)).

Definition in_degree (G : MultiDiGraph) (n : string) : nat :=
  length (filter (λ e, Edge.v e = n) (_edges G)).

Definition degree (G : MultiDiGraph) (n : string) : nat :=
  (in_degree G n + out_degree G n)%nat.

End nx.

(** ** The temporal store behind [AsyncSession]

    The session answers a [select] from the rows it holds, or raises when
    the store cannot be reached for that table.  Rows come back in table
    order.  [like] is the store's LIKE operator (pattern, then text). *)

Inductive Table := Entities | Relationships | Messages.

Module AsyncSession.
Record t := {
  entities : list Entity.t;
  relationships : list Relationship.t;
  messages : list Message.t;
  fails : Table → option exn;
  like : string → string → bool
}.
End AsyncSession.

(** [await session.execute(select(table).where(p).limit(n))] followed by
    [.scalars().all()] *)
Definition execute {A : Type} (session : AsyncSession.t) (table : Table)
    (rows : list A) (where_ : A → bool) : result (list A) :=
  match AsyncSession.fails session table with
  | Some e => Raise e
  | None => Ok (filter (λ row, where_ row = true) rows)
  end.

(** [.limit(n)]: SQLite reads a negative limit as no limit. *)
Definition sql_limit {A : Type} (n : Z) (rows : list A) : list A :=
  if (n <? 0)%Z then rows else take (Z.to_nat n) rows.

(** [valid_from <= as_of AND (valid_until IS NULL OR valid_until > as_of)] *)
Definition valid_at (valid_from : Z) (valid_until : option Z) (as_of : Z) : bool :=
  (valid_from <=? as_of)%Z &&
  match valid_until with
  | None => true
  | Some t => (as_of <? t)%Z
  end.

(** ** models_enhanced.py: helpers for bi-temporal queries

    The helpers take a synchronous session on the same store. *)

Module models_enhanced.

(** [get_valid_entities_at_time(session, timestamp)], as the rows that the
    query it returns yields when it is run. *)
Definition get_valid_entities_at_time (session : AsyncSession.t) (timestamp : Z)
    : result (list Entity.t) :=
  execute session Entities (AsyncSession.entities session)
    (λ entity,
       valid_at (Entity.valid_from entity) (Entity.valid_until entity) timestamp).

(** [entity.valid_until = as_of] *)
Definition set_valid_until (entity : Entity.t) (as_of : Z) : Entity.t :=
  {| Entity.id := Entity.id entity;
     Entity.name := Entity.name entity;
     Entity.entity_type := Entity.entity_type entity;
     Entity.description := Entity.description entity;
     Entity.event_time := Entity.event_time entity;
     Entity.ingestion_time := Entity.ingestion_time entity;
     Entity.valid_from := Entity.valid_from entity;
     Entity.valid_until := Some as_of;
     Entity.conversation_id := Entity.conversation_id entity;
     Entity.message_id := Entity.message_id entity;
     Entity.confidence := Entity.confidence entity;
     Entity.meta_data := Entity.meta_data entity |}.

(** The store after an assignment to the first row that [p] selects. *)
Fixpoint update_first {A : Type} (p : A → bool) (f : A → A) (rows : list A)
    : list A :=
  match rows with
  | [] => []
  | row :: rows' =>
      if p row then f row :: rows' else row :: update_first p f rows'
  end.

(** [invalidate_entity(session, entity_id, as_of)]: the store as the
    session sees it afterwards.  [utcnow] is the reading of
    [datetime.utcnow()] that is the default of [as_of]. *)
Definition invalidate_entity (session : AsyncSession.t) (entity_id : string)
    (as_of : option Z) (utcnow : Z) : result AsyncSession.t :=
  let as_of := default utcnow as_of in
  rows ← execute session Entities (AsyncSession.entities session)
    (λ entity, bool_decide (Entity.id entity = entity_id));
  match head rows with
  | Some _ =>
      mret {| AsyncSession.entities :=
                update_first (λ entity, bool_decide (Entity.id entity = entity_id))
                  (λ entity, set_valid_until entity as_of)
                  (AsyncSession.entities session);
              AsyncSession.relationships := AsyncSession.relationships session;
              AsyncSession.messages := AsyncSession.messages session;
              AsyncSession.fails := AsyncSession.fails session;
              AsyncSession.like := AsyncSession.like session |}
  | None => mret session
  end.

End models_enhanced.

(** ** knowledge_graph.py *)

Module KnowledgeGraph.

(** The object state: [self.graph] and [self._last_refresh]. *)
Record t := {
  graph : nx.MultiDiGraph;
  _last_refresh : option Z
}.

(** [KnowledgeGraph()] *)
Definition __init__ : t := {| graph := nx.empty; _last_refresh := None |}.

(** A method that mutates [self] and may raise: the state after the call
    is returned whether the call raised or not. *)
Definition method (A : Type) : Type := t → t * result A.

#[global] Instance method_ret : MRet method := λ A a self, (self, Ok a).
#[global] Instance method_bind : MBind method := λ A B f m self,
  match m self with
  | (self', Ok a) => f a self'
  | (self', Raise e) => (self', Raise e)
  end.

(** A call on the store: the object is untouched, an exception leaves the
    method. *)
Definition await {A : Type} (r : result A) : method A := λ self, (self, r).

Definition update_graph (f : nx.MultiDiGraph → nx.MultiDiGraph) : method unit :=
  λ self, ({| graph := f (graph self); _last_refresh := _last_refresh self |}, Ok ()).

Definition set_last_refresh (now : Z) : method unit :=
  λ self, ({| graph := graph self; _last_refresh := Some now |}, Ok ()).

Definition get_graph : method nx.MultiDiGraph := λ self, (self, Ok (graph self)).

(** The attributes that [build_graph] copies from an entity. *)
Definition entity_attrs (entity : Entity.t) : NodeAttrs.t :=
  {| NodeAttrs.name := Entity.name entity;
     NodeAttrs.entity_type := Entity.entity_type entity;
     NodeAttrs.description := Entity.description entity;
     NodeAttrs.confidence := Entity.confidence entity;
     NodeAttrs.meta_data := Entity.meta_data entity;
     NodeAttrs.conversation_id := Entity.conversation_id entity;
     NodeAttrs.message_id := Entity.message_id entity |}.

(** The attributes that [build_graph] copies from a relationship. *)
Definition relationship_attrs (rel : Relationship.t) : EdgeAttrs.t :=
  {| EdgeAttrs.relationship_type := Relationship.relationship_type rel;
     EdgeAttrs.confidence := Relationship.confidence rel;
     EdgeAttrs.properties := Relationship.properties rel;
     EdgeAttrs.conversation_id := Relationship.conversation_id rel;
     EdgeAttrs.message_id := Relationship.message_id rel |}.

(** [self.graph.add_node(entity.id, name=entity.name, ...)] *)
Definition add_entity (G : nx.MultiDiGraph) (entity : Entity.t) : nx.MultiDiGraph :=
  nx.add_node G (Entity.id entity) (entity_attrs entity).

(** [self.graph.add_edge(rel.source_entity_id, rel.target_entity_id,
                         key=rel.id, ...)] *)
Definition add_relationship (G : nx.MultiDiGraph) (rel : Relationship.t)
    : nx.MultiDiGraph :=
  nx.add_edge G (Relationship.source_entity_id rel)
    (Relationship.target_entity_id rel) (Relationship.id rel)
    (relationship_attrs rel).

(** [build_graph(session, as_of)].  [utcnow] and [utcnow'] are the two
    readings of [datetime.utcnow()]: the default of [as_of] and the refresh
    time. *)
Definition build_graph (session : AsyncSession.t) (as_of : option Z)
    (utcnow utcnow' : Z) : method Z :=
  let as_of := default utcnow as_of in
  (* Clear existing graph *)
  _ ← update_graph nx.clear;
  (* Get valid entities at this time *)
  entities ← await (execute session Entities (AsyncSession.entities session)
    (λ entity, valid_at (Entity.valid_from entity) (Entity.valid_until entity) as_of));
  (* Add entities as nodes *)
  _ ← update_graph (λ G, foldl add_entity G entities);
  (* Get valid relationships *)
  relationships ← await (execute session Relationships
    (AsyncSession.relationships session)
    (λ rel, valid_at (Relationship.valid_from rel) (Relationship.valid_until rel) as_of));
  (* Add relationships as edges *)
  _ ← update_graph (λ G, foldl add_relationship G relationships);
  _ ← set_last_refresh utcnow';
  G ← get_graph;
  mret (nx.number_of_nodes G).

(** [find_paths(source_id, target_id, max_depth, cutoff)] *)
Definition find_paths (self : t) (source_id target_id : string) (max_depth : Z)
    (cutoff : option Z) : list (list string) :=
  if negb (nx.contains (graph self) source_id)
     || negb (nx.contains (graph self) target_id)
  then []
  else
    let paths := nx.all_simple_paths (graph self) source_id target_id max_depth in
    match cutoff with
    | Some c => if bool_decide (c = 0%Z) then paths else py_slice_to paths c
    | None => paths
    end.

(** [find_shortest_path(source_id, target_id)] *)
Definition find_shortest_path (self : t) (source_id target_id : string)
    : option (list string) :=
  if negb (nx.contains (graph self) source_id)
     || negb (nx.contains (graph self) target_id)
  then None
  else
    match nx.shortest_path (graph self) source_id target_id with
    | Ok path => Some path
    | Raise _ => None
    end.

(** [any(edge_data.get('relationship_type') in relationship_types
         for edge_data in edges.values())] *)
Definition edge_type_matches (G : nx.MultiDiGraph) (node neighbor : string)
    (relationship_types : list string) : bool :=
  existsb (λ kd : string * EdgeAttrs.t,
      bool_decide (EdgeAttrs.relationship_type kd.2 ∈ relationship_types))
    (nx.get_edge_data G node neighbor).

(** The innermost loop body of [get_neighbors], on the pair
    [(next_level, visited)]. *)
Definition visit_neighbor (G : nx.MultiDiGraph)
    (relationship_types : option (list string)) (node : string)
    (acc : gset string * gset string) (neighbor : string)
    : gset string * gset string :=
  let '(next_level, visited) := acc in
  if decide (neighbor ∈ visited) then acc
  else
    match relationship_types with
    | Some (ty :: tys) =>
        if edge_type_matches G node neighbor (ty :: tys)
        then ({[neighbor]} ∪ next_level, {[neighbor]} ∪ visited)
        else acc
    | _ => ({[neighbor]} ∪ next_level, {[neighbor]} ∪ visited)
    end.

(** [for node in current_level: for neighbor in self.graph.neighbors(node)] *)
Definition expand_level (G : nx.MultiDiGraph)
    (relationship_types : option (list string))
    (current_level visited : gset string) : gset string * gset string :=
  foldl (λ acc node, foldl (visit_neighbor G relationship_types node) acc
                       (nx.neighbors G node))
    (∅, visited) (elements current_level).

(** A neighbour record [{"id": nid, **self.graph.nodes[nid]}]. *)
Definition neighbor_record (G : nx.MultiDiGraph) (nid : string)
    : string * option NodeAttrs.t :=
  (nid, nx.node_data G nid).

(** [f"depth_{level}"] *)
Definition depth_key (level : nat) : string := "depth_" +:+ pretty level.

(** [for level in range(1, depth + 1)], with [n] levels still to go. *)
Fixpoint levels_loop (G : nx.MultiDiGraph)
    (relationship_types : option (list string)) (n : nat) (level : nat)
    (current_level visited : gset string)
    (neighbors_by_level : gmap string (list (string * option NodeAttrs.t)))
    : gmap string (list (string * option NodeAttrs.t)) :=
  match n with
  | O => neighbors_by_level
  | S n' =>
      let '(next_level, visited') :=
        expand_level G relationship_types current_level visited in
      let neighbors_by_level' :=
        if decide (next_level = ∅) then neighbors_by_level
        else <[depth_key level := neighbor_record G <$> elements next_level]>
               neighbors_by_level in
      levels_loop G relationship_types n' (S level) next_level visited'
        neighbors_by_level'
  end.

(** [get_neighbors(entity_id, depth, relationship_types)] *)
Definition get_neighbors (self : t) (entity_id : string) (depth : Z)
    (relationship_types : option (list string))
    : gmap string (list (string * option NodeAttrs.t)) :=
  if negb (nx.contains (graph self) entity_id) then ∅
  else levels_loop (graph self) relationship_types (Z.to_nat depth) 1
         {[entity_id]} {[entity_id]} ∅.

(** The records returned by [find_related_entities]. *)
Module Related.
Record t := {
  id : string;
  name : option string;
  entity_type : option string;
  distance : nat;
  confidence : Q
}.
End Related.

(** The record appended for the node [target_id] at [distance]:
    [{"id": target_id, "name": node_data.get("name"), ...,
      "confidence": node_data.get("confidence", 0.0)}] *)
Definition related_record (G : nx.MultiDiGraph) (target_id : string)
    (distance : nat) : Related.t :=
  let node_data := nx.node_data G target_id in
  {| Related.id := target_id;
     Related.name := NodeAttrs.name <$> node_data;
     Related.entity_type := NodeAttrs.entity_type <$> node_data;
     Related.distance := distance;
     Related.confidence := default 0%Q (NodeAttrs.confidence <$> node_data) |}.

(** [entity_type and node_data.get("entity_type") != entity_type] *)
Definition type_filtered_out (G : nx.MultiDiGraph) (entity_type : option string)
    (target_id : string) : bool :=
  truthy entity_type
  && negb (bool_decide (NodeAttrs.entity_type <$> nx.node_data G target_id
                        = entity_type)).

(** The loop body of [find_related_entities]. *)
Definition related_step (G : nx.MultiDiGraph) (entity_id : string)
    (entity_type : option string) (related : list Related.t)
    (item : string * nat) : list Related.t :=
  let '(target_id, distance) := item in
  if decide (target_id = entity_id) then related
  else
    (* Apply entity type filter *)
    if type_filtered_out G entity_type target_id then related
    else related ++ [related_record G target_id distance].

(** [key=lambda x: (x["distance"], -x["confidence"])], ascending. *)
Definition related_leb (x y : Related.t) : bool :=
  (Related.distance x <? Related.distance y)%nat
  || ((Related.distance x =? Related.distance y)%nat
      && Qle_bool (- Related.confidence x) (- Related.confidence y)).

(** [find_related_entities(entity_id, entity_type, max_distance)] *)
Definition find_related_entities (self : t) (entity_id : string)
    (entity_type : option string) (max_distance : Z) : list Related.t :=
  if negb (nx.contains (graph self) entity_id) then []
  else
    (* Use shortest path lengths *)
    let distances :=
      nx.single_source_shortest_path_length
        (nx.undirected_neighbors (graph self)) entity_id max_distance in
    let related := foldl (related_step (graph self) entity_id entity_type) [] distances in
    (* Sort by distance, then confidence *)
    sorted_stable related_leb related.

(** The entries of ["outgoing_relationships"]. *)
Module OutgoingRelationship.
Record t := {
  target_id : string;
  target_name : string;
  relationship_type : string;
  confidence : Q;
  properties : gmap string PyVal
}.
End OutgoingRelationship.

(** The entries of ["incoming_relationships"]. *)
Module IncomingRelationship.
Record t := {
  source_id : string;
  source_name : string;
  relationship_type : string;
  confidence : Q;
  properties : gmap string PyVal
}.
End IncomingRelationship.

(** The dictionary returned by [get_entity_context], ["stats"] flattened. *)
Module EntityContext.
Record t := {
  entity : option NodeAttrs.t;
  neighbors : gmap string (list (string * option NodeAttrs.t));
  outgoing_relationships : list OutgoingRelationship.t;
  incoming_relationships : list IncomingRelationship.t;
  out_degree : nat;
  in_degree : nat;
  total_degree : nat
}.
End EntityContext.

(** [self.graph.nodes[n]["name"]]: the attribute dictionary of a node that
    [add_edge] created has no such key. *)
Definition node_name (G : nx.MultiDiGraph) (n : string) : result string :=
  match nx.node_data G n with
  | Some attrs => Ok (NodeAttrs.name attrs)
  | None => Raise "KeyError: 'name'"
  end.

(** [for target in self.graph.successors(entity_id):
       for key, edge_data in self.graph.get_edge_data(entity_id, target).items()] *)
Definition outgoing_items (G : nx.MultiDiGraph) (entity_id : string)
    : list (string * (string * EdgeAttrs.t)) :=
  flat_map (λ target, pair target <$> nx.get_edge_data G entity_id target)
    (nx.successors G entity_id).

(** [for source in self.graph.predecessors(entity_id):
       for key, edge_data in self.graph.get_edge_data(source, entity_id).items()] *)
Definition incoming_items (G : nx.MultiDiGraph) (entity_id : string)
    : list (string * (string * EdgeAttrs.t)) :=
  flat_map (λ source, pair source <$> nx.get_edge_data G source entity_id)
    (nx.predecessors G entity_id).

Definition outgoing_relationship (G : nx.MultiDiGraph)
    (item : string * (string * EdgeAttrs.t)) : result OutgoingRelationship.t :=
  let '(target, (key, edge_data)) := item in
  target_name ← node_name G target;
  mret {| OutgoingRelationship.target_id := target;
          OutgoingRelationship.target_name := target_name;
          OutgoingRelationship.relationship_type :=
            EdgeAttrs.relationship_type edge_data;
          OutgoingRelationship.confidence := EdgeAttrs.confidence edge_data;
          OutgoingRelationship.properties := EdgeAttrs.properties edge_data |}.

Definition incoming_relationship (G : nx.MultiDiGraph)
    (item : string * (string * EdgeAttrs.t)) : result IncomingRelationship.t :=
  let '(source, (key, edge_data)) := item in
  source_name ← node_name G source;
  mret {| IncomingRelationship.source_id := source;
          IncomingRelationship.source_name := source_name;
          IncomingRelationship.relationship_type :=
            EdgeAttrs.relationship_type edge_data;
          IncomingRelationship.confidence := EdgeAttrs.confidence edge_data;
          IncomingRelationship.properties := EdgeAttrs.properties edge_data |}.

(** [get_entity_context(entity_id, depth)]; [None] is the empty dictionary
    returned for an entity that is not in the graph. *)
Definition get_entity_context (self : t) (entity_id : string) (depth : Z)
    : result (option EntityContext.t) :=
  if negb (nx.contains (graph self) entity_id) then mret None
  else
    (* Get entity info *)
    let entity_info := nx.node_data (graph self) entity_id in
    (* Get neighbors *)
    let neighbors := get_neighbors self entity_id depth None in
    (* Get outgoing relationships *)
    out_edges ← mapM (outgoing_relationship (graph self))
      (outgoing_items (graph self) entity_id);
    (* Get incoming relationships *)
    in_edges ← mapM (incoming_relationship (graph self))
      (incoming_items (graph self) entity_id);
    mret (Some
      {| EntityContext.entity := entity_info;
         EntityContext.neighbors := neighbors;
         EntityContext.outgoing_relationships := out_edges;
         EntityContext.incoming_relationships := in_edges;
         EntityContext.out_degree := nx.out_degree (graph self) entity_id;
         EntityContext.in_degree := nx.in_degree (graph self) entity_id;
         EntityContext.total_degree := nx.degree (graph self) entity_id |}).

End KnowledgeGraph.

(** ** hybrid_search.py *)

(** [@dataclass class SearchResult] *)
Module SearchResult.
Record t := {
  item_id : string;
  item_type : string;
  content : PyVal;
  score : Q;
  source : string;
  metadata : gmap string PyVal
}.

(** [result.score = score] *)
Definition set_score (result : t) (score' : Q) : t :=
  {| item_id := item_id result; item_type := item_type result;
     content := content result; score := score'; source := source result;
     metadata := metadata result |}.
End SearchResult.

(** A hit of the vector search ([qdrant_client]'s [ScoredPoint]); a point
    id is kept as the text that an f-string prints for it. *)
Module ScoredPoint.
Record t := {
  id : string;
  score : Q;
  payload : gmap string PyVal
}.
End ScoredPoint.

Module HybridSearch.

(** The object state set by [__init__]: the vector client (its [search]
    method, by collection name, query vector, limit and score threshold),
    the embedding model (its [encode] method) and the knowledge graph. *)
Record t := {
  qdrant : string → list Q → Z → Q → result (list ScoredPoint.t);
  embedding_model : string → result (list Q);
  kg : KnowledgeGraph.t
}.

(** [Message] is imported from [.server] under [if TYPE_CHECKING:] only, so
    the module has no global of that name when it runs: evaluating the name
    raises [NameError]. *)
Definition Message : result unit :=
  Raise "NameError: name 'Message' is not defined".

Section Strategies.
(** [str.lower] and [datetime.isoformat]. *)
Context (lower : string → string) (isoformat : Z → string).

Definition opt_str (x : option string) : PyVal :=
  match x with
  | Some s => VStr s
  | None => VNone
  end.

Definition payload_get (payload : gmap string PyVal) (k : string) : PyVal :=
  default VNone (payload !! k).

(** [payload.get(k) == s] for a string [s]. *)
Definition payload_is (payload : gmap string PyVal) (k : string)
    (s : option string) : bool :=
  match payload !! k, s with
  | Some (VStr s'), Some s => bool_decide (s' = s)
  | _, _ => false
  end.

(** The loop body of [_semantic_search]. *)
Definition semantic_step (filters : gmap string string)
    (results : list SearchResult.t) (result : ScoredPoint.t)
    : list SearchResult.t :=
  (* Apply filters *)
  if truthy (filters !! "conversation_id")
     && negb (payload_is (ScoredPoint.payload result) "conversation_id"
                (filters !! "conversation_id"))
  then results
  else results ++
    [ {| SearchResult.item_id := ScoredPoint.id result;
         SearchResult.item_type := "message";
         SearchResult.content :=
           default (VStr "") (ScoredPoint.payload result !! "content");
         SearchResult.score := ScoredPoint.score result;
         SearchResult.source := "semantic";
         SearchResult.metadata :=
           {[ "conversation_id" := payload_get (ScoredPoint.payload result) "conversation_id";
              "role" := payload_get (ScoredPoint.payload result) "role";
              "timestamp" := payload_get (ScoredPoint.payload result) "timestamp" ]} |} ].

(** [_semantic_search(query, filters, limit, min_score)].  The embedding is
    computed before the [try]; only the vector search is inside it. *)
Definition _semantic_search (self : t) (query : string)
    (filters : gmap string string) (limit : Z) (min_score : Q)
    : result (list SearchResult.t) :=
  (* Generate query embedding *)
  query_embedding ← embedding_model self query;
  (* Search in Qdrant *)
  match qdrant self "messages" query_embedding (limit * 2)%Z min_score with
  | Raise e => mret []
  | Ok search_results =>
      (* Convert to SearchResult objects *)
      let results := foldl (semantic_step filters) [] search_results in
      mret (py_slice_to results limit)
  end.

(** The score of a message in [_keyword_search]; the last line is
    [min(score * 10, 1.0)]. *)
Definition message_score (query content : string) : Q :=
  let content_lower := lower content in
  let query_lower := lower query in
  let score :=
    (inject_Z (Z.of_nat (str_count content_lower query_lower))
     / inject_Z (Z.of_nat (max (String.length content_lower) 1)))%Q in
  let score := (score * 10)%Q in
  if Qle_bool score 1 then score else 1%Q.

Definition message_result (query : string) (msg : Message.t) : SearchResult.t :=
  {| SearchResult.item_id := pretty (Message.id msg);
     SearchResult.item_type := "message";
     SearchResult.content := VStr (Message.content msg);
     SearchResult.score := message_score query (Message.content msg);
     SearchResult.source := "keyword";
     SearchResult.metadata :=
       {[ "conversation_id" := opt_str (Message.conversation_id msg);
          "role" := VStr (Message.role msg);
          "timestamp" := opt_str (isoformat <$> Message.timestamp msg);
          "tokens" := from_option VInt VNone (Message.tokens msg) ]} |}.

Definition entity_result (query : string) (entity : Entity.t) : SearchResult.t :=
  {| SearchResult.item_id := Entity.id entity;
     SearchResult.item_type := "entity";
     SearchResult.content :=
       VStr (Entity.name entity +:+ ": " +:+ default "" (Entity.description entity));
     (* Score based on name vs description match *)
     SearchResult.score :=
       if str_contains (lower query) (lower (Entity.name entity))
       then (9 # 10)%Q else (6 # 10)%Q;
     SearchResult.source := "keyword";
     SearchResult.metadata :=
       {[ "entity_type" := VStr (Entity.entity_type entity);
          "confidence" := VNum (Entity.confidence entity);
          "conversation_id" := opt_str (Entity.conversation_id entity) ]} |}.

(** [Entity.name.like(f"%{query}%") | Entity.description.like(f"%{query}%")] *)
Definition entity_matches (session : AsyncSession.t) (query : string)
    (entity : Entity.t) : bool :=
  AsyncSession.like session ("%" +:+ query +:+ "%") (Entity.name entity)
  || from_option (AsyncSession.like session ("%" +:+ query +:+ "%")) false
       (Entity.description entity).

(** [_keyword_search(session, query, filters, limit)] *)
Definition _keyword_search (self : t) (session : AsyncSession.t) (query : string)
    (filters : gmap string string) (limit : Z) : result (list SearchResult.t) :=
  let results := [] in
  (* Search in messages *)
  _ ← Message;
  messages ← execute session Messages (AsyncSession.messages session)
    (λ msg, AsyncSession.like session ("%" +:+ query +:+ "%") (Message.content msg)
            && (negb (truthy (filters !! "conversation_id"))
                || bool_decide (Message.conversation_id msg
                                = filters !! "conversation_id")));
  let results := results ++ (message_result query <$> sql_limit limit messages) in
  (* Search in entities *)
  entities ← execute session Entities (AsyncSession.entities session)
    (λ entity, entity_matches session query entity
               && (negb (truthy (filters !! "entity_type"))
                   || bool_decide (Some (Entity.entity_type entity)
                                   = filters !! "entity_type")));
  let results := results ++ (entity_result query <$> sql_limit limit entities) in
  mret results.

(** The result built for a related entity in [_graph_search]. *)
Definition graph_result (seed_entity : Entity.t)
    (rel_entity : KnowledgeGraph.Related.t) : SearchResult.t :=
  {| SearchResult.item_id := KnowledgeGraph.Related.id rel_entity;
     SearchResult.item_type := "entity";
     SearchResult.content :=
       VStr (fmt_opt (KnowledgeGraph.Related.name rel_entity) +:+ " ("
             +:+ fmt_opt (KnowledgeGraph.Related.entity_type rel_entity) +:+ ")");
     (* Score based on distance from seed *)
     SearchResult.score :=
       (1 / (1 + inject_Z (Z.of_nat (KnowledgeGraph.Related.distance rel_entity))
                 * (3 # 10)))%Q;
     SearchResult.source := "graph";
     SearchResult.metadata :=
       {[ "entity_type" := opt_str (KnowledgeGraph.Related.entity_type rel_entity);
          "distance_from_query" :=
            VInt (Z.of_nat (KnowledgeGraph.Related.distance rel_entity));
          "seed_entity" := VStr (Entity.name seed_entity) ]} |}.

(** The body of the loop over the seed entities of [_graph_search]. *)
Definition graph_step (self : t) (filters : gmap string string) (limit : Z)
    (results : list SearchResult.t) (seed_entity : Entity.t)
    : list SearchResult.t :=
  if negb (nx.contains (KnowledgeGraph.graph (kg self)) (Entity.id seed_entity))
  then results
  else
    (* Get related entities *)
    let related :=
      KnowledgeGraph.find_related_entities (kg self) (Entity.id seed_entity)
        (filters !! "entity_type") 2 in
    results ++ (graph_result seed_entity <$> py_slice_to related limit).

(** [_graph_search(session, query, filters, limit)] *)
Definition _graph_search (self : t) (session : AsyncSession.t) (query : string)
    (filters : gmap string string) (limit : Z) : result (list SearchResult.t) :=
  (* First, find entities matching the query *)
  seed_entities ← execute session Entities (AsyncSession.entities session)
    (entity_matches session query);
  (* For each seed entity, find related entities in the graph *)
  mret (foldl (graph_step self filters limit) [] (sql_limit 5 seed_entities)).

End Strategies.

(** [by_source[result.source].append(result)], creating the list first. *)
Definition group_step (by_source : list (string * list SearchResult.t))
    (result : SearchResult.t) : list (string * list SearchResult.t) :=
  let by_source :=
    match ODict.get by_source (SearchResult.source result) with
    | None => ODict.set by_source (SearchResult.source result) []
    | Some _ => by_source
    end in
  ODict.set by_source (SearchResult.source result)
    (default [] (ODict.get by_source (SearchResult.source result)) ++ [result]).

(** [key=lambda x: x.score, reverse=True] *)
Definition score_desc (x y : SearchResult.t) : bool :=
  Qle_bool (SearchResult.score y) (SearchResult.score x).

(** [f"{result.item_type}:{result.item_id}"] *)
Definition rrf_key (result : SearchResult.t) : string :=
  SearchResult.item_type result +:+ ":" +:+ SearchResult.item_id result.

(** [1.0 / (k + rank)] with [k = 60] *)
Definition rrf_term (rank : nat) : Q := (1 / inject_Z (60 + Z.of_nat rank))%Q.

(** The body of the loop over [enumerate(source_results, start=1)], on the
    pair [(rrf_scores, item_map)]. *)
Definition rrf_step
    (acc : list (string * Q) * list (string * SearchResult.t))
    (item : nat * SearchResult.t)
    : list (string * Q) * list (string * SearchResult.t) :=
  let '(rrf_scores, item_map) := acc in
  let '(rank, result) := item in
  let key := rrf_key result in
  (ODict.set rrf_scores key (default 0 (ODict.get rrf_scores key) + rrf_term rank)%Q,
   ODict.set item_map key result).

(** [key=lambda x: x[1], reverse=True] *)
Definition rrf_desc (x y : string * Q) : bool := Qle_bool y.2 x.2.

(** The body of the loop that builds [fused]; [item_map] has every key of
    [rrf_scores]. *)
Definition fused_step (item_map : list (string * SearchResult.t))
    (fused : list SearchResult.t) (item : string * Q) : list SearchResult.t :=
  let '(key, rrf_score) := item in
  match ODict.get item_map key with
  | Some result => fused ++ [SearchResult.set_score result rrf_score]
  | None => fused
  end.

(** [_fuse_results(results, limit)] *)
Definition _fuse_results (results : list SearchResult.t) (limit : Z)
    : list SearchResult.t :=
  (* Group results by source *)
  let by_source := foldl group_step [] results in
  (* Sort each source by score *)
  let by_source := prod_map id (sorted_stable score_desc) <$> by_source in
  (* Calculate RRF scores *)
  let '(rrf_scores, item_map) :=
    foldl (λ acc entry, foldl rrf_step acc (enumerate 1 entry.2))
      ([], []) (ODict.items by_source) in
  (* Create fused results *)
  let fused :=
    foldl (fused_step item_map) []
      (sorted_stable rrf_desc (ODict.items rrf_scores)) in
  py_slice_to fused limit.

(** The end of [search]: rank the candidates (fusing them in hybrid mode),
    then keep the results whose score reaches [min_score]. *)
Definition rank_and_filter (mode : string) (results : list SearchResult.t)
    (limit : Z) (min_score : Q) : list SearchResult.t :=
  (* Rank and fuse results *)
  let results :=
    if bool_decide (mode = "hybrid") then _fuse_results results limit
    else py_slice_to (sorted_stable score_desc results) limit in
  filter (λ r, Qle_bool min_score (SearchResult.score r) = true) results.

Section Search.
Context (lower : string → string) (isoformat : Z → string).

(** [if mode in modes: results.extend(await strategy)] *)
Definition extend_if (mode : string) (modes : list string)
    (strategy : result (list SearchResult.t)) (results : list SearchResult.t)
    : result (list SearchResult.t) :=
  if bool_decide (mode ∈ modes)
  then (strategy_results ← strategy; mret (results ++ strategy_results))
  else mret results.

(** The first half of [search]: the strategies that [mode] selects, in the
    order semantic, keyword, graph. *)
Definition run_strategies (self : t) (session : AsyncSession.t) (query : string)
    (mode : string) (filters : gmap string string) (limit : Z) (min_score : Q)
    : result (list SearchResult.t) :=
  let results := [] in
  results ← extend_if mode ["hybrid"; "semantic"]
    (_semantic_search self query filters limit min_score) results;
  results ← extend_if mode ["hybrid"; "keyword"]
    (_keyword_search lower isoformat self session query filters limit) results;
  results ← extend_if mode ["hybrid"; "graph"]
    (_graph_search self session query filters limit) results;
  mret results.

(** [search(session, query, mode, filters, limit, min_score)]; the
    dictionaries returned have the fields of [SearchResult]. *)
Definition search (self : t) (session : AsyncSession.t) (query : string)
    (mode : string) (filters : option (gmap string string)) (limit : Z)
    (min_score : Q) : result (list SearchResult.t) :=
  let filters := default ∅ filters in
  (* Execute search strategies based on mode *)
  results ← run_strategies self session query mode filters limit min_score;
  mret (rank_and_filter mode results limit min_score).

End Search.
(** The entries of ["related_messages"]. *)
Module RelatedMessage.
Record t := {
  id : Z;
  role : string;
  content : string;
  timestamp : option string
}.
End RelatedMessage.

(** What [search_by_entity] returns: the error dictionary, or the context
    of the entity, to which ["related_messages"] may have been added. *)
Inductive EntitySearch :=
  | EntityNotFound (error : string)
  | EntityFound (context : option KnowledgeGraph.EntityContext.t)
      (related_messages : option (list RelatedMessage.t)).

(** The entries of ["entities"] and ["messages"] of a time-range search. *)
Module EntitySummary.
Record t := {
  id : string;
  name : string;
  entity_type : string;
  event_time : string;
  confidence : Q
}.
End EntitySummary.

Module MessageSummary.
Record t := {
  id : Z;
  conversation_id : option string;
  role : string;
  content : string;
  timestamp : option string
}.
End MessageSummary.

(** The dictionary returned by [search_by_time_range], ["time_range"]
    flattened. *)
Module TimeRangeResult.
Record t := {
  start : string;
  end_ : string;
  entities : list EntitySummary.t;
  messages : list MessageSummary.t
}.
End TimeRangeResult.

Section EntityAndTime.
Context (isoformat : Z → string).

(** [await session.get(Entity, entity_id)] *)
Definition session_get (session : AsyncSession.t) (entity_id : string)
    : result (option Entity.t) :=
  rows ← execute session Entities (AsyncSession.entities session)
    (λ entity, bool_decide (Entity.id entity = entity_id));
  mret (head rows).

Definition related_message (msg : Message.t) : RelatedMessage.t :=
  {| RelatedMessage.id := Message.id msg;
     RelatedMessage.role := Message.role msg;
     RelatedMessage.content := Message.content msg;
     RelatedMessage.timestamp := isoformat <$> Message.timestamp msg |}.

(** [search_by_entity(session, entity_id, depth, limit)] *)
Definition search_by_entity (self : t) (session : AsyncSession.t)
    (entity_id : string) (depth limit : Z) : result EntitySearch :=
  if negb (nx.contains (KnowledgeGraph.graph (kg self)) entity_id)
  then mret (EntityNotFound "Entity not found in knowledge graph")
  else
    (* Get entity context *)
    context ← KnowledgeGraph.get_entity_context (kg self) entity_id depth;
    (* Get messages mentioning this entity *)
    entity ← session_get session entity_id;
    match entity with
    | Some entity =>
        if truthy (Entity.conversation_id entity)
        then
          _ ← Message;
          messages ← execute session Messages (AsyncSession.messages session)
            (λ msg, bool_decide (Message.conversation_id msg
                                 = Entity.conversation_id entity));
          mret (EntityFound context
                  (Some (related_message <$> sql_limit limit messages)))
        else mret (EntityFound context None)
    | None => mret (EntityFound context None)
    end.

Definition entity_summary (e : Entity.t) : EntitySummary.t :=
  {| EntitySummary.id := Entity.id e;
     EntitySummary.name := Entity.name e;
     EntitySummary.entity_type := Entity.entity_type e;
     EntitySummary.event_time := isoformat (Entity.event_time e);
     EntitySummary.confidence := Entity.confidence e |}.

(** ["content": m.content[:200] + "..." if len(m.content) > 200 else m.content] *)
Definition message_summary (m : Message.t) : MessageSummary.t :=
  {| MessageSummary.id := Message.id m;
     MessageSummary.conversation_id := Message.conversation_id m;
     MessageSummary.role := Message.role m;
     MessageSummary.content :=
       if (200 <? String.length (Message.content m))%nat
       then str_slice (Message.content m) 0 200 +:+ "..."
       else Message.content m;
     MessageSummary.timestamp := isoformat <$> Message.timestamp m |}.

(** [search_by_time_range(session, start_time, end_time, entity_types, limit)] *)
Definition search_by_time_range (self : t) (session : AsyncSession.t)
    (start_time end_time : Z) (entity_types : option (list string)) (limit : Z)
    : result TimeRangeResult.t :=
  (* Query entities in time range *)
  entities ← execute session Entities (AsyncSession.entities session)
    (λ e, (start_time <=? Entity.event_time e)%Z
          && (Entity.event_time e <=? end_time)%Z
          && match entity_types with
             | Some (ty :: tys) => bool_decide (Entity.entity_type e ∈ ty :: tys)
             | _ => true
             end);
  let entities := sql_limit limit entities in
  (* Query messages in time range *)
  _ ← Message;
  messages ← execute session Messages (AsyncSession.messages session)
    (λ m, match Message.timestamp m with
          | Some t => (start_time <=? t)%Z && (t <=? end_time)%Z
          | None => false
          end);
  let messages := sql_limit limit messages in
  mret {| TimeRangeResult.start := isoformat start_time;
          TimeRangeResult.end_ := isoformat end_time;
          TimeRangeResult.entities := entity_summary <$> entities;
          TimeRangeResult.messages := message_summary <$> messages |}.

End EntityAndTime.
End HybridSearch.

(** ** server.py *)

Module server.

(** [_TokenHasher.encode(text)].  [tokenizer] is the module's global of
    that name: [None] until [init_models] has run, then an object whose
    [encode] gives the token ids of a text. *)
Definition hash_step (vector : list Q) (item : nat * Z) : list Q :=
  let '(idx, token_id) := item in
  alter (λ x, x + inject_Z token_id)%Q (idx mod length vector) vector.

Definition token_hasher_encode (tokenizer : option (string → list Z))
    (text : string) : list Q :=
  (* Spread token ids across a fixed-size vector to approximate similarity. *)
  let vector := replicate 384 0%Q in
  match tokenizer with
  | None => vector
  | Some encode => foldl hash_step vector (enumerate 0 (encode text))
  end.

(** The entries of ["history"]. *)
Module Version.
Record t := {
  name : string;
  entity_type : string;
  description : option string;
  event_time : string;
  ingestion_time : string;
  valid_from : string;
  valid_until : option string;
  confidence : Q;
  conversation_id : option string;
  message_id : option Z
}.
End Version.

(** What the tool [get_entity_history] returns. *)
Inductive EntityHistory :=
  | HistoryNotFound (error : string)
  | History (entity_id : string) (current_name : string)
      (version_count : nat) (history : list Version.t).

Section Tools.
Context (lower : string → string) (isoformat : Z → string).

Definition version (v : Entity.t) : Version.t :=
  {| Version.name := Entity.name v;
     Version.entity_type := Entity.entity_type v;
     Version.description := Entity.description v;
     Version.event_time := isoformat (Entity.event_time v);
     Version.ingestion_time := isoformat (Entity.ingestion_time v);
     Version.valid_from := isoformat (Entity.valid_from v);
     Version.valid_until := isoformat <$> Entity.valid_until v;
     Version.confidence := Entity.confidence v;
     Version.conversation_id := Entity.conversation_id v;
     Version.message_id := Entity.message_id v |}.

(** [get_entity_history(entity_id)]; [order_by(Entity.valid_from)] lists
    rows of equal [valid_from] in table order here. *)
Definition get_entity_history (session : AsyncSession.t) (entity_id : string)
    : result EntityHistory :=
  (* Get all versions of this entity *)
  rows ← execute session Entities (AsyncSession.entities session)
    (λ entity, bool_decide (Entity.id entity = entity_id));
  let versions :=
    sorted_stable (λ x y, (Entity.valid_from x <=? Entity.valid_from y)%Z) rows in
  match versions with
  | [] => mret (HistoryNotFound "Entity not found")
  | first :: _ =>
      mret (History entity_id (Entity.name (List.last versions first))
              (length versions) (version <$> versions))
  end.

(** [search_hybrid(query, mode, filters, limit)].  The module's globals
    [knowledge_graph] and [hybrid_search.kg] are one object, so a rebuild
    is seen by the search; the state returned is that object after the
    call.  [search] runs with its default [min_score], [0.5]. *)
Definition search_hybrid (hybrid_search : HybridSearch.t)
    (session : AsyncSession.t) (query mode : string)
    (filters : option (gmap string string)) (limit : Z) (utcnow utcnow' : Z)
    : HybridSearch.t * result (list SearchResult.t) :=
  (* Ensure knowledge graph is built for graph search *)
  let '(knowledge_graph, built) :=
    if bool_decide (mode ∈ ["hybrid"; "graph"])
       && (nx.number_of_nodes (KnowledgeGraph.graph (HybridSearch.kg hybrid_search))
           =? 0)%Z
    then
      let '(kg', r) :=
        KnowledgeGraph.build_graph session None utcnow utcnow'
          (HybridSearch.kg hybrid_search) in
      (kg', _ ← r; mret ())
    else (HybridSearch.kg hybrid_search, mret ()) in
  let hybrid_search :=
    {| HybridSearch.qdrant := HybridSearch.qdrant hybrid_search;
       HybridSearch.embedding_model := HybridSearch.embedding_model hybrid_search;
       HybridSearch.kg := knowledge_graph |} in
  (hybrid_search,
   _ ← built;
   HybridSearch.search lower isoformat hybrid_search session query mode
     (Some (default ∅ filters)) limit (1 # 2)).

End Tools.
End server.

(** * Part II: properties *)

(** ** Rationals *)

Lemma Qlt_bool_iff (a b : Q) : Qlt_bool a b = true ↔ (a < b)%Q.
Proof.
  unfold Qlt_bool. rewrite negb_true_iff.
  destruct (Qle_bool b a) eqn:E.
  - apply Qle_bool_iff in E. split; [done|]. intros H. exfalso.
    exact (Qlt_not_le _ _ H E).
  - split; [|done]. intros _. apply Qnot_le_lt. intros H.
    apply Qle_bool_iff in H. congruence.
Qed.

Lemma Qlt_bool_false (a b : Q) : Qlt_bool a b = false ↔ (b <= a)%Q.
Proof.
  unfold Qlt_bool. rewrite negb_false_iff. apply Qle_bool_iff.
Qed.

(** ** Slices *)

Lemma py_slice_to_nil {A : Type} (n : Z) : py_slice_to (@nil A) n = [].
Proof. unfold py_slice_to. destruct (0 <=? n)%Z; apply take_nil. Qed.

Lemma py_slice_to_nonneg {A : Type} (l : list A) (n : Z) :
  (0 <= n)%Z → py_slice_to l n = take (Z.to_nat n) l.
Proof. intros H. unfold py_slice_to. by rewrite (proj2 (Z.leb_le 0 n) H). Qed.

Lemma py_slice_to_sublist {A : Type} (l : list A) (n : Z) :
  py_slice_to l n `sublist_of` l.
Proof. unfold py_slice_to. destruct (0 <=? n)%Z; apply sublist_take. Qed.

Lemma py_slice_to_elem {A : Type} (l : list A) (n : Z) (x : A) :
  x ∈ py_slice_to l n → x ∈ l.
Proof.
  unfold py_slice_to. destruct (0 <=? n)%Z;
    intros (i & Hi & _)%elem_of_take; by eapply list_elem_of_lookup_2.
Qed.

(** ** Stable sorting *)

Section StableSort.
Context {A : Type} (leb : A → A → bool).

Lemma insert_stable_perm x l : insert_stable leb x l ≡ₚ x :: l.
Proof.
  induction l as [|y l IH]; simpl; [done|].
  destruct (leb x y); [done|]. rewrite IH. apply Permutation_swap.
Qed.

Lemma sorted_stable_perm l : sorted_stable leb l ≡ₚ l.
Proof.
  induction l as [|x l IH]; simpl; [done|].
  rewrite insert_stable_perm. by rewrite IH.
Qed.

Lemma sorted_stable_length l : length (sorted_stable leb l) = length l.
Proof. by rewrite sorted_stable_perm. Qed.

Lemma sorted_stable_elem x l : x ∈ sorted_stable leb l ↔ x ∈ l.
Proof. by rewrite sorted_stable_perm. Qed.

Hypothesis leb_total : ∀ x y, leb x y = true ∨ leb y x = true.
Hypothesis leb_trans : ∀ x y z, leb x y = true → leb y z = true → leb x z = true.

Lemma insert_stable_sorted x l :
  StronglySorted (λ a b, leb a b = true) l →
  StronglySorted (λ a b, leb a b = true) (insert_stable leb x l).
Proof.
  induction 1 as [|y l Hs IH Hy]; simpl.
  - repeat constructor.
  - destruct (leb x y) eqn:E.
    + constructor; [by constructor|].
      constructor; [done|].
      eapply Forall_impl; [exact Hy|]. intros z Hz. by eapply leb_trans.
    + constructor; [done|].
      rewrite insert_stable_perm. constructor; [|done].
      destruct (leb_total x y); congruence.
Qed.

Lemma sorted_stable_sorted l :
  StronglySorted (λ a b, leb a b = true) (sorted_stable leb l).
Proof.
  induction l as [|x l IH]; simpl; [constructor|].
  by apply insert_stable_sorted.
Qed.
End StableSort.

Lemma StronglySorted_weaken {A : Type} (R R' : relation A) (l : list A) :
  (∀ x y, R x y → R' x y) → StronglySorted R l → StronglySorted R' l.
Proof.
  intros H. induction 1 as [|x l Hs IH Hx]; constructor; [done|].
  eapply Forall_impl; [exact Hx|]. intros y. apply H.
Qed.

(** ** Insertion-ordered dictionaries *)

Section ODictFacts.
Context {K V : Type} `{EqDecision K}.
Implicit Types (d : list (K * V)) (k : K) (v : V).

Lemma odict_get_set_eq d k v : ODict.get (ODict.set d k v) k = Some v.
Proof.
  induction d as [|[k' v'] d IH]; simpl.
  - by rewrite decide_True.
  - destruct (decide (k = k')) as [->|Hne]; simpl.
    + by rewrite decide_True.
    + by rewrite decide_False.
Qed.

Lemma odict_get_set_ne d k k' v :
  k ≠ k' → ODict.get (ODict.set d k v) k' = ODict.get d k'.
Proof.
  intros Hne. induction d as [|[k2 v2] d IH]; simpl.
  - by rewrite decide_False.
  - destruct (decide (k = k2)) as [->|Hne2]; simpl.
    + by rewrite !decide_False.
    + destruct (decide (k' = k2)); done.
Qed.

Lemma odict_get_None d k : ODict.get d k = None ↔ k ∉ ODict.keys d.
Proof.
  unfold ODict.keys. induction d as [|[k' v'] d IH]; simpl.
  - split; [intros _; apply not_elem_of_nil|done].
  - rewrite not_elem_of_cons. destruct (decide (k = k')) as [->|Hne].
    + split; [done|]. intros [? _]. done.
    + rewrite IH. tauto.
Qed.

Lemma odict_get_Some_elem d k v : ODict.get d k = Some v → (k, v) ∈ d.
Proof.
  induction d as [|[k' v'] d IH]; simpl; [done|].
  destruct (decide (k = k')) as [->|Hne].
  - intros [= ->]. apply list_elem_of_here.
  - intros H. apply list_elem_of_further. auto.
Qed.

Lemma odict_elem_get_Some d k v :
  NoDup (ODict.keys d) → (k, v) ∈ d → ODict.get d k = Some v.
Proof.
  unfold ODict.keys. induction d as [|[k' v'] d IH]; simpl.
  - intros _ H. by apply elem_of_nil in H.
  - rewrite NoDup_cons. intros [Hk Hd] [Heq|Hin]%elem_of_cons.
    + injection Heq as -> ->. by rewrite decide_True.
    + destruct (decide (k = k')) as [->|Hne]; [|by apply IH].
      exfalso. apply Hk. apply list_elem_of_fmap. by exists (k', v).
Qed.

Lemma odict_keys_set_present d k v :
  k ∈ ODict.keys d → ODict.keys (ODict.set d k v) = ODict.keys d.
Proof.
  unfold ODict.keys. induction d as [|[k' v'] d IH]; simpl.
  - intros H. by apply elem_of_nil in H.
  - intros H. destruct (decide (k = k')) as [->|Hne]; simpl; [done|].
    f_equal. apply IH. apply elem_of_cons in H as [?|?]; done.
Qed.

Lemma odict_keys_set_absent d k v :
  k ∉ ODict.keys d → ODict.keys (ODict.set d k v) = ODict.keys d ++ [k].
Proof.
  unfold ODict.keys. induction d as [|[k' v'] d IH]; simpl; [done|].
  rewrite not_elem_of_cons. intros [Hne Hd].
  rewrite decide_False by done. simpl. f_equal. by apply IH.
Qed.

Lemma odict_keys_set_elem d k v k' :
  k' ∈ ODict.keys (ODict.set d k v) ↔ k' = k ∨ k' ∈ ODict.keys d.
Proof.
  destruct (decide (k ∈ ODict.keys d)) as [Hin|Hnin].
  - rewrite odict_keys_set_present by done. split; [auto|].
    intros [->|?]; done.
  - rewrite odict_keys_set_absent by done.
    rewrite elem_of_app, list_elem_of_singleton. tauto.
Qed.

Lemma odict_keys_set_NoDup d k v :
  NoDup (ODict.keys d) → NoDup (ODict.keys (ODict.set d k v)).
Proof.
  intros Hd. destruct (decide (k ∈ ODict.keys d)) as [Hin|Hnin].
  - by rewrite odict_keys_set_present.
  - rewrite odict_keys_set_absent by done. apply NoDup_app. split; [done|].
    split; [|apply NoDup_singleton].
    intros x Hx ->%list_elem_of_singleton. done.
Qed.
End ODictFacts.

(** ** deduplicate_entities *)

Section DedupFacts.
Import EntityExtractor.
Context (lower : string → string).

(** What [seen] holds under key [k] after the loop has consumed [pre]: an
    entity of that key, of maximal confidence among the entities of the key
    in [pre], and the earliest such. *)
Definition kept_for (pre : list EntityDict) (k : string * string)
    (e' : EntityDict) : Prop :=
  dedup_key lower e' = k ∧
  ∃ i, pre !! i = Some e' ∧
    (∀ j e, pre !! j = Some e → dedup_key lower e = k →
       (ed_confidence e <= ed_confidence e')%Q) ∧
    (∀ j e, (j < i)%nat → pre !! j = Some e → dedup_key lower e = k →
       (ed_confidence e < ed_confidence e')%Q).

Definition dedup_inv (pre : list EntityDict)
    (seen : list ((string * string) * EntityDict)) : Prop :=
  NoDup (ODict.keys seen) ∧
  (∀ k e', ODict.get seen k = Some e' → kept_for pre k e') ∧
  (∀ e, e ∈ pre → dedup_key lower e ∈ ODict.keys seen).

Lemma kept_for_snoc_other pre x k e' :
  dedup_key lower x ≠ k → kept_for pre k e' → kept_for (pre ++ [x]) k e'.
Proof.
  intros Hne [Hk (i & Hi & Hmax & Hfirst)]. split; [done|].
  exists i. split; [by apply lookup_app_l_Some|]. split.
  - intros j e Hj He. apply lookup_snoc_Some in Hj as [[_ Hj]|[_ <-]].
    + by eapply Hmax.
    + done.
  - intros j e Hlt Hj He. apply lookup_snoc_Some in Hj as [[_ Hj]|[_ <-]].
    + by eapply Hfirst.
    + done.
Qed.

Lemma kept_for_snoc_le pre x e' :
  (ed_confidence x <= ed_confidence e')%Q →
  kept_for pre (dedup_key lower x) e' →
  kept_for (pre ++ [x]) (dedup_key lower x) e'.
Proof.
  intros Hle [Hk (i & Hi & Hmax & Hfirst)]. split; [done|].
  exists i. split; [by apply lookup_app_l_Some|]. split.
  - intros j e Hj He. apply lookup_snoc_Some in Hj as [[_ Hj]|[_ <-]].
    + by eapply Hmax.
    + done.
  - intros j e Hlt Hj He. apply lookup_snoc_Some in Hj as [[_ Hj]|[Hlen <-]].
    + by eapply Hfirst.
    + apply lookup_lt_Some in Hi. lia.
Qed.

Lemma kept_for_snoc_new pre x :
  (∀ j e, pre !! j = Some e → dedup_key lower e = dedup_key lower x →
     (ed_confidence e < ed_confidence x)%Q) →
  kept_for (pre ++ [x]) (dedup_key lower x) x.
Proof.
  intros Hlt. split; [done|]. exists (length pre). split.
  { by rewrite lookup_app_r, Nat.sub_diag by lia. }
  split.
  - intros j e Hj He. apply lookup_snoc_Some in Hj as [[_ Hj]|[_ <-]].
    + apply Qlt_le_weak. by eapply Hlt.
    + apply Qle_refl.
  - intros j e Hj' Hj He. apply lookup_snoc_Some in Hj as [[_ Hj]|[Hlen <-]].
    + by eapply Hlt.
    + lia.
Qed.

Lemma dedup_step_inv pre seen x :
  dedup_inv pre seen → dedup_inv (pre ++ [x]) (dedup_step lower seen x).
Proof.
  intros (Hnd & Hkept & Hcov). unfold dedup_step.
  destruct (ODict.get seen (dedup_key lower x)) as [kept|] eqn:Hget.
  - destruct (Qlt_bool (ed_confidence kept) (ed_confidence x)) eqn:Hc.
    + apply Qlt_bool_iff in Hc. split; [by apply odict_keys_set_NoDup|]. split.
      * intros k e' Hk. destruct (decide (dedup_key lower x = k)) as [<-|Hne].
        -- rewrite odict_get_set_eq in Hk. injection Hk as <-.
           apply kept_for_snoc_new. intros j e Hj He.
           destruct (Hkept _ _ Hget) as [_ (i & _ & Hmax & _)].
           eapply Qle_lt_trans; [|exact Hc]. by eapply Hmax.
        -- rewrite odict_get_set_ne in Hk by done.
           apply kept_for_snoc_other; auto.
      * intros e [He| ->%list_elem_of_singleton]%elem_of_app;
          apply odict_keys_set_elem; auto.
    + apply Qlt_bool_false in Hc. split; [done|]. split.
      * intros k e' Hk. destruct (decide (dedup_key lower x = k)) as [<-|Hne].
        -- rewrite Hget in Hk. injection Hk as <-.
           apply kept_for_snoc_le; auto.
        -- apply kept_for_snoc_other; auto.
      * intros e [He| ->%list_elem_of_singleton]%elem_of_app; [auto|].
        apply dec_stable. intros Hn. apply odict_get_None in Hn. congruence.
  - split; [by apply odict_keys_set_NoDup|]. split.
    + intros k e' Hk. destruct (decide (dedup_key lower x = k)) as [<-|Hne].
      * rewrite odict_get_set_eq in Hk. injection Hk as <-.
        apply kept_for_snoc_new. intros j e Hj He. exfalso.
        apply odict_get_None in Hget. apply Hget. rewrite <- He.
        apply Hcov. by eapply list_elem_of_lookup_2.
      * rewrite odict_get_set_ne in Hk by done.
        apply kept_for_snoc_other; auto.
    + intros e [He| ->%list_elem_of_singleton]%elem_of_app;
        apply odict_keys_set_elem; auto.
Qed.

Lemma dedup_loop_inv pre seen entities :
  dedup_inv pre seen →
  dedup_inv (pre ++ entities) (foldl (dedup_step lower) seen entities).
Proof.
  revert pre seen. induction entities as [|x entities IH]; intros pre seen Hinv.
  - by rewrite app_nil_r.
  - simpl. replace (pre ++ x :: entities) with ((pre ++ [x]) ++ entities)
      by (by rewrite <- app_assoc).
    apply IH. by apply dedup_step_inv.
Qed.

Lemma dedup_inv_nil : dedup_inv [] [].
Proof.
  split; [constructor|]. split; [done|].
  intros e He. by apply elem_of_nil in He.
Qed.

(** The keys of the values of [seen] are the keys of [seen]. *)
Lemma dedup_inv_keys pre seen :
  dedup_inv pre seen → dedup_key lower <$> ODict.values seen = ODict.keys seen.
Proof.
  intros (Hnd & Hkept & _). unfold ODict.values, ODict.keys.
  rewrite <- list_fmap_compose. apply Forall_fmap_ext_1.
  apply Forall_forall. intros [k e] Hin. simpl.
  apply odict_elem_get_Some in Hin; [|done].
  by destruct (Hkept _ _ Hin) as [-> _].
Qed.

End DedupFacts.

(** ** build_graph and store failures *)

Section BuildGraphFacts.
Import KnowledgeGraph.

(** The rows that the two queries of [build_graph] select. *)
Definition valid_entities (session : AsyncSession.t) (as_of : Z) : list Entity.t :=
  filter (λ entity,
      valid_at (Entity.valid_from entity) (Entity.valid_until entity) as_of = true)
    (AsyncSession.entities session).

Definition valid_relationships (session : AsyncSession.t) (as_of : Z)
    : list Relationship.t :=
  filter (λ rel,
      valid_at (Relationship.valid_from rel) (Relationship.valid_until rel) as_of = true)
    (AsyncSession.relationships session).

(** The graph that a successful build leaves. *)
Definition built_graph (session : AsyncSession.t) (as_of : Z) : nx.MultiDiGraph :=
  foldl add_relationship
    (foldl add_entity nx.empty (valid_entities session as_of))
    (valid_relationships session as_of).

Lemma build_graph_entities_fail session as_of utcnow utcnow' self e :
  AsyncSession.fails session Entities = Some e →
  build_graph session as_of utcnow utcnow' self
  = ({| graph := nx.empty; _last_refresh := _last_refresh self |}, Raise e).
Proof.
  intros Hf. unfold build_graph, execute, mbind, method_bind, update_graph, await.
  simpl. by rewrite Hf.
Qed.

Lemma build_graph_relationships_fail session as_of utcnow utcnow' self e :
  AsyncSession.fails session Entities = None →
  AsyncSession.fails session Relationships = Some e →
  build_graph session as_of utcnow utcnow' self
  = ({| graph := foldl add_entity nx.empty
                   (valid_entities session (default utcnow as_of));
        _last_refresh := _last_refresh self |}, Raise e).
Proof.
  intros Hf Hf'. unfold build_graph, execute, mbind, method_bind, update_graph, await.
  simpl. by rewrite Hf, Hf'.
Qed.

Lemma build_graph_ok session as_of utcnow utcnow' self :
  AsyncSession.fails session Entities = None →
  AsyncSession.fails session Relationships = None →
  build_graph session as_of utcnow utcnow' self
  = ({| graph := built_graph session (default utcnow as_of);
        _last_refresh := Some utcnow' |},
     Ok (nx.number_of_nodes (built_graph session (default utcnow as_of)))).
Proof.
  intros Hf Hf'. unfold build_graph, execute, mbind, method_bind, update_graph, await.
  simpl. by rewrite Hf, Hf'.
Qed.

Lemma add_entity_edges G entity : nx._edges (add_entity G entity) = nx._edges G.
Proof. done. Qed.

Lemma add_entities_edges G entities :
  nx._edges (foldl add_entity G entities) = nx._edges G.
Proof.
  revert G. induction entities as [|x l IH]; intros G; simpl; [done|].
  by rewrite IH.
Qed.

(** C1, as the code has it.  When a build raises, the exception is the one
    of the store and reaches the caller, and the refresh time is the one
    before the call; the graph, however, was cleared before the first
    query: after a failed entity query it is empty, after a failed
    relationship query it holds the entities just loaded and no edge. *)
Theorem build_graph_failure_leaves_cleared_graph
    (session : AsyncSession.t) (as_of : option Z) (utcnow utcnow' : Z)
    (self self' : KnowledgeGraph.t) (e : exn) :
  build_graph session as_of utcnow utcnow' self = (self', Raise e) →
  _last_refresh self' = _last_refresh self ∧
  nx._edges (graph self') = [] ∧
  ((AsyncSession.fails session Entities = Some e ∧ graph self' = nx.empty) ∨
   (AsyncSession.fails session Entities = None ∧
    AsyncSession.fails session Relationships = Some e ∧
    graph self' = foldl add_entity nx.empty
                    (valid_entities session (default utcnow as_of)))).
Proof.
  intros Hb.
  destruct (AsyncSession.fails session Entities) as [e1|] eqn:H1.
  - rewrite (build_graph_entities_fail _ _ _ _ _ e1 H1) in Hb.
    injection Hb as <- <-. simpl. auto.
  - destruct (AsyncSession.fails session Relationships) as [e2|] eqn:H2.
    + rewrite (build_graph_relationships_fail _ _ _ _ _ e2 H1 H2) in Hb.
      injection Hb as <- <-. simpl. rewrite add_entities_edges. auto 10.
    + by rewrite (build_graph_ok _ _ _ _ _ H1 H2) in Hb.
Qed.
End BuildGraphFacts.

(** *** A store that cannot be reached, and a graph built earlier *)

Definition no_edge_attrs (relationship_type : string) : EdgeAttrs.t :=
  {| EdgeAttrs.relationship_type := relationship_type;
     EdgeAttrs.confidence := 1;
     EdgeAttrs.properties := ∅;
     EdgeAttrs.conversation_id := None;
     EdgeAttrs.message_id := None |}.

Definition unreachable_store : AsyncSession.t :=
  {| AsyncSession.entities := [];
     AsyncSession.relationships := [];
     AsyncSession.messages := [];
     AsyncSession.fails := λ _, Some "OperationalError: unable to open database file";
     AsyncSession.like := λ _ _, false |}.

Definition graph_a_b : KnowledgeGraph.t :=
  {| KnowledgeGraph.graph := nx.add_edge nx.empty "a" "b" "r1" (no_edge_attrs "uses");
     KnowledgeGraph._last_refresh := Some 100%Z |}.

Lemma build_graph_failure_leaves_cleared_graph_witness :
  KnowledgeGraph._last_refresh
    (KnowledgeGraph.build_graph unreachable_store None 200 201 graph_a_b).1
  = Some 100%Z.
Proof.
  destruct (KnowledgeGraph.build_graph unreachable_store None 200 201 graph_a_b)
    as [self' r] eqn:Hb.
  assert (r = Raise "OperationalError: unable to open database file") as ->
    by (by injection Hb as _ <-).
  exact (proj1 (build_graph_failure_leaves_cleared_graph _ _ _ _ _ _ _ Hb)).
Defined.

(** C1 as stated fails: the build below raises, and the graph that had the
    nodes [a] and [b] and an edge between them is left with no node and no
    edge. *)
Lemma build_graph_failure_loses_graph :
  let before := graph_a_b in
  let after := (KnowledgeGraph.build_graph unreachable_store None 200 201 before).1 in
  (KnowledgeGraph.build_graph unreachable_store None 200 201 before).2
    = Raise "OperationalError: unable to open database file" ∧
  nx.contains (KnowledgeGraph.graph before) "a" = true ∧
  length (nx._edges (KnowledgeGraph.graph before)) = 1%nat ∧
  nx.contains (KnowledgeGraph.graph after) "a" = false ∧
  nx._edges (KnowledgeGraph.graph after) = [] ∧
  KnowledgeGraph.graph after ≠ KnowledgeGraph.graph before.
Proof.
  simpl. repeat split; done.
Qed.

(** ** search: the score threshold and the failures of the semantic strategy *)

Section SearchFacts.
Import HybridSearch.
Context (lower : string → string) (isoformat : Z → string).

Lemma rank_and_filter_min_score mode results limit min_score r :
  r ∈ rank_and_filter mode results limit min_score →
  (min_score <= SearchResult.score r)%Q.
Proof.
  unfold rank_and_filter. intros [H _]%list_elem_of_filter.
  by apply Qle_bool_iff.
Qed.

Lemma search_unfold self session query mode filters limit min_score out :
  search lower isoformat self session query mode filters limit min_score = Ok out →
  ∃ candidates,
    run_strategies lower isoformat self session query mode (default ∅ filters)
      limit min_score = Ok candidates ∧
    out = rank_and_filter mode candidates limit min_score.
Proof.
  unfold search.
  destruct (run_strategies _ _ _ _ _ _ _ _ _) as [candidates|e]; simpl; [|done].
  intros [= <-]. eauto.
Qed.

(** C3.  Whatever the query, mode, filters, limit and threshold, a result
    that [search] returns has a score that is not below [min_score]; the
    threshold is applied to the ranked list, which in hybrid mode is the
    fused one (scores are the RRF scores) and otherwise the candidates
    sorted by their own score. *)
Theorem search_respects_min_score
    (self : HybridSearch.t) (session : AsyncSession.t) (query mode : string)
    (filters : option (gmap string string)) (limit : Z) (min_score : Q)
    (out : list SearchResult.t) :
  search lower isoformat self session query mode filters limit min_score = Ok out →
  (∀ r, r ∈ out → ¬ (SearchResult.score r < min_score)%Q) ∧
  ∃ candidates,
    run_strategies lower isoformat self session query mode (default ∅ filters)
      limit min_score = Ok candidates ∧
    out = filter (λ r, Qle_bool min_score (SearchResult.score r) = true)
            (if bool_decide (mode = "hybrid")
             then _fuse_results candidates limit
             else py_slice_to (sorted_stable score_desc candidates) limit).
Proof.
  intros (candidates & Hrun & ->)%search_unfold. split; [|by eauto].
  intros r Hr%rank_and_filter_min_score. by apply Qle_not_lt.
Qed.

(** A vector client that fails leaves [_semantic_search] with no result. *)
Lemma semantic_search_client_fails self query filters limit min_score v e :
  embedding_model self query = Ok v →
  qdrant self "messages" v (limit * 2)%Z min_score = Raise e →
  _semantic_search self query filters limit min_score = Ok [].
Proof.
  intros Hv Hq. unfold _semantic_search. rewrite Hv. simpl. by rewrite Hq.
Qed.

(** An embedding model that fails makes [_semantic_search] raise. *)
Lemma semantic_search_encode_fails self query filters limit min_score e :
  embedding_model self query = Raise e →
  _semantic_search self query filters limit min_score = Raise e.
Proof. intros Hv. unfold _semantic_search. by rewrite Hv. Qed.

(** The same object with a vector client that finds nothing. *)
Definition with_empty_index (self : HybridSearch.t) : HybridSearch.t :=
  {| qdrant := λ _ _ _ _, Ok [];
     embedding_model := embedding_model self;
     kg := kg self |}.

Lemma semantic_search_empty_index self query filters limit min_score v :
  embedding_model self query = Ok v →
  _semantic_search (with_empty_index self) query filters limit min_score = Ok [].
Proof.
  intros Hv. unfold _semantic_search. simpl. rewrite Hv. simpl.
  by rewrite py_slice_to_nil.
Qed.

(** C9, as the code has it.  When the embedding is computed and the vector
    client raises, the semantic strategy returns the empty list, and
    [search] does what it does when the vector client finds nothing: the
    failure of the vector client never reaches the caller, and in semantic
    mode the call returns the empty list. *)
Theorem semantic_search_degrades_on_client_failure
    (self : HybridSearch.t) (query : string) (limit : Z) (min_score : Q)
    (v : list Q) (e : exn) :
  embedding_model self query = Ok v →
  qdrant self "messages" v (limit * 2)%Z min_score = Raise e →
  (∀ filters, _semantic_search self query filters limit min_score = Ok []) ∧
  (∀ session mode filters,
     search lower isoformat self session query mode filters limit min_score
     = search lower isoformat (with_empty_index self) session query mode filters
         limit min_score) ∧
  (∀ session filters,
     search lower isoformat self session query "semantic" filters limit min_score
     = Ok []).
Proof.
  intros Hv Hq.
  assert (∀ filters, _semantic_search self query filters limit min_score = Ok [])
    as Hsem by (intros; by eapply semantic_search_client_fails).
  split; [done|]. split.
  - intros session mode filters. unfold search, run_strategies.
    rewrite Hsem, (semantic_search_empty_index _ _ _ _ _ v Hv). reflexivity.
  - intros session filters. unfold search, run_strategies. rewrite Hsem.
    unfold extend_if, rank_and_filter. simpl.
    by rewrite py_slice_to_nil.
Qed.
End SearchFacts.

(** *** A vector index with two hits, a failing client, a failing model *)

Definition hit (id : string) (score : Q) : ScoredPoint.t :=
  {| ScoredPoint.id := id; ScoredPoint.score := score;
     ScoredPoint.payload := {[ "content" := VStr "text" ]} |}.

Definition empty_store : AsyncSession.t :=
  {| AsyncSession.entities := [];
     AsyncSession.relationships := [];
     AsyncSession.messages := [];
     AsyncSession.fails := λ _, None;
     AsyncSession.like := λ _ _, false |}.

Definition searcher_two_hits : HybridSearch.t :=
  {| HybridSearch.qdrant := λ _ _ _ _, Ok [hit "p1" (9 # 10); hit "p2" (3 # 10)];
     HybridSearch.embedding_model := λ _, Ok [1 # 2];
     HybridSearch.kg := KnowledgeGraph.__init__ |}.

Definition searcher_client_down : HybridSearch.t :=
  {| HybridSearch.qdrant := λ _ _ _ _, Raise "ConnectionError: Qdrant error";
     HybridSearch.embedding_model := λ _, Ok [1 # 2];
     HybridSearch.kg := KnowledgeGraph.__init__ |}.

Definition searcher_model_down : HybridSearch.t :=
  {| HybridSearch.qdrant := λ _ _ _ _, Ok [hit "p1" (9 # 10)];
     HybridSearch.embedding_model := λ _, Raise "RuntimeError: model not loaded";
     HybridSearch.kg := KnowledgeGraph.__init__ |}.

(** In semantic mode with [min_score = 0.5], of the hits scored 0.9 and 0.3
    only the first is returned. *)
Lemma search_respects_min_score_witness :
  ∃ r, HybridSearch.search ascii_lower pretty searcher_two_hits empty_store
         "api" "semantic" None 10 (1 # 2) = Ok [r] ∧
       SearchResult.item_id r = "p1" ∧
       ¬ (SearchResult.score r < 1 # 2)%Q.
Proof.
  eexists. split; [reflexivity|]. split; [reflexivity|].
  eapply (proj1 (search_respects_min_score ascii_lower pretty searcher_two_hits
                   empty_store "api" "semantic" None 10 (1 # 2) _ eq_refl)).
  apply list_elem_of_here.
Defined.

Lemma semantic_search_degrades_on_client_failure_witness :
  HybridSearch.search ascii_lower pretty searcher_client_down empty_store
    "api" "semantic" None 10 (1 # 2) = Ok [].
Proof.
  exact (proj2 (proj2 (semantic_search_degrades_on_client_failure ascii_lower pretty
           searcher_client_down "api" 10 (1 # 2) [1 # 2]
           "ConnectionError: Qdrant error" eq_refl eq_refl)) empty_store None).
Defined.

(** C9 as stated fails for the embedding call: it is made before the [try],
    so its failure leaves [_semantic_search], and [search] with it. *)
Lemma embedding_failure_propagates :
  HybridSearch._semantic_search searcher_model_down "api" ∅ 10 (1 # 2)
    = Raise "RuntimeError: model not loaded" ∧
  HybridSearch.search ascii_lower pretty searcher_model_down empty_store
    "api" "semantic" None 10 (1 # 2) = Raise "RuntimeError: model not loaded".
Proof. split; reflexivity. Qed.

(** ** build_graph and the validity interval *)

Section TemporalFilter.
Import KnowledgeGraph.

(** [T1 <= as_of < T2], and [T1 <= as_of] when there is no [T2]. *)
Definition valid_interval (T1 : Z) (T2 : option Z) (as_of : Z) : Prop :=
  (T1 ≤ as_of)%Z ∧
  match T2 with
  | Some T2 => (as_of < T2)%Z
  | None => True
  end.

(** The identity of an edge of the multigraph: its end nodes and its key. *)
Definition edge_id (e : Edge.t) : string * string * string :=
  (Edge.u e, Edge.v e, Edge.key e).

Definition relationship_edge_id (rel : Relationship.t) : string * string * string :=
  (Relationship.source_entity_id rel, Relationship.target_entity_id rel,
   Relationship.id rel).

Definition endpoints (rels : list Relationship.t) : list string :=
  flat_map (λ rel, [Relationship.source_entity_id rel;
                    Relationship.target_entity_id rel]) rels.

Lemma valid_at_spec T1 T2 as_of :
  valid_at T1 T2 as_of = true ↔ valid_interval T1 T2 as_of.
Proof.
  unfold valid_at, valid_interval. rewrite andb_true_iff, Z.leb_le.
  destruct T2 as [T2|]; [by rewrite Z.ltb_lt|tauto].
Qed.

Lemma valid_entities_elem session as_of entity :
  entity ∈ valid_entities session as_of ↔
  entity ∈ AsyncSession.entities session ∧
  valid_interval (Entity.valid_from entity) (Entity.valid_until entity) as_of.
Proof.
  unfold valid_entities. rewrite list_elem_of_filter, valid_at_spec. tauto.
Qed.

Lemma valid_relationships_elem session as_of rel :
  rel ∈ valid_relationships session as_of ↔
  rel ∈ AsyncSession.relationships session ∧
  valid_interval (Relationship.valid_from rel) (Relationship.valid_until rel) as_of.
Proof.
  unfold valid_relationships. rewrite list_elem_of_filter, valid_at_spec. tauto.
Qed.

Lemma add_entities_lookup_notin G entities n :
  n ∉ Entity.id <$> entities →
  nx._node (foldl add_entity G entities) !! n = nx._node G !! n.
Proof.
  revert G. induction entities as [|x l IH]; intros G Hn; simpl; [done|].
  rewrite fmap_cons, not_elem_of_cons in Hn. destruct Hn as [Hne Hn].
  rewrite IH by done. simpl. by rewrite lookup_insert_ne.
Qed.

Lemma add_entities_lookup_in G entities entity :
  NoDup (Entity.id <$> entities) → entity ∈ entities →
  nx._node (foldl add_entity G entities) !! Entity.id entity
  = Some (Some (entity_attrs entity)).
Proof.
  revert G. induction entities as [|x l IH]; intros G Hnd Hin; simpl.
  - by apply elem_of_nil in Hin.
  - rewrite fmap_cons, NoDup_cons in Hnd. destruct Hnd as [Hx Hnd].
    apply elem_of_cons in Hin as [->|Hin].
    + rewrite add_entities_lookup_notin by done. simpl.
      by rewrite lookup_insert_eq.
    + by apply IH.
Qed.

Lemma touch_lookup nodes n m :
  nx.touch nodes n !! m
  = match nodes !! m with
    | Some a => Some a
    | None => if decide (m = n) then Some None else None
    end.
Proof.
  unfold nx.touch. destruct (nodes !! n) as [a|] eqn:Hn.
  - destruct (nodes !! m) as [b|] eqn:Hm; [done|].
    destruct (decide (m = n)) as [->|]; [congruence|done].
  - destruct (decide (m = n)) as [->|Hne].
    + by rewrite lookup_insert_eq, Hn.
    + rewrite lookup_insert_ne by done. by destruct (nodes !! m).
Qed.

Lemma add_relationships_lookup G rels n :
  nx._node (foldl add_relationship G rels) !! n
  = match nx._node G !! n with
    | Some a => Some a
    | None => if decide (n ∈ endpoints rels) then Some None else None
    end.
Proof.
  revert G. induction rels as [|rel rels IH]; intros G; simpl.
  - by destruct (nx._node G !! n).
  - rewrite IH. simpl. rewrite !touch_lookup.
    destruct (nx._node G !! n) as [a|]; [done|].
    destruct (decide (n = Relationship.source_entity_id rel)) as [->|Hs].
    { rewrite decide_True; [done|]. apply list_elem_of_here. }
    destruct (decide (n = Relationship.target_entity_id rel)) as [->|Ht].
    { rewrite decide_True; [done|].
      apply list_elem_of_further, list_elem_of_here. }
    destruct (decide (n ∈ endpoints rels)) as [Hin|Hnin].
    + rewrite decide_True; [done|]. by do 2 apply list_elem_of_further.
    + rewrite decide_False; [done|].
      rewrite !not_elem_of_cons. done.
Qed.

Lemma endpoints_elem rels n :
  n ∈ endpoints rels ↔
  ∃ rel, rel ∈ rels ∧
    (Relationship.source_entity_id rel = n ∨ Relationship.target_entity_id rel = n).
Proof.
  unfold endpoints. rewrite list_elem_of_In, in_flat_map. split.
  - intros (rel & Hrel & Hn). exists rel. rewrite list_elem_of_In. split; [done|].
    simpl in Hn. tauto.
  - intros (rel & Hrel & Hn). exists rel. rewrite <- list_elem_of_In.
    split; [done|]. simpl. tauto.
Qed.

Lemma put_edge_ids es e x :
  x ∈ edge_id <$> nx.put_edge es e ↔ x = edge_id e ∨ x ∈ edge_id <$> es.
Proof.
  induction es as [|e' es IH]; simpl.
  - rewrite list_elem_of_singleton. split; [auto|].
    intros [?|H]; [done|]. by apply elem_of_nil in H.
  - destruct (nx.same_edge e e') eqn:Hs.
    + assert (edge_id e = edge_id e') as Heq.
      { unfold nx.same_edge in Hs. rewrite !andb_true_iff in Hs.
        destruct Hs as [[H1 H2] H3].
        apply bool_decide_eq_true in H1, H2, H3. unfold edge_id. congruence. }
      rewrite !fmap_cons, !elem_of_cons, <- Heq. tauto.
    + rewrite !fmap_cons, !elem_of_cons, IH. tauto.
Qed.

Lemma add_relationships_edge_ids G rels x :
  x ∈ edge_id <$> nx._edges (foldl add_relationship G rels) ↔
  x ∈ edge_id <$> nx._edges G ∨ x ∈ relationship_edge_id <$> rels.
Proof.
  revert G. induction rels as [|rel rels IH]; intros G; simpl.
  - split; [auto|]. intros [?|H]; [done|]. by apply elem_of_nil in H.
  - rewrite IH. simpl. rewrite put_edge_ids, elem_of_cons. unfold edge_id at 1.
    simpl. unfold relationship_edge_id at 2. tauto.
Qed.

(** C6, as the code has it.  After a build as of [t], for an entity of the
    store with validity interval [T1, T2) (entity ids being the primary
    key): the node of its id carries the attributes of the entity exactly
    when [T1 <= t < T2] ([T1 <= t] when [valid_until] is null); a node of
    its id is present exactly when that holds or a relationship that the
    same predicate selects names the id as its source or target, since
    [add_edge] creates missing end nodes.  An edge keyed by the id of a
    relationship joins its end nodes exactly when the relationship
    satisfies the predicate (relationship ids being the primary key). *)
Theorem build_graph_selects_valid_rows
    (session : AsyncSession.t) (as_of : option Z) (utcnow utcnow' : Z)
    (self self' : KnowledgeGraph.t) (count : Z) :
  build_graph session as_of utcnow utcnow' self = (self', Ok count) →
  NoDup (Entity.id <$> AsyncSession.entities session) →
  NoDup (Relationship.id <$> AsyncSession.relationships session) →
  let t := default utcnow as_of in
  (∀ entity, entity ∈ AsyncSession.entities session →
     (nx.node_data (graph self') (Entity.id entity) = Some (entity_attrs entity)
      ↔ valid_interval (Entity.valid_from entity) (Entity.valid_until entity) t) ∧
     (nx.contains (graph self') (Entity.id entity) = true
      ↔ valid_interval (Entity.valid_from entity) (Entity.valid_until entity) t
        ∨ ∃ rel, rel ∈ AsyncSession.relationships session ∧
            valid_interval (Relationship.valid_from rel)
              (Relationship.valid_until rel) t ∧
            (Relationship.source_entity_id rel = Entity.id entity
             ∨ Relationship.target_entity_id rel = Entity.id entity))) ∧
  (∀ rel, rel ∈ AsyncSession.relationships session →
     (relationship_edge_id rel ∈ edge_id <$> nx._edges (graph self')
      ↔ valid_interval (Relationship.valid_from rel)
          (Relationship.valid_until rel) t)).
Proof.
  intros Hb Hnd Hndr t.
  destruct (AsyncSession.fails session Entities) as [e1|] eqn:H1.
  { by rewrite (build_graph_entities_fail _ _ _ _ _ e1 H1) in Hb. }
  destruct (AsyncSession.fails session Relationships) as [e2|] eqn:H2.
  { by rewrite (build_graph_relationships_fail _ _ _ _ _ e2 H1 H2) in Hb. }
  rewrite (build_graph_ok _ _ _ _ _ H1 H2) in Hb. injection Hb as <- _.
  simpl. fold t. unfold built_graph.
  assert (NoDup (Entity.id <$> valid_entities session t)) as Hndv.
  { unfold valid_entities. eapply sublist_NoDup; [exact Hnd|]. apply fmap_sublist, sublist_filter. }
  split.
  - intros entity Hin.
    assert (Entity.id entity ∈ Entity.id <$> valid_entities session t
            ↔ valid_interval (Entity.valid_from entity)
                (Entity.valid_until entity) t) as Hid.
    { rewrite list_elem_of_fmap. split.
      - intros (e' & Heq & [He' Hv]%valid_entities_elem).
        assert (e' = entity) as ->; [|done].
        apply list_elem_of_lookup in He' as [i Hi].
        apply list_elem_of_lookup in Hin as [j Hj].
        assert (i = j) as ->.
        { eapply NoDup_lookup; [exact Hnd| |];
            rewrite list_lookup_fmap; [by rewrite Hi|rewrite Hj; simpl; congruence]. }
        congruence.
      - intros Hv. exists entity. split; [done|].
        apply valid_entities_elem. done. }
    unfold nx.node_data, nx.contains. rewrite add_relationships_lookup.
    destruct (decide (Entity.id entity ∈ Entity.id <$> valid_entities session t))
      as [Hv|Hnv].
    + rewrite (add_entities_lookup_in _ _ entity Hndv).
      2:{ apply valid_entities_elem. split; [done|]. by apply Hid. }
      apply Hid in Hv. split.
      * split; [done|]. intros _. reflexivity.
      * split; [intros _; by left|]. intros _.
        apply bool_decide_eq_true. by eexists.
    + rewrite add_entities_lookup_notin by done. simpl. rewrite lookup_empty.
      rewrite <- Hid. split.
      * destruct (decide _); simpl; split; done.
      * destruct (decide (Entity.id entity ∈ endpoints (valid_relationships session t)))
          as [He|He].
        -- split; [intros _|intros _; apply bool_decide_eq_true; by eexists].
           right.
           apply endpoints_elem in He as (rel & [Hr Hv]%valid_relationships_elem & Hn).
           eauto.
        -- split.
           { intros H%bool_decide_eq_true. by destruct H as [? [=]]. }
           intros [?|(rel & Hr & Hv & Hn)]; [done|].
           exfalso. apply He. apply endpoints_elem. exists rel.
           split; [|done]. by apply valid_relationships_elem.
  - intros rel Hin. rewrite add_relationships_edge_ids, add_entities_edges. simpl.
    rewrite list_elem_of_fmap. split.
    + intros [H|(rel' & Heq & [Hr' Hv]%valid_relationships_elem)].
      { by apply elem_of_nil in H. }
      assert (rel' = rel) as ->; [|done].
      apply list_elem_of_lookup in Hr' as [i Hi].
      apply list_elem_of_lookup in Hin as [j Hj].
      assert (i = j) as ->.
      { eapply NoDup_lookup; [exact Hndr| |];
          rewrite list_lookup_fmap; [by rewrite Hi|rewrite Hj]. simpl.
        unfold relationship_edge_id in Heq. congruence. }
      congruence.
    + intros Hv. right. exists rel. split; [done|].
      by apply valid_relationships_elem.
Qed.
End TemporalFilter.

(** *** A store with an entity of limited validity and a lasting relationship *)

Definition entity_row (id name : string) (valid_from : Z) (valid_until : option Z)
    (confidence : Q) : Entity.t :=
  {| Entity.id := id; Entity.name := name; Entity.entity_type := "tool";
     Entity.description := None; Entity.event_time := valid_from;
     Entity.ingestion_time := valid_from; Entity.valid_from := valid_from;
     Entity.valid_until := valid_until; Entity.conversation_id := None;
     Entity.message_id := None; Entity.confidence := confidence;
     Entity.meta_data := ∅ |}.

Definition relationship_row (id source target : string) (valid_from : Z)
    : Relationship.t :=
  {| Relationship.id := id; Relationship.source_entity_id := source;
     Relationship.target_entity_id := target;
     Relationship.relationship_type := "uses";
     Relationship.event_time := valid_from;
     Relationship.ingestion_time := valid_from;
     Relationship.valid_from := valid_from; Relationship.valid_until := None;
     Relationship.conversation_id := None; Relationship.message_id := None;
     Relationship.confidence := 1; Relationship.properties := ∅ |}.

Definition e1_row : Entity.t := entity_row "e1" "Redis" 10 (Some 20%Z) 1.
Definition e2_row : Entity.t := entity_row "e2" "Cache" 0 None 1.

Definition store_e1_e2 : AsyncSession.t :=
  {| AsyncSession.entities := [e1_row; e2_row];
     AsyncSession.relationships := [relationship_row "r1" "e1" "e2" 0];
     AsyncSession.messages := [];
     AsyncSession.fails := λ _, None;
     AsyncSession.like := λ _ _, false |}.

(** As of 15 the entity valid on [10, 20) is a node with its attributes. *)
Lemma build_graph_selects_valid_rows_witness :
  nx.node_data
    (KnowledgeGraph.graph
       (KnowledgeGraph.build_graph store_e1_e2 (Some 15%Z) 0 1
          KnowledgeGraph.__init__).1) "e1"
  = Some (KnowledgeGraph.entity_attrs e1_row).
Proof.
  assert (NoDup (Entity.id <$> AsyncSession.entities store_e1_e2)) as Hnd
    by (apply (bool_decide_unpack _); vm_compute; exact I).
  assert (NoDup (Relationship.id <$> AsyncSession.relationships store_e1_e2)) as Hndr
    by (apply (bool_decide_unpack _); vm_compute; exact I).
  assert (e1_row ∈ AsyncSession.entities store_e1_e2) as Hin
    by apply list_elem_of_here.
  apply (proj1 (proj1 (build_graph_selects_valid_rows store_e1_e2 (Some 15%Z) 0 1
                  KnowledgeGraph.__init__ _ 2 eq_refl Hnd Hndr) e1_row Hin)).
  unfold valid_interval. simpl. lia.
Defined.

(** C6 as stated fails.  As of 5 the entity [e1], valid on [10, 20), is not
    selected, but the relationship [r1], valid from 0, is: [add_edge] makes
    its source [e1] a node of the graph, and [build_graph] counts it. *)
Lemma build_graph_endpoint_outside_interval :
  let after := KnowledgeGraph.build_graph store_e1_e2 (Some 5%Z) 0 1
                 KnowledgeGraph.__init__ in
  e1_row ∈ AsyncSession.entities store_e1_e2 ∧
  Entity.valid_from e1_row = 10%Z ∧ Entity.valid_until e1_row = Some 20%Z ∧
  after.2 = Ok 2%Z ∧
  nx.contains (KnowledgeGraph.graph after.1) (Entity.id e1_row) = true ∧
  ¬ (10 ≤ 5 < 20)%Z.
Proof.
  simpl. split; [apply list_elem_of_here|].
  repeat split; try reflexivity. lia.
Qed.

(** ** _fuse_results: Reciprocal Rank Fusion *)

Section FusionFacts.
Import HybridSearch.

Definition Qsum (l : list Q) : Q := foldr Qplus 0%Q l.

(** The sum of [1 / (60 + rank)] over the ranked items whose result
    satisfies [p]. *)
Definition rank_sum (p : SearchResult.t → bool)
    (items : list (nat * SearchResult.t)) : Q :=
  Qsum ((λ item, rrf_term item.1) <$> filter (λ item, p item.2 = true) items).

(** The sources of the candidates, each once. *)
Definition sources (results : list SearchResult.t) : list string :=
  unique_first (SearchResult.source <$> results).

(** The candidates of a source, ranked by their own score, best first. *)
Definition ranked (results : list SearchResult.t) (s : string)
    : list SearchResult.t :=
  sorted_stable score_desc (filter (λ r, SearchResult.source r = s) results).



(** All ranked candidates, source after source. *)
Definition ranked_items (results : list SearchResult.t)
    : list (nat * SearchResult.t) :=
  flat_map (λ s, enumerate 1 (ranked results s)) (sources results).

Definition score_step (rrf_scores : list (string * Q))
    (item : nat * SearchResult.t) : list (string * Q) :=
  ODict.set rrf_scores (rrf_key item.2)
    (default 0 (ODict.get rrf_scores (rrf_key item.2)) + rrf_term item.1)%Q.

Definition map_step (item_map : list (string * SearchResult.t))
    (item : nat * SearchResult.t) : list (string * SearchResult.t) :=
  ODict.set item_map (rrf_key item.2) item.2.

Lemma odict_set_set {K V : Type} `{EqDecision K} (d : list (K * V)) k v v' :
  ODict.set (ODict.set d k v) k v' = ODict.set d k v'.
Proof.
  induction d as [|[k2 v2] d IH]; simpl.
  - by rewrite decide_True.
  - destruct (decide (k = k2)) as [->|Hne]; simpl.
    + by rewrite decide_True.
    + rewrite decide_False by done. by rewrite IH.
Qed.

Lemma odict_eq_fmap_keys {K V : Type} (d : list (K * V)) (f : K → V) :
  (∀ k v, (k, v) ∈ d → v = f k) → d = (λ k, (k, f k)) <$> ODict.keys d.
Proof.
  unfold ODict.keys. induction d as [|[k v] d IH]; intros H; [done|].
  rewrite !fmap_cons. simpl. f_equal.
  - f_equal. apply H, list_elem_of_here.
  - apply IH. intros k' v' Hin. by apply H, list_elem_of_further.
Qed.

Lemma group_step_eq by_source r :
  group_step by_source r
  = ODict.set by_source (SearchResult.source r)
      (default [] (ODict.get by_source (SearchResult.source r)) ++ [r]).
Proof.
  unfold group_step.
  destruct (ODict.get by_source (SearchResult.source r)) as [l|] eqn:Hg.
  - by rewrite Hg.
  - by rewrite odict_get_set_eq, odict_set_set.
Qed.

Lemma group_fold_keys by_source results :
  ODict.keys (foldl group_step by_source results)
  = foldl (λ acc x, if decide (x ∈ acc) then acc else acc ++ [x])
      (ODict.keys by_source) (SearchResult.source <$> results).
Proof.
  revert by_source. induction results as [|r results IH]; intros bs; simpl; [done|].
  rewrite IH, group_step_eq. f_equal.
  destruct (decide (SearchResult.source r ∈ ODict.keys bs)) as [Hin|Hnin].
  - by apply odict_keys_set_present.
  - by apply odict_keys_set_absent.
Qed.

Lemma group_fold_NoDup by_source results :
  NoDup (ODict.keys by_source) →
  NoDup (ODict.keys (foldl group_step by_source results)).
Proof.
  revert by_source. induction results as [|r results IH]; intros bs Hnd; simpl; [done|].
  apply IH. rewrite group_step_eq. by apply odict_keys_set_NoDup.
Qed.

Lemma group_fold_get by_source results s :
  ODict.get (foldl group_step by_source results) s
  = match ODict.get by_source s,
          filter (λ r, SearchResult.source r = s) results with
    | None, [] => None
    | o, l => Some (default [] o ++ l)
    end.
Proof.
  revert by_source. induction results as [|r results IH]; intros bs; simpl.
  - destruct (ODict.get bs s); simpl; [by rewrite app_nil_r|done].
  - rewrite IH, group_step_eq. rewrite filter_cons.
    destruct (decide (SearchResult.source r = s)) as [<-|Hne].
    + rewrite odict_get_set_eq.
      destruct (ODict.get bs (SearchResult.source r)); simpl;
        by rewrite <- ?app_assoc.
    + by rewrite odict_get_set_ne.
Qed.

(** The dictionary [by_source] after grouping. *)
Lemma by_source_eq results :
  foldl group_step [] results
  = (λ s, (s, filter (λ r, SearchResult.source r = s) results)) <$> sources results.
Proof.
  pose proof (group_fold_keys [] results) as Hk.
  unfold sources, unique_first. change (ODict.keys []) with (@nil string) in Hk.
  rewrite <- Hk. apply odict_eq_fmap_keys. intros s l Hin.
  apply odict_elem_get_Some in Hin.
  - rewrite group_fold_get in Hin. simpl in Hin.
    destruct (filter _ results); [done|]. by injection Hin as <-.
  - apply group_fold_NoDup. constructor.
Qed.

Lemma rrf_fold_split rrf_scores item_map items :
  foldl rrf_step (rrf_scores, item_map) items
  = (foldl score_step rrf_scores items, foldl map_step item_map items).
Proof.
  revert rrf_scores item_map.
  induction items as [|[rank r] items IH]; intros rs im; simpl; [done|].
  by rewrite IH.
Qed.

Lemma foldl_flat_map {A B C : Type} (f : A → C → A) (g : B → list C)
    (a : A) (l : list B) :
  foldl (λ acc x, foldl f acc (g x)) a l = foldl f a (flat_map g l).
Proof.
  revert a. induction l as [|x l IH]; intros a; simpl; [done|].
  by rewrite IH, foldl_app.
Qed.

Lemma flat_map_fmap_compose {A B C : Type} (g : B → list C) (f : A → B)
    (l : list A) :
  flat_map g (f <$> l) = flat_map (λ x, g (f x)) l.
Proof.
  induction l as [|x l IH]; [done|]. rewrite fmap_cons. simpl. by f_equal.
Qed.

(** The two dictionaries that the loops over the sources build. *)
Lemma rrf_dicts_eq results :
  foldl (λ acc entry, foldl rrf_step acc (enumerate 1 entry.2)) ([], [])
    (ODict.items (prod_map id (sorted_stable score_desc)
                    <$> foldl group_step [] results))
  = (foldl score_step [] (ranked_items results),
     foldl map_step [] (ranked_items results)).
Proof.
  rewrite by_source_eq. unfold ODict.items. rewrite <- list_fmap_compose.
  rewrite (foldl_flat_map rrf_step (λ entry, enumerate 1 entry.2)).
  rewrite rrf_fold_split. unfold ranked_items, ranked.
  by rewrite flat_map_fmap_compose.
Qed.

(** *** Sums of rationals *)


Lemma rank_sum_nil p : rank_sum p [] = 0%Q.
Proof. done. Qed.

Lemma rank_sum_cons p item items :
  (rank_sum p (item :: items)
   == (if p item.2 then rrf_term item.1 else 0) + rank_sum p items)%Q.
Proof.
  unfold rank_sum. rewrite filter_cons.
  destruct (p item.2) eqn:Hp.
  - rewrite decide_True by done. rewrite fmap_cons. reflexivity.
  - rewrite decide_False by (by intros ?). symmetry. apply Qplus_0_l.
Qed.




(** *** [unique_first] *)

Lemma unique_first_fold acc l :
  NoDup acc →
  let out := foldl (λ acc x, if decide (x ∈ acc) then acc else acc ++ [x]) acc l in
  NoDup out ∧ ∀ x : string, x ∈ out ↔ x ∈ acc ∨ x ∈ l.
Proof.
  revert acc. induction l as [|y l IH]; intros acc Hnd; simpl.
  - split; [done|]. intros x. rewrite elem_of_nil. tauto.
  - destruct (decide (y ∈ acc)) as [Hin|Hnin].
    + destruct (IH acc Hnd) as [H1 H2]. split; [done|].
      intros x. rewrite H2, elem_of_cons. split; [tauto|].
      intros [?|[->|?]]; auto.
    + assert (NoDup (acc ++ [y])) as Hnd'.
      { apply NoDup_app. split; [done|]. split; [|apply NoDup_singleton].
        intros x Hx ->%list_elem_of_singleton. done. }
      destruct (IH _ Hnd') as [H1 H2]. split; [done|].
      intros x. rewrite H2, elem_of_app, list_elem_of_singleton, elem_of_cons. tauto.
Qed.

Lemma unique_first_NoDup l : NoDup (unique_first l).
Proof. apply (unique_first_fold [] l). constructor. Qed.

Lemma unique_first_elem l x : x ∈ unique_first l ↔ x ∈ l.
Proof.
  unfold unique_first.
  rewrite (proj2 (unique_first_fold [] l (NoDup_nil_2)) x), elem_of_nil. tauto.
Qed.

(** *** The ranked items are the candidates *)

Lemma flat_map_filter_perm (results : list SearchResult.t) (ks : list string) :
  NoDup ks →
  (∀ r, r ∈ results → SearchResult.source r ∈ ks) →
  flat_map (λ s, filter (λ r, SearchResult.source r = s) results) ks ≡ₚ results.
Proof.
  intros Hnd. induction results as [|r rs IH]; intros Hks.
  - induction ks as [|k ks IHk]; simpl; [done|].
    apply IHk; [by apply NoDup_cons in Hnd as [_ ?]|]. intros r Hr.
    by apply elem_of_nil in Hr.
  - assert (SearchResult.source r ∈ ks) as Hin by (apply Hks, list_elem_of_here).
    apply list_elem_of_split in Hin as (k1 & k2 & ->).
    apply NoDup_app in Hnd as Hnd'. destruct Hnd' as (_ & Hk1 & Hk2).
    apply NoDup_cons in Hk2 as [Hk2 _].
    assert (∀ ks', SearchResult.source r ∉ ks' →
       flat_map (λ s, filter (λ r', SearchResult.source r' = s) (r :: rs)) ks'
       = flat_map (λ s, filter (λ r', SearchResult.source r' = s) rs) ks') as Hsame.
    { intros ks' Hn. induction ks' as [|k ks' IHk]; simpl; [done|].
      apply not_elem_of_cons in Hn as [Hne Hn].
      rewrite filter_cons, decide_False by done. by rewrite IHk. }
    rewrite flat_map_app. simpl. rewrite filter_cons, decide_True by done.
    rewrite !Hsame.
    + assert (flat_map (λ s, filter (λ r', SearchResult.source r' = s) rs)
                (k1 ++ SearchResult.source r :: k2) ≡ₚ rs) as Hrs.
      { apply IH. intros r' Hr'. by apply Hks, list_elem_of_further. }
      rewrite flat_map_app in Hrs. simpl in Hrs.
      rewrite <- Hrs at 2. simpl.
      by rewrite <- Permutation_middle.
    + done.
    + intros Hn. apply (Hk1 _ Hn). apply list_elem_of_here.
Qed.

Lemma flat_map_perm {A B : Type} (f g : A → list B) (l : list A) :
  (∀ x, f x ≡ₚ g x) → flat_map f l ≡ₚ flat_map g l.
Proof.
  intros H. induction l as [|x l IH]; simpl; [done|]. by rewrite H, IH.
Qed.

Lemma snd_enumerate {A : Type} (start : nat) (l : list A) :
  (enumerate start l).*2 = l.
Proof. unfold enumerate. apply snd_zip. by rewrite length_seq. Qed.

Lemma ranked_items_perm results : (ranked_items results).*2 ≡ₚ results.
Proof.
  unfold ranked_items.
  assert (∀ ks, (flat_map (λ s, enumerate 1 (ranked results s)) ks).*2
                = flat_map (ranked results) ks) as ->.
  { intros ks. induction ks as [|k ks IH]; simpl; [done|].
    by rewrite fmap_app, snd_enumerate, IH. }
  rewrite (flat_map_perm _
    (λ s, filter (λ r, SearchResult.source r = s) results)).
  - apply flat_map_filter_perm; [apply unique_first_NoDup|].
    intros r Hr. apply unique_first_elem. by apply list_elem_of_fmap_2.
  - intros s. apply sorted_stable_perm.
Qed.


(** *** The accumulated scores *)

Definition item_key (item : nat * SearchResult.t) : string := rrf_key item.2.

Lemma score_step_get rrf_scores item key :
  (default 0 (ODict.get (score_step rrf_scores item) key)
   == default 0 (ODict.get rrf_scores key)
      + (if bool_decide (rrf_key item.2 = key) then rrf_term item.1 else 0))%Q.
Proof.
  unfold score_step. destruct (decide (rrf_key item.2 = key)) as [<-|Hne].
  - rewrite odict_get_set_eq, bool_decide_eq_true_2 by done. reflexivity.
  - rewrite odict_get_set_ne, bool_decide_eq_false_2 by done.
    symmetry. apply Qplus_0_r.
Qed.

Lemma score_fold_get items rrf_scores key :
  (default 0 (ODict.get (foldl score_step rrf_scores items) key)
   == default 0 (ODict.get rrf_scores key)
      + rank_sum (λ r, bool_decide (rrf_key r = key)) items)%Q.
Proof.
  revert rrf_scores. induction items as [|item items IH]; intros rs; simpl.
  - rewrite rank_sum_nil. symmetry. apply Qplus_0_r.
  - rewrite IH, score_step_get, rank_sum_cons. ring.
Qed.

Lemma score_fold_keys items rrf_scores key :
  key ∈ ODict.keys (foldl score_step rrf_scores items)
  ↔ key ∈ ODict.keys rrf_scores ∨ key ∈ item_key <$> items.
Proof.
  revert rrf_scores. induction items as [|item items IH]; intros rs; simpl.
  - rewrite elem_of_nil. tauto.
  - rewrite IH. unfold score_step. rewrite odict_keys_set_elem, elem_of_cons.
    unfold item_key at 2. tauto.
Qed.

Lemma score_fold_NoDup items rrf_scores :
  NoDup (ODict.keys rrf_scores) →
  NoDup (ODict.keys (foldl score_step rrf_scores items)).
Proof.
  revert rrf_scores. induction items as [|item items IH]; intros rs Hnd; simpl.
  - done.
  - apply IH. by apply odict_keys_set_NoDup.
Qed.

Lemma map_fold_keys items item_map key :
  key ∈ ODict.keys (foldl map_step item_map items)
  ↔ key ∈ ODict.keys item_map ∨ key ∈ item_key <$> items.
Proof.
  revert item_map. induction items as [|item items IH]; intros im; simpl.
  - rewrite elem_of_nil. tauto.
  - rewrite IH. unfold map_step. rewrite odict_keys_set_elem, elem_of_cons.
    unfold item_key at 2. tauto.
Qed.

Lemma map_fold_get items item_map key r :
  ODict.get (foldl map_step item_map items) key = Some r →
  ODict.get item_map key = Some r ∨ (r ∈ items.*2 ∧ rrf_key r = key).
Proof.
  revert item_map. induction items as [|item items IH]; intros im; simpl.
  - auto.
  - intros [H|[H1 H2]]%IH.
    + unfold map_step in H. destruct (decide (rrf_key item.2 = key)) as [<-|Hne].
      * rewrite odict_get_set_eq in H. injection H as <-.
        right. split; [apply list_elem_of_here|done].
      * rewrite odict_get_set_ne in H by done. by left.
    + right. split; [by apply list_elem_of_further|done].
Qed.

(** *** The fused list *)

Lemma rrf_key_set_score r q : rrf_key (SearchResult.set_score r q) = rrf_key r.
Proof. done. Qed.

Lemma fused_fold item_map entries fused :
  (∀ entry, entry ∈ entries → is_Some (ODict.get item_map entry.1)) →
  ∃ fused',
    foldl (fused_step item_map) fused entries = fused ++ fused' ∧
    Forall2 (λ f entry, ∃ r, ODict.get item_map entry.1 = Some r ∧
                             f = SearchResult.set_score r entry.2)
      fused' entries.
Proof.
  revert fused. induction entries as [|[key q] entries IH]; intros fused Hall; simpl.
  - exists []. by rewrite app_nil_r.
  - destruct (Hall (key, q)) as [r Hr]; [apply list_elem_of_here|]. simpl in Hr.
    rewrite Hr.
    destruct (IH (fused ++ [SearchResult.set_score r q])) as (fused' & -> & HF).
    { intros entry Hin. by apply Hall, list_elem_of_further. }
    exists (SearchResult.set_score r q :: fused'). split.
    + by rewrite <- app_assoc.
    + constructor; [|done]. by exists r.
Qed.

Lemma rrf_desc_total x y : rrf_desc x y = true ∨ rrf_desc y x = true.
Proof.
  unfold rrf_desc. rewrite !Qle_bool_iff.
  destruct (Qlt_le_dec x.2 y.2) as [H|H]; [right; by apply Qlt_le_weak|by left].
Qed.

Lemma rrf_desc_trans x y z :
  rrf_desc x y = true → rrf_desc y z = true → rrf_desc x z = true.
Proof.
  unfold rrf_desc. rewrite !Qle_bool_iff. intros H1 H2. by eapply Qle_trans.
Qed.

Lemma StronglySorted_Forall2 {A B : Type} (R : relation A) (R' : relation B)
    (P : B → A → Prop) (l : list A) (l' : list B) :
  (∀ b a b' a', P b a → P b' a' → R a a' → R' b b') →
  Forall2 P l' l → StronglySorted R l → StronglySorted R' l'.
Proof.
  intros HP HF. induction HF as [|b a l' l Hba HF IH]; intros Hs.
  - constructor.
  - apply StronglySorted_inv in Hs as [Hs Hall]. constructor; [by apply IH|].
    clear IH Hs. induction HF as [|b' a' l' l Hba' HF IH]; [constructor|].
    apply Forall_cons in Hall as [Haa' Hall]. constructor; [|by apply IH].
    by eapply HP.
Qed.

(** What [_fuse_results] computes, by the key [f"{item_type}:{item_id}"]
    under which it accumulates. *)
Lemma fuse_results_by_key results limit :
  ∃ fused,
    _fuse_results results limit = py_slice_to fused limit ∧
    NoDup (rrf_key <$> fused) ∧
    (∀ key, key ∈ rrf_key <$> fused ↔ key ∈ rrf_key <$> results) ∧
    (∀ f, f ∈ fused →
       (SearchResult.score f
        == rank_sum (λ r, bool_decide (rrf_key r = rrf_key f))
             (ranked_items results))%Q ∧
       ∃ r, r ∈ results ∧ rrf_key r = rrf_key f ∧
            f = SearchResult.set_score r (SearchResult.score f)) ∧
    StronglySorted (λ a b, (SearchResult.score b <= SearchResult.score a)%Q) fused.
Proof.
  unfold _fuse_results. rewrite rrf_dicts_eq.
  set (items := ranked_items results).
  set (rrf_scores := foldl score_step [] items).
  set (item_map := foldl map_step [] items).
  set (entries := sorted_stable rrf_desc (ODict.items rrf_scores)).
  assert (NoDup (ODict.keys rrf_scores)) as Hnd
    by (apply score_fold_NoDup; constructor).
  assert (∀ key, key ∈ item_key <$> items ↔ key ∈ rrf_key <$> results) as Hkeys.
  { intros key.
    assert (rrf_key <$> results ≡ₚ item_key <$> items) as ->; [|done].
    rewrite <- (ranked_items_perm results). fold items.
    by rewrite <- list_fmap_compose. }
  assert (entries ≡ₚ rrf_scores) as Hperm by apply sorted_stable_perm.
  destruct (fused_fold item_map entries []) as (fused & Hfused & HF).
  { intros entry Hin. rewrite Hperm in Hin.
    apply not_eq_None_Some. rewrite odict_get_None.
    intros Hn. apply Hn. apply map_fold_keys. right.
    assert (entry.1 ∈ ODict.keys rrf_scores) as Hk
      by (by apply list_elem_of_fmap_2).
    apply score_fold_keys in Hk as [Hk|Hk]; [by apply elem_of_nil in Hk|done]. }
  rewrite app_nil_l in Hfused. exists fused. rewrite Hfused. split; [done|].
  assert (rrf_key <$> fused = entries.*1) as Hfk.
  { clear -HF. induction HF as [|f entry fused entries (r & Hr & ->) HF IH];
      [done|].
    rewrite !fmap_cons, IH. f_equal. rewrite rrf_key_set_score.
    apply map_fold_get in Hr as [Hr|[_ Hr]]; [done|done]. }
  assert (∀ f, f ∈ fused → ∃ entry r, entry ∈ entries ∧
            ODict.get item_map entry.1 = Some r ∧
            f = SearchResult.set_score r entry.2) as Hf.
  { intros f Hin. apply list_elem_of_lookup in Hin as [i Hi].
    destruct (Forall2_lookup_l _ _ _ i f HF Hi) as (entry & Hentry & r & Hr & ->).
    exists entry, r. split; [by eapply list_elem_of_lookup_2|done]. }
  split; [|split; [|split]].
  - rewrite Hfk, Hperm. exact Hnd.
  - intros key. rewrite Hfk, Hperm, <- Hkeys.
    change (rrf_scores.*1) with (ODict.keys rrf_scores).
    unfold rrf_scores. rewrite score_fold_keys, elem_of_nil. tauto.
  - intros f (entry & r & Hentry & Hr & ->)%Hf.
    apply map_fold_get in Hr as [Hr|[Hr Hk]]; [done|].
    rewrite rrf_key_set_score, Hk. simpl. split.
    + rewrite Hperm in Hentry. destruct entry as [key q]. simpl in *.
      apply odict_elem_get_Some in Hentry; [|done].
      pose proof (score_fold_get items [] key) as Hq.
      fold rrf_scores in Hq. rewrite Hentry in Hq. simpl in Hq.
      rewrite Hq. apply Qplus_0_l.
    + exists r. split; [|done]. by rewrite <- (ranked_items_perm results).
  - eapply (StronglySorted_Forall2 (λ a b, rrf_desc a b = true)); [|exact HF|].
    + intros f entry f' entry' (r & _ & ->) (r' & _ & ->) Hd. simpl.
      by apply Qle_bool_iff.
    + apply sorted_stable_sorted; [apply rrf_desc_total|apply rrf_desc_trans].
Qed.

(** *** Keys and pairs *)





(** *** Bounds *)








End FusionFacts.

(** *** Candidates of two sources, and a hub that four seeds lead to *)

Definition candidate (item_id item_type : string) (score : Q) (source : string)
    : SearchResult.t :=
  {| SearchResult.item_id := item_id; SearchResult.item_type := item_type;
     SearchResult.content := VNone; SearchResult.score := score;
     SearchResult.source := source; SearchResult.metadata := ∅ |}.

(** Semantic ranks [m1 (0.95), m2 (0.70)], keyword ranks [m2 (0.8), m3 (0.6)]. *)
Definition two_source_candidates : list SearchResult.t :=
  [candidate "m1" "message" (95 # 100) "semantic";
   candidate "m2" "message" (70 # 100) "semantic";
   candidate "m2" "message" (80 # 100) "keyword";
   candidate "m3" "message" (60 # 100) "keyword"].

(** [m2] is second of one source and first of the other: [1/62 + 1/61]. *)
Example fuse_two_sources :
  (λ r, (SearchResult.item_id r, Qred (SearchResult.score r)))
    <$> HybridSearch._fuse_results two_source_candidates 10
  = [("m2", 123 # 3782); ("m1", 1 # 61); ("m3", 1 # 62)]%Q.
Proof. reflexivity. Qed.



Definition store_hub : AsyncSession.t :=
  {| AsyncSession.entities :=
       [entity_row "s1" "seed one" 0 None 1; entity_row "s2" "seed two" 0 None 1;
        entity_row "s3" "seed three" 0 None 1; entity_row "s4" "seed four" 0 None 1;
        entity_row "hub" "hub" 0 None 1];
     AsyncSession.relationships :=
       [relationship_row "r1" "s1" "hub" 0; relationship_row "r2" "s2" "hub" 0;
        relationship_row "r3" "s3" "hub" 0; relationship_row "r4" "s4" "hub" 0];
     AsyncSession.messages := [];
     AsyncSession.fails := λ _, None;
     AsyncSession.like := λ _ text, str_contains "seed" text |}.

Definition searcher_hub : HybridSearch.t :=
  {| HybridSearch.qdrant := λ _ _ _ _, Ok [];
     HybridSearch.embedding_model := λ _, Ok [1 # 2];
     HybridSearch.kg :=
       (KnowledgeGraph.build_graph store_hub (Some 1%Z) 0 1
          KnowledgeGraph.__init__).1 |}.


(** ** Breadth-first search by levels *)

Section Levels.
(** [R v w]: [w] is a neighbour of [v]. *)
Context (R : string → string → Prop).

(** [walk n s w]: [n] steps along [R] lead from [s] to [w]. *)
Inductive walk : nat → string → string → Prop :=
  | walk_here s : walk 0 s s
  | walk_step n s v w : walk n s v → R v w → walk (S n) s w.

(** [w] is at distance [k] from [s]: [k] steps lead to it and fewer do not. *)
Definition at_distance (s : string) (k : nat) (w : string) : Prop :=
  walk k s w ∧ ∀ j, (j < k)%nat → ¬ walk j s w.

(** After [k] rounds of a search from [s], [seen] holds the nodes within
    [k] steps and [level] those at distance [k]. *)
Definition level_inv (s : string) (k : nat) (level : string → Prop)
    (seen : gset string) : Prop :=
  (∀ w, w ∈ seen ↔ ∃ j, (j ≤ k)%nat ∧ walk j s w) ∧
  (∀ w, level w ↔ at_distance s k w).

Lemma walk_0_inv s w : walk 0 s w → w = s.
Proof. by inversion 1. Qed.

Lemma walk_S_inv n s w : walk (S n) s w → ∃ v, walk n s v ∧ R v w.
Proof. inversion 1; subst. eauto. Qed.

Lemma walk_app a b s v w : walk a s v → walk b v w → walk (a + b) s w.
Proof.
  intros Ha Hb. induction Hb as [|b v u w Hb IH Hr].
  - by rewrite Nat.add_0_r.
  - rewrite Nat.add_succ_r. econstructor; eauto.
Qed.

Lemma walk_split a b s w : walk (a + b) s w → ∃ v, walk a s v ∧ walk b v w.
Proof.
  revert w. induction b as [|b IH]; intros w.
  - rewrite Nat.add_0_r. intros H. exists w. split; [done|constructor].
  - rewrite Nat.add_succ_r. intros (u & Hu & Hr)%walk_S_inv.
    destruct (IH u Hu) as (v & Hv & Hvu). exists v. split; [done|].
    econstructor; eauto.
Qed.

Lemma at_distance_0 s w : at_distance s 0 w ↔ w = s.
Proof.
  split.
  - intros [H _]. by apply walk_0_inv.
  - intros ->. split; [constructor|]. lia.
Qed.

Lemma at_distance_unique s k k' w :
  at_distance s k w → at_distance s k' w → k = k'.
Proof.
  intros [Hk Hmin] [Hk' Hmin'].
  destruct (Nat.lt_trichotomy k k') as [Hlt|[->|Hlt]]; [|done|].
  - by destruct (Hmin' k Hlt).
  - by destruct (Hmin k' Hlt).
Qed.

Lemma at_distance_le_walk s k n w : at_distance s k w → walk n s w → (k ≤ n)%nat.
Proof.
  intros [_ Hmin] Hn. destruct (decide (k ≤ n)%nat) as [|Hlt]; [done|].
  destruct (Hmin n); [lia|done].
Qed.

(** A node at distance [d] is reached through a node at every smaller
    distance. *)
Lemma at_distance_prefix s k d w :
  (k ≤ d)%nat → at_distance s d w → ∃ v, at_distance s k v.
Proof.
  intros Hle [Hd Hmin]. replace d with (k + (d - k))%nat in Hd by lia.
  apply walk_split in Hd as (v & Hv & Hvw). exists v. split; [done|].
  intros j Hj Hjv. apply (Hmin (j + (d - k))%nat); [lia|].
  by eapply walk_app.
Qed.

Lemma level_inv_init s : level_inv s 0 (λ w, w = s) {[s]}.
Proof.
  split.
  - intros w. rewrite elem_of_singleton. split.
    + intros ->. exists 0%nat. split; [done|constructor].
    + intros (j & Hj & Hw). assert (j = 0%nat) as -> by lia.
      by apply walk_0_inv.
  - intros w. by rewrite at_distance_0.
Qed.

(** One round: the next level is what the neighbours of the level add to
    [seen]. *)
Lemma level_inv_step s k level seen (next : string → Prop) seen' :
  level_inv s k level seen →
  (∀ w, next w ↔ ((w ∉ seen) ∧ ∃ v, level v ∧ R v w)) →
  (∀ w, w ∈ seen' ↔ w ∈ seen ∨ next w) →
  level_inv s (S k) next seen'.
Proof.
  intros [Hseen Hlevel] Hnext Hseen'.
  assert (∀ w, walk (S k) s w → w ∉ seen → next w) as Hnew.
  { intros w (v & Hv & Hr)%walk_S_inv Hw. apply Hnext. split; [done|].
    exists v. split; [|done]. apply Hlevel. split; [done|].
    intros j Hj Hjv. apply Hw. apply Hseen. exists (S j). split; [lia|].
    econstructor; eauto. }
  assert (∀ w, next w → at_distance s (S k) w) as Hat.
  { intros w (Hw & v & Hv & Hr)%Hnext. split.
    - apply Hlevel in Hv as [Hv _]. econstructor; eauto.
    - intros j Hj Hjw. apply Hw, Hseen. exists j. split; [lia|done]. }
  split.
  - intros w. rewrite Hseen'. split.
    + intros [(j & Hj & Hw)%Hseen|[Hw _]%Hat].
      * exists j. split; [lia|done].
      * exists (S k). split; [done|done].
    + intros (j & Hj & Hw). destruct (decide (w ∈ seen)) as [|Hn]; [by left|].
      right. apply Hnew; [|done].
      destruct (decide (j = S k)) as [->|Hne]; [done|].
      exfalso. apply Hn, Hseen. exists j. split; [lia|done].
  - intros w. split; [apply Hat|].
    intros [Hw Hmin]. apply Hnew; [done|].
    intros (j & Hj & Hjw)%Hseen. apply (Hmin j); [lia|done].
Qed.

(** On the way to a node at distance [d] lie [d] different nodes, one at
    each distance from 1 to [d]. *)
Lemma at_distance_nodes s d w j :
  at_distance s d w → (j ≤ d)%nat →
  ∃ l, length l = j ∧ NoDup l ∧
       ∀ v, v ∈ l → ∃ i, (i < j)%nat ∧ at_distance s (S i) v.
Proof.
  intros Hd. induction j as [|j IH]; intros Hj.
  - exists []. split; [done|]. split; [constructor|].
    intros v Hv. by apply elem_of_nil in Hv.
  - destruct IH as (l & Hlen & Hnd & Hl); [lia|].
    destruct (at_distance_prefix s (S j) d w Hj Hd) as (v & Hv).
    exists (v :: l). split; [by rewrite <- Hlen|]. split.
    + constructor; [|done]. intros (i & Hi & Hiv)%Hl.
      pose proof (at_distance_unique _ _ _ _ Hiv Hv). lia.
    + intros u [->|Hu]%elem_of_cons.
      * exists j. split; [lia|done].
      * destruct (Hl u Hu) as (i & Hi & Hiu). exists i. split; [lia|done].
Qed.

(** Once a level is empty, no node lies at that distance or beyond. *)
Lemma level_inv_empty s k level seen d w :
  level_inv s k level seen → (∀ v, ¬ level v) → (k ≤ d)%nat →
  ¬ at_distance s d w.
Proof.
  intros [_ Hlevel] Hempty Hle Hd.
  destruct (at_distance_prefix s k d w Hle Hd) as (v & Hv).
  by apply (Hempty v), Hlevel.
Qed.
End Levels.

Lemma walk_ext (R R' : string → string → Prop) n s w :
  (∀ v u, R v u → R' v u) → walk R n s w → walk R' n s w.
Proof.
  intros H. induction 1 as [|n s v w Hw IH Hr]; [constructor|].
  econstructor; eauto.
Qed.

Lemma at_distance_ext (R R' : string → string → Prop) s k w :
  (∀ v u, R v u ↔ R' v u) → at_distance R s k w ↔ at_distance R' s k w.
Proof.
  intros H. unfold at_distance. split; intros [Hw Hmin]; split.
  - eapply walk_ext; [|exact Hw]. intros v u. apply H.
  - intros j Hj Hjw. apply (Hmin j Hj). eapply walk_ext; [|exact Hjw].
    intros v u. apply H.
  - eapply walk_ext; [|exact Hw]. intros v u. apply H.
  - intros j Hj Hjw. apply (Hmin j Hj). eapply walk_ext; [|exact Hjw].
    intros v u. apply H.
Qed.

(** ** single_source_shortest_path_length *)

Section ShortestPathLength.
Context (adj : string → list string).

(** The neighbour relation of an adjacency function. *)
Definition adj_rel (v w : string) : Prop := w ∈ adj v.

(** The nodes that [n] steps lead to. *)
Fixpoint reach (n : nat) (s : string) : list string :=
  match n with
  | O => [s]
  | S n' => flat_map adj (reach n' s)
  end.

Lemma walk_reach n s w : walk adj_rel n s w ↔ w ∈ reach n s.
Proof.
  revert w. induction n as [|n IH]; intros w; simpl.
  - rewrite list_elem_of_singleton. split; [apply walk_0_inv|].
    intros ->. constructor.
  - rewrite list_elem_of_In, in_flat_map. split.
    + intros (v & Hv & Hr)%walk_S_inv. exists v.
      split; apply list_elem_of_In; [by apply IH|done].
    + intros (v & Hv & Hr). apply list_elem_of_In in Hv, Hr.
      econstructor; [by apply IH|done].
Qed.

(** A node that some walk reaches has a distance. *)
Lemma walk_at_distance n s w :
  walk adj_rel n s w → ∃ d, (d ≤ n)%nat ∧ at_distance adj_rel s d w.
Proof.
  induction n as [n IH] using lt_wf_ind. intros Hw.
  destruct (decide (Exists (λ j, w ∈ reach j s) (seq 0 n))) as [Hex|Hno].
  - apply Exists_exists in Hex as (j & Hj%elem_of_seq & Hjw).
    destruct (IH j) as (d & Hd & Hat); [lia|by apply walk_reach|].
    exists d. split; [lia|done].
  - exists n. split; [done|]. split; [done|].
    intros j Hj Hjw. apply Hno, Exists_exists. exists j.
    split; [apply elem_of_seq; lia|by apply walk_reach].
Qed.

Lemma visit_spec ws seen nextlevel :
  ∃ new,
    nx.visit ws seen nextlevel = (seen ∪ list_to_set new, nextlevel ++ new) ∧
    ∀ w, w ∈ new ↔ w ∈ ws ∧ w ∉ seen.
Proof.
  revert seen nextlevel. induction ws as [|x ws IH]; intros seen nextlevel; simpl.
  - exists []. split.
    + rewrite app_nil_r. f_equal. set_solver.
    + intros w. rewrite !elem_of_nil. tauto.
  - destruct (decide (x ∈ seen)) as [Hin|Hnin].
    + destruct (IH seen nextlevel) as (new & -> & Hnew). exists new.
      split; [done|]. intros w. rewrite Hnew, elem_of_cons.
      split; [tauto|]. intros [[->|?] ?]; tauto.
    + destruct (IH ({[x]} ∪ seen) (nextlevel ++ [x])) as (new & -> & Hnew).
      exists (x :: new). split.
      * f_equal; [set_solver|]. by rewrite <- app_assoc.
      * intros w. rewrite !elem_of_cons, Hnew. split.
        -- intros [->|[? ?]]; [tauto|]. split; [tauto|]. set_solver.
        -- intros [[->|?] ?]; [tauto|].
           destruct (decide (w = x)) as [->|?]; [tauto|]. right.
           split; [done|]. set_solver.
Qed.

Lemma sweep_spec thislevel seen nextlevel :
  ∃ new,
    nx.sweep adj thislevel seen nextlevel
      = (seen ∪ list_to_set new, nextlevel ++ new) ∧
    ∀ w, w ∈ new ↔ ((w ∉ seen) ∧ ∃ v, v ∈ thislevel ∧ adj_rel v w).
Proof.
  revert seen nextlevel.
  induction thislevel as [|x thislevel IH]; intros seen nextlevel; simpl.
  - exists []. split.
    + rewrite app_nil_r. f_equal. set_solver.
    + intros w. rewrite elem_of_nil. split; [done|].
      intros (_ & v & Hv & _). by apply elem_of_nil in Hv.
  - destruct (visit_spec (adj x) seen nextlevel) as (new1 & -> & Hnew1).
    destruct (IH (seen ∪ list_to_set new1) (nextlevel ++ new1))
      as (new2 & -> & Hnew2).
    exists (new1 ++ new2). split.
    + f_equal; [|by rewrite <- app_assoc].
      rewrite list_to_set_app_L. set_solver.
    + intros w. rewrite elem_of_app, Hnew1, Hnew2. unfold adj_rel.
      rewrite elem_of_union, elem_of_list_to_set, Hnew1. split.
      * intros [[Hw Hs]|[Hs (v & Hv & Hw)]].
        -- split; [done|]. exists x. split; [apply list_elem_of_here|done].
        -- split; [tauto|]. exists v. split; [by apply list_elem_of_further|done].
      * intros (Hs & v & [->|Hv]%elem_of_cons & Hw); [tauto|].
        destruct (decide (w ∈ adj x)) as [|Hn]; [tauto|].
        right. split; [tauto|]. eauto.
Qed.

(** The levels that [bfs_levels] yields after level [k]. *)
Lemma bfs_levels_spec s n k thislevel seen w d :
  level_inv adj_rel s k (λ v, v ∈ thislevel) seen →
  (w, d) ∈ nx.bfs_levels adj n k thislevel seen
  ↔ (k < d)%nat ∧ (d ≤ k + n)%nat ∧ at_distance adj_rel s d w.
Proof.
  revert k thislevel seen.
  induction n as [|n IH]; intros k thislevel seen Hinv; simpl.
  - rewrite elem_of_nil. split; [done|]. lia.
  - destruct thislevel as [|x rest] eqn:Hlevel.
    + rewrite elem_of_nil. split; [done|]. intros (Hk & _ & Hd).
      eapply (level_inv_empty adj_rel s k); [exact Hinv| |by apply Nat.lt_le_incl|done].
      intros v Hv. by apply elem_of_nil in Hv.
    + rewrite <- Hlevel in *. clear Hlevel x rest.
      destruct (sweep_spec thislevel seen []) as (new & -> & Hnew).
      rewrite app_nil_l.
      assert (level_inv adj_rel s (S k) (λ v, v ∈ new) (seen ∪ list_to_set new))
        as Hinv'.
      { eapply level_inv_step; [exact Hinv|exact Hnew|].
        intros v. rewrite elem_of_union, elem_of_list_to_set. done. }
      rewrite elem_of_app, (IH (S k) new _ Hinv'), list_elem_of_fmap. split.
      * intros [(v & [= -> ->] & Hv)|(H1 & H2 & H3)].
        -- split; [lia|]. split; [lia|]. by apply Hinv'.
        -- split; [lia|]. split; [lia|done].
      * intros (H1 & H2 & H3). destruct (decide (d = S k)) as [->|Hne].
        -- left. exists w. split; [done|]. by apply Hinv'.
        -- right. split; [lia|]. split; [lia|done].
Qed.

(** The dictionary of [single_source_shortest_path_length]: the nodes at a
    distance of at most [cutoff], each with its distance. *)
Lemma single_source_shortest_path_length_spec s cutoff w d :
  (w, d) ∈ nx.single_source_shortest_path_length adj s cutoff
  ↔ at_distance adj_rel s d w ∧ (d = 0%nat ∨ (Z.of_nat d ≤ cutoff)%Z).
Proof.
  unfold nx.single_source_shortest_path_length.
  rewrite elem_of_cons, (bfs_levels_spec s _ 0 [s] {[s]}).
  - split.
    + intros [[= -> ->]|(H1 & H2 & H3)].
      * split; [by apply at_distance_0|by left].
      * split; [done|]. right. lia.
    + intros [Hd [->|Hle]].
      * left. apply at_distance_0 in Hd. by subst.
      * destruct (decide (d = 0%nat)) as [->|Hne].
        -- left. apply at_distance_0 in Hd. by subst.
        -- right. split; [lia|]. split; [lia|done].
  - destruct (level_inv_init adj_rel s) as [H1 H2]. split; [done|].
    intros v. rewrite list_elem_of_singleton. apply H2.
Qed.
End ShortestPathLength.

(** ** find_related_entities *)

Section RelatedFacts.
Import KnowledgeGraph.

(** An edge joins [v] and [w], in one direction or the other. *)
Definition undirected_edge (G : nx.MultiDiGraph) (v w : string) : Prop :=
  ∃ e, e ∈ nx._edges G ∧
    ((Edge.u e = v ∧ Edge.v e = w) ∨ (Edge.u e = w ∧ Edge.v e = v)).


Lemma undirected_neighbors_spec G v w :
  w ∈ nx.undirected_neighbors G v ↔ undirected_edge G v w.
Proof.
  unfold nx.undirected_neighbors, undirected_edge.
  rewrite unique_first_elem, list_elem_of_In, in_flat_map. split.
  - intros (e & He & Hw). exists e. rewrite list_elem_of_In. split; [done|].
    apply in_app_or in Hw as [Hw|Hw].
    + destruct (decide (Edge.u e = v)); [|done]. left.
      apply list_elem_of_In, list_elem_of_singleton in Hw. done.
    + destruct (decide (Edge.v e = v)); [|done]. right.
      apply list_elem_of_In, list_elem_of_singleton in Hw. done.
  - intros (e & He & [[Hu Hv]|[Hu Hv]]); exists e;
      (split; [by apply list_elem_of_In|]); apply in_or_app.
    + left. rewrite decide_True by done. apply list_elem_of_In.
      by apply list_elem_of_singleton.
    + right. rewrite decide_True by done. apply list_elem_of_In.
      by apply list_elem_of_singleton.
Qed.


Lemma related_fold G entity_id entity_type related distances r :
  r ∈ foldl (related_step G entity_id entity_type) related distances
  ↔ r ∈ related ∨
    ∃ w d, (w, d) ∈ distances ∧ w ≠ entity_id ∧
      type_filtered_out G entity_type w = false ∧ r = related_record G w d.
Proof.
  revert related. induction distances as [|[w d] distances IH]; intros related; simpl.
  - split; [auto|]. intros [?|(w & d & H & _)]; [done|]. by apply elem_of_nil in H.
  - rewrite IH. clear IH. destruct (decide (w = entity_id)) as [->|Hne].
    + split.
      * intros [?|(w & d' & Hin & ?)]; [by left|]. right. exists w, d'.
        split; [by apply list_elem_of_further|done].
      * intros [?|(w & d' & [[= -> ->]|Hin]%elem_of_cons & Hw & ?)];
          [by left|done|]. right. eauto 10.
    + destruct (type_filtered_out G entity_type w) eqn:Hty.
      * split.
        -- intros [?|(w' & d' & Hin & ?)]; [by left|]. right. exists w', d'.
           split; [by apply list_elem_of_further|done].
        -- intros [?|(w' & d' & [[= -> ->]|Hin]%elem_of_cons & Hw & Hf & ?)];
             [by left|congruence|]. right. eauto 10.
      * rewrite elem_of_app, list_elem_of_singleton. split.
        -- intros [[?| ->]|(w' & d' & Hin & ?)]; [by left| |].
           ++ right. exists w, d. split; [apply list_elem_of_here|done].
           ++ right. exists w', d'. split; [by apply list_elem_of_further|done].
        -- intros [?|(w' & d' & [[= -> ->]|Hin]%elem_of_cons & Hw & Hf & ->)];
             [by left; left|by left; right|]. right. eauto 10.
Qed.




End RelatedFacts.

(** From the seed [s1] the hub is one step away (along the edge out of
    [s1]) and the other seeds two (back along their edges into the hub). *)
Example related_to_seed :
  (λ r, (KnowledgeGraph.Related.id r, KnowledgeGraph.Related.distance r))
    <$> KnowledgeGraph.find_related_entities (HybridSearch.kg searcher_hub)
          "s1" None 2
  = [("hub", 1%nat); ("s2", 2%nat); ("s3", 2%nat); ("s4", 2%nat)].
Proof. reflexivity. Qed.


(** ** get_neighbors *)

Section NeighborFacts.
Import KnowledgeGraph.

(** The relationship types that the filter lets through: all of them when
    no type, or an empty list of types, is given. *)
Definition type_allowed (relationship_types : option (list string))
    (t : string) : Prop :=
  match relationship_types with
  | Some (ty :: tys) => t ∈ ty :: tys
  | _ => True
  end.

(** An edge of an allowed type leads from [v] to [w]. *)
Definition directed_edge (G : nx.MultiDiGraph)
    (relationship_types : option (list string)) (v w : string) : Prop :=
  ∃ e, e ∈ nx._edges G ∧ Edge.u e = v ∧ Edge.v e = w ∧
       type_allowed relationship_types (EdgeAttrs.relationship_type (Edge.data e)).

(** The ids in the bucket [depth_k] (none when the key is absent). *)
Definition bucket_ids (buckets : gmap string (list (string * option NodeAttrs.t)))
    (k : nat) : list string :=
  (default [] (buckets !! depth_key k)).*1.

(** Whether [visit_neighbor] lets [neighbor] through from [node]. *)
Definition passes (G : nx.MultiDiGraph) (relationship_types : option (list string))
    (node neighbor : string) : bool :=
  match relationship_types with
  | Some (ty :: tys) => edge_type_matches G node neighbor (ty :: tys)
  | _ => true
  end.

Lemma successors_spec G v w :
  w ∈ nx.successors G v ↔ ∃ e, e ∈ nx._edges G ∧ Edge.u e = v ∧ Edge.v e = w.
Proof.
  unfold nx.successors. rewrite unique_first_elem, list_elem_of_fmap. split.
  - intros (e & -> & [Hu He]%list_elem_of_filter). eauto.
  - intros (e & He & Hu & Hv). exists e. split; [done|].
    by apply list_elem_of_filter.
Qed.

Lemma edge_type_matches_spec G v w tys :
  edge_type_matches G v w tys = true
  ↔ ∃ e, e ∈ nx._edges G ∧ Edge.u e = v ∧ Edge.v e = w ∧
         EdgeAttrs.relationship_type (Edge.data e) ∈ tys.
Proof.
  unfold edge_type_matches, nx.get_edge_data. rewrite existsb_exists. split.
  - intros (kd & Hkd & Hty). apply list_elem_of_In, list_elem_of_fmap in Hkd
      as (e & -> & [[Hu Hv] He]%list_elem_of_filter).
    apply bool_decide_eq_true in Hty. simpl in Hty. eauto 10.
  - intros (e & He & Hu & Hv & Hty). exists (Edge.key e, Edge.data e). split.
    + apply list_elem_of_In, list_elem_of_fmap. exists e. split; [done|].
      by apply list_elem_of_filter.
    + by apply bool_decide_eq_true.
Qed.

Lemma passes_spec G relationship_types v w :
  (w ∈ nx.neighbors G v ∧ passes G relationship_types v w = true)
  ↔ directed_edge G relationship_types v w.
Proof.
  unfold nx.neighbors, directed_edge, passes, type_allowed.
  rewrite successors_spec.
  destruct relationship_types as [[|ty tys]|].
  - split; [intros [(e & ? & ? & ?) _]; eauto 10|].
    intros (e & ? & ? & ? & _). eauto 10.
  - rewrite edge_type_matches_spec. split; [intros [_ ?]; done|].
    intros (e & ? & ? & ? & ?). eauto 10.
  - split; [intros [(e & ? & ? & ?) _]; eauto 10|].
    intros (e & ? & ? & ? & _). eauto 10.
Qed.

Lemma visit_neighbor_eq G relationship_types node next_level visited neighbor :
  visit_neighbor G relationship_types node (next_level, visited) neighbor
  = if decide (neighbor ∈ visited) then (next_level, visited)
    else if passes G relationship_types node neighbor
         then ({[neighbor]} ∪ next_level, {[neighbor]} ∪ visited)
         else (next_level, visited).
Proof.
  unfold visit_neighbor, passes. destruct (decide (neighbor ∈ visited)); [done|].
  by destruct relationship_types as [[|ty tys]|].
Qed.

Lemma visit_neighbors_fold G relationship_types node ws
    (next_level visited : gset string) :
  ∃ next_level',
    foldl (visit_neighbor G relationship_types node)
      (next_level, visited ∪ next_level) ws
    = (next_level', visited ∪ next_level') ∧
    ∀ w, w ∈ next_level'
         ↔ w ∈ next_level
           ∨ (w ∈ ws ∧ (w ∉ visited) ∧ passes G relationship_types node w = true).
Proof.
  revert next_level. induction ws as [|x ws IH]; intros next_level; cbn [foldl].
  - exists next_level. split; [done|]. intros w. rewrite elem_of_nil. tauto.
  - rewrite visit_neighbor_eq.
    destruct (decide (x ∈ visited ∪ next_level)) as [Hin|Hnin].
    + destruct (IH next_level) as (next' & -> & Hnext). exists next'.
      split; [done|]. intros w. rewrite Hnext, elem_of_cons. split; [tauto|].
      intros [?|[[->|?] [? ?]]]; [tauto| |tauto].
      apply elem_of_union in Hin as [?|?]; [done|tauto].
    + destruct (passes G relationship_types node x) eqn:Hp.
      * replace ({[x]} ∪ (visited ∪ next_level))
          with (visited ∪ ({[x]} ∪ next_level)) by set_solver.
        destruct (IH ({[x]} ∪ next_level)) as (next' & -> & Hnext).
        exists next'. split; [done|]. intros w.
        rewrite Hnext, elem_of_union, elem_of_singleton, elem_of_cons. split.
        -- intros [[->|?]|[? ?]]; [|tauto|tauto]. right.
           split; [by left|]. split; [set_solver|done].
        -- intros [?|[[->|?] [? ?]]]; tauto.
      * destruct (IH next_level) as (next' & -> & Hnext). exists next'.
        split; [done|]. intros w. rewrite Hnext, elem_of_cons. split; [tauto|].
        intros [?|[[->|?] [? ?]]]; [tauto|congruence|tauto].
Qed.

Lemma expand_nodes_fold G relationship_types nodes
    (next_level visited : gset string) :
  ∃ next_level',
    foldl (λ acc node, foldl (visit_neighbor G relationship_types node) acc
                         (nx.neighbors G node))
      (next_level, visited ∪ next_level) nodes
    = (next_level', visited ∪ next_level') ∧
    ∀ w, w ∈ next_level'
         ↔ w ∈ next_level
           ∨ ((w ∉ visited) ∧ ∃ v, v ∈ nodes ∧ w ∈ nx.neighbors G v ∧
                                 passes G relationship_types v w = true).
Proof.
  revert next_level. induction nodes as [|x nodes IH]; intros next_level; cbn [foldl].
  - exists next_level. split; [done|]. intros w. split; [tauto|].
    intros [?|(_ & v & Hv & _)]; [done|]. by apply elem_of_nil in Hv.
  - destruct (visit_neighbors_fold G relationship_types x (nx.neighbors G x)
                next_level visited) as (next1 & -> & Hnext1).
    destruct (IH next1) as (next' & -> & Hnext). exists next'.
    split; [done|]. intros w. rewrite Hnext, Hnext1. split.
    + intros [[?|(? & ? & ?)]|(? & v & ? & ? & ?)]; [tauto| |].
      * right. split; [done|]. exists x. split; [apply list_elem_of_here|done].
      * right. split; [done|]. exists v.
        split; [by apply list_elem_of_further|done].
    + intros [?|(? & v & [->|?]%elem_of_cons & ? & ?)]; [tauto|tauto|].
      right. split; [done|]. eauto.
Qed.

(** One round of [get_neighbors]. *)
Lemma expand_level_spec G relationship_types (current_level visited : gset string) :
  ∃ next_level,
    expand_level G relationship_types current_level visited
    = (next_level, visited ∪ next_level) ∧
    ∀ w, w ∈ next_level
         ↔ ((w ∉ visited) ∧
            ∃ v, v ∈ current_level ∧ directed_edge G relationship_types v w).
Proof.
  unfold expand_level.
  destruct (expand_nodes_fold G relationship_types (elements current_level)
              ∅ visited) as (next & Heq & Hnext).
  rewrite (right_id_L ∅ (∪)) in Heq. exists next. split; [done|].
  intros w. rewrite Hnext, elem_of_empty. split.
  - intros [[]|(Hv & v & Hin & Hw)]. split; [done|]. exists v.
    split; [by apply elem_of_elements|]. by apply passes_spec.
  - intros (Hv & v & Hin & Hw). right. split; [done|]. exists v.
    split; [by apply elem_of_elements|]. by apply passes_spec.
Qed.

Lemma depth_key_inj k k' : depth_key k = depth_key k' → k = k'.
Proof.
  unfold depth_key. cbv [String.append]. intros [= H].
  by apply (inj pretty) in H.
Qed.

Lemma bucket_ids_insert buckets k k' (next_level : gset string) G w :
  w ∈ bucket_ids (<[depth_key k := neighbor_record G <$> elements next_level]>
                    buckets) k'
  ↔ if decide (k = k') then w ∈ next_level else w ∈ bucket_ids buckets k'.
Proof.
  unfold bucket_ids. destruct (decide (k = k')) as [->|Hne].
  - rewrite lookup_insert_eq. simpl. rewrite <- list_fmap_compose.
    rewrite list_elem_of_fmap. split.
    + intros (v & -> & Hv). by apply elem_of_elements.
    + intros Hw. exists w. split; [done|]. by apply elem_of_elements.
  - rewrite lookup_insert_ne; [done|]. intros H. by apply depth_key_inj in H.
Qed.

(** [levels_loop] fills the buckets from [level] on and leaves the others. *)
Lemma levels_loop_below G relationship_types n level current visited buckets k :
  (k < level)%nat →
  bucket_ids (levels_loop G relationship_types n level current visited buckets) k
  = bucket_ids buckets k.
Proof.
  revert level current visited buckets.
  induction n as [|n IH]; intros level current visited buckets Hk; simpl; [done|].
  destruct (expand_level_spec G relationship_types current visited)
    as (next & -> & _).
  rewrite IH by lia. destruct (decide (next = ∅)); [done|].
  unfold bucket_ids. rewrite lookup_insert_ne; [done|].
  intros H. apply depth_key_inj in H. lia.
Qed.

Lemma levels_loop_spec G relationship_types s n j current visited buckets k w :
  level_inv (directed_edge G relationship_types) s j (λ v, v ∈ current) visited →
  (∀ k', (j < k')%nat → bucket_ids buckets k' = []) →
  (j < k)%nat →
  w ∈ bucket_ids
        (levels_loop G relationship_types n (S j) current visited buckets) k
  ↔ (k ≤ j + n)%nat ∧ at_distance (directed_edge G relationship_types) s k w.
Proof.
  revert j current visited buckets.
  induction n as [|n IH]; intros j current visited buckets Hinv Hempty Hk; simpl.
  - rewrite Hempty by done. rewrite elem_of_nil. split; [done|]. lia.
  - destruct (expand_level_spec G relationship_types current visited)
      as (next & -> & Hnext).
    assert (level_inv (directed_edge G relationship_types) s (S j)
              (λ v, v ∈ next) (visited ∪ next)) as Hinv'.
    { eapply level_inv_step; [exact Hinv|exact Hnext|].
      intros v. by rewrite elem_of_union. }
    set (buckets' := if decide (next = ∅) then buckets
                     else <[depth_key (S j) := neighbor_record G <$> elements next]>
                            buckets).
    assert (∀ k' v, (j < k')%nat →
              v ∈ bucket_ids buckets' k' ↔ k' = S j ∧ v ∈ next) as Hb.
    { intros k' v Hk'. unfold buckets'. destruct (decide (next = ∅)) as [->|Hne].
      - rewrite Hempty by done. rewrite elem_of_nil, elem_of_empty. tauto.
      - rewrite bucket_ids_insert. destruct (decide (S j = k')) as [<-|?].
        + tauto.
        + rewrite Hempty by done. rewrite elem_of_nil. split; [done|].
          intros [? _]. congruence. }
    destruct (decide (k = S j)) as [->|Hne].
    + rewrite levels_loop_below by lia. rewrite Hb by lia. split.
      * intros [_ Hw]. split; [lia|]. by apply Hinv'.
      * intros [_ Hw]. split; [done|]. by apply Hinv'.
    + rewrite (IH (S j) next (visited ∪ next) buckets' Hinv'); [|..|lia].
      * split; (intros [? ?]; split; [lia|done]).
      * intros k' Hk'. destruct (bucket_ids buckets' k') as [|v l] eqn:Hl; [done|].
        assert (v ∈ bucket_ids buckets' k') as Hv
          by (rewrite Hl; apply list_elem_of_here).
        apply Hb in Hv as [? _]; lia.
Qed.

(** C2, as the code has it.  For a node of the graph, [get_neighbors]
    expands breadth-first along the edges that leave a node
    ([graph.neighbors] of a directed graph lists the successors only), of
    an allowed type when the filter is given: the bucket [depth_k], for
    [1 <= k <= depth], holds exactly the nodes at distance [k] along such
    edges, so no node is in two buckets and the origin is in none; a node
    that no edge from the origin leads to, whatever edges lead from it to
    the origin, is not in [depth_1]. *)
Theorem get_neighbors_follows_outgoing_edges
    (self : KnowledgeGraph.t) (entity_id : string) (depth : Z)
    (relationship_types : option (list string)) :
  nx.contains (graph self) entity_id = true →
  let buckets := get_neighbors self entity_id depth relationship_types in
  (∀ k w, (1 ≤ k)%nat →
     w ∈ bucket_ids buckets k
     ↔ (Z.of_nat k ≤ depth)%Z ∧
       at_distance (directed_edge (graph self) relationship_types) entity_id k w) ∧
  (∀ k k' w, w ∈ bucket_ids buckets k → w ∈ bucket_ids buckets k' → k = k') ∧
  (∀ k, entity_id ∉ bucket_ids buckets k) ∧
  (∀ w, (¬ ∃ e, e ∈ nx._edges (graph self) ∧ Edge.u e = entity_id ∧ Edge.v e = w) →
     w ∉ bucket_ids buckets 1).
Proof.
  intros Hin buckets. subst buckets. unfold get_neighbors. rewrite Hin.
  cbn [negb].
  set (R := directed_edge (graph self) relationship_types).
  set (buckets := levels_loop _ _ _ _ _ _ _).
  assert (∀ k w, (1 ≤ k)%nat →
            w ∈ bucket_ids buckets k
            ↔ (Z.of_nat k ≤ depth)%Z ∧ at_distance R entity_id k w) as Hmain.
  { intros k w Hk. unfold buckets.
    rewrite (levels_loop_spec _ _ entity_id _ 0); [| | |lia].
    - split; (intros [? ?]; split; [lia|done]).
    - destruct (level_inv_init R entity_id) as [H1 H2]. split; [done|].
      intros v. rewrite elem_of_singleton. apply H2.
    - intros k' _. unfold bucket_ids. by rewrite lookup_empty. }
  assert (∀ w, w ∉ bucket_ids buckets 0) as Hzero.
  { intros w. unfold buckets. rewrite levels_loop_below by lia.
    unfold bucket_ids. rewrite lookup_empty. apply not_elem_of_nil. }
  split; [exact Hmain|]. split; [|split].
  - intros k k' w Hk Hk'.
    destruct (decide (k = 0%nat)) as [->|?]; [by destruct (Hzero w)|].
    destruct (decide (k' = 0%nat)) as [->|?]; [by destruct (Hzero w)|].
    apply Hmain in Hk as [_ Hk]; [|lia]. apply Hmain in Hk' as [_ Hk']; [|lia].
    by eapply at_distance_unique.
  - intros k Hk. destruct (decide (k = 0%nat)) as [->|?]; [by destruct (Hzero entity_id)|].
    apply Hmain in Hk as [_ Hk]; [|lia].
    assert (at_distance R entity_id 0 entity_id) as H0 by (by apply at_distance_0).
    pose proof (at_distance_unique R _ _ _ _ Hk H0). lia.
  - intros w Hno Hw. apply Hmain in Hw as [_ [Hw _]]; [|lia].
    apply walk_S_inv in Hw as (v & ->%walk_0_inv & (e & He & Hu & Hv & _)).
    apply Hno. eauto.
Qed.
End NeighborFacts.

(** In the graph with the single edge from [a] to [b], [b] is in the
    bucket [depth_1] of [a]. *)
Example neighbors_of_a :
  map_to_list (KnowledgeGraph.get_neighbors graph_a_b "a" 2 None)
  = [("depth_1", [("b", None)])].
Proof. reflexivity. Qed.

Lemma get_neighbors_follows_outgoing_edges_witness :
  "a" ∉ bucket_ids (KnowledgeGraph.get_neighbors graph_a_b "a" 2 None) 1.
Proof.
  exact (proj1 (proj2 (proj2 (get_neighbors_follows_outgoing_edges
                         graph_a_b "a" 2 None eq_refl))) 1%nat).
Defined.

(** C2 as stated fails.  [b] is a node, the edge from [a] to [b] makes [a]
    a neighbour of [b] by an incoming edge, and [get_neighbors] returns no
    bucket at all for [b]: [a] is not in [depth_1]. *)
Lemma get_neighbors_misses_incoming_edge :
  nx.contains (KnowledgeGraph.graph graph_a_b) "b" = true ∧
  (∃ e, e ∈ nx._edges (KnowledgeGraph.graph graph_a_b) ∧
        Edge.u e = "a" ∧ Edge.v e = "b") ∧
  map_to_list (KnowledgeGraph.get_neighbors graph_a_b "b" 1 None) = [] ∧
  "a" ∉ bucket_ids (KnowledgeGraph.get_neighbors graph_a_b "b" 1 None) 1.
Proof.
  split; [reflexivity|]. split.
  { eexists. split; [apply list_elem_of_here|]. split; reflexivity. }
  split; [reflexivity|]. vm_compute. apply not_elem_of_nil.
Qed.

(** ** find_paths and find_shortest_path *)

Section PathFacts.
Import KnowledgeGraph.

(** The successor relation of the graph. *)
Definition succ_rel (G : nx.MultiDiGraph) : string → string → Prop :=
  adj_rel (nx.successors G).

Lemma out_edges_successor G n e :
  e ∈ nx.out_edges G n → e.1 ∈ nx.successors G n.
Proof.
  unfold nx.out_edges. rewrite list_elem_of_In, in_flat_map.
  intros (w & Hw & He). apply list_elem_of_In in Hw.
  apply list_elem_of_In, list_elem_of_fmap in He as (kd & -> & _). done.
Qed.

(** Every path that the depth-first search yields walks from the current
    node to the target. *)
Lemma dfs_paths_walk G target budget path_rev n q :
  q ∈ nx.dfs_paths G target budget path_rev n →
  ∃ m, walk (succ_rel G) m n target ∧ length q = (length path_rev + m)%nat.
Proof.
  revert path_rev n. induction budget as [|b IH]; intros path_rev n; simpl.
  - intros H. by apply elem_of_nil in H.
  - rewrite list_elem_of_In, in_flat_map. intros (e & He & Hq).
    apply list_elem_of_In, out_edges_successor in He.
    apply list_elem_of_In in Hq.
    assert (walk (succ_rel G) 1 n e.1) as Hstep.
    { econstructor; [constructor|done]. }
    destruct (decide (e.1 ∈ path_rev)); [by apply elem_of_nil in Hq|].
    destruct (decide (e.1 = target)) as [Ht|Hne].
    + apply list_elem_of_singleton in Hq as ->. exists 1%nat.
      split; [by rewrite <- Ht|].
      simpl. rewrite length_app, List.length_rev. simpl. lia.
    + apply IH in Hq as (m & Hm & Hlen). exists (1 + m)%nat. split.
      * by eapply walk_app.
      * rewrite Hlen. simpl. lia.
Qed.

Lemma all_simple_paths_walk G source target cutoff q :
  q ∈ nx.all_simple_paths G source target cutoff →
  ∃ m, walk (succ_rel G) m source target ∧ length q = S m.
Proof.
  unfold nx.all_simple_paths. destruct (cutoff <? 0)%Z.
  { intros H. by apply elem_of_nil in H. }
  destruct (decide (source = target)) as [->|Hne].
  - intros ->%list_elem_of_singleton. exists 0%nat. split; [constructor|done].
  - intros (m & Hm & Hlen)%dfs_paths_walk. exists m. split; [done|].
    rewrite Hlen. done.
Qed.

Lemma find_paths_walk self source_id target_id max_depth cutoff q :
  q ∈ find_paths self source_id target_id max_depth cutoff →
  ∃ m, walk (succ_rel (graph self)) m source_id target_id ∧ length q = S m.
Proof.
  unfold find_paths.
  destruct (negb (nx.contains (graph self) source_id)
            || negb (nx.contains (graph self) target_id)).
  { intros H. by apply elem_of_nil in H. }
  intros Hq. apply (all_simple_paths_walk _ _ _ max_depth).
  destruct cutoff as [c|]; [|done].
  destruct (bool_decide (c = 0%Z)); [done|]. by eapply py_slice_to_elem.
Qed.

Lemma visit_paths_spec ws p seen next :
  ∃ new,
    nx.visit_paths ws p seen next
    = (seen ∪ list_to_set new, next ++ ((λ w, (w, w :: p)) <$> new)) ∧
    ∀ w, w ∈ new ↔ w ∈ ws ∧ w ∉ seen.
Proof.
  revert seen next. induction ws as [|x ws IH]; intros seen next; simpl.
  - exists []. split.
    + rewrite app_nil_r. f_equal. set_solver.
    + intros w. rewrite !elem_of_nil. tauto.
  - destruct (decide (x ∈ seen)) as [Hin|Hnin].
    + destruct (IH seen next) as (new & -> & Hnew). exists new.
      split; [done|]. intros w. rewrite Hnew, elem_of_cons.
      split; [tauto|]. intros [[->|?] ?]; tauto.
    + destruct (IH ({[x]} ∪ seen) (next ++ [(x, x :: p)])) as (new & -> & Hnew).
      exists (x :: new). split.
      * f_equal; [set_solver|]. by rewrite <- app_assoc.
      * intros w. rewrite !elem_of_cons, Hnew. split.
        -- intros [->|[? ?]]; [tauto|]. split; [tauto|]. set_solver.
        -- intros [[->|?] ?]; [tauto|].
           destruct (decide (w = x)) as [->|?]; [tauto|]. right.
           split; [done|]. set_solver.
Qed.

Lemma sweep_paths_spec adj thislevel seen next :
  ∃ new : list (string * list string),
    nx.sweep_paths adj thislevel seen next
    = (seen ∪ list_to_set new.*1, next ++ new) ∧
    (∀ w, w ∈ new.*1 ↔ ((w ∉ seen) ∧ ∃ v, v ∈ thislevel.*1 ∧ adj_rel adj v w)) ∧
    (∀ w p, (w, p) ∈ new → ∃ v p0, (v, p0) ∈ thislevel ∧ p = w :: p0).
Proof.
  revert seen next.
  induction thislevel as [|[x px] thislevel IH]; intros seen next; simpl.
  - exists []. split; [|split].
    + rewrite app_nil_r. f_equal. set_solver.
    + intros w. simpl. rewrite elem_of_nil. split; [done|].
      intros (_ & v & Hv & _). by apply elem_of_nil in Hv.
    + intros w p H. by apply elem_of_nil in H.
  - destruct (visit_paths_spec (adj x) px seen next) as (new1 & -> & Hnew1).
    destruct (IH (seen ∪ list_to_set new1)
                (next ++ ((λ w, (w, w :: px)) <$> new1)))
      as (new2 & -> & Hnew2 & Hpaths2).
    exists (((λ w, (w, w :: px)) <$> new1) ++ new2).
    assert ((((λ w, (w, w :: px)) <$> new1) ++ new2).*1 = new1 ++ new2.*1) as Hfst.
    { rewrite fmap_app, <- list_fmap_compose. f_equal.
      clear. induction new1 as [|y l IH]; [done|].
      rewrite fmap_cons. simpl. by f_equal. }
    split; [|split].
    + f_equal; [|by rewrite <- app_assoc].
      rewrite Hfst, list_to_set_app_L. set_solver.
    + intros w. rewrite Hfst, elem_of_app, Hnew1, Hnew2. unfold adj_rel.
      rewrite elem_of_union, elem_of_list_to_set, Hnew1. split.
      * intros [[Hw Hs]|[Hs (v & Hv & Hw)]].
        -- split; [done|]. exists x. split; [apply list_elem_of_here|done].
        -- split; [tauto|]. exists v. split; [by apply list_elem_of_further|done].
      * intros (Hs & v & [->|Hv]%elem_of_cons & Hw); [tauto|].
        destruct (decide (w ∈ adj x)) as [|Hn]; [tauto|].
        right. split; [tauto|]. eauto.
    + intros w p [Hin|Hin]%elem_of_app.
      * apply list_elem_of_fmap in Hin as (y & [= -> ->] & _).
        exists x, px. split; [apply list_elem_of_here|done].
      * destruct (Hpaths2 w p Hin) as (v & p0 & Hv & ->). exists v, p0.
        split; [by apply list_elem_of_further|done].
Qed.

(** A path that the search returns ends at the target, after as many steps
    as the distance of the target. *)
Lemma search_paths_spec adj s target fuel k thislevel seen q :
  level_inv (adj_rel adj) s k (λ v, v ∈ thislevel.*1) seen →
  (∀ v p, (v, p) ∈ thislevel → length p = S k) →
  nx.search_paths adj target fuel thislevel seen = Some q →
  ∃ d, at_distance (adj_rel adj) s d target ∧ length q = S d.
Proof.
  revert k thislevel seen.
  induction fuel as [|fuel IH]; intros k thislevel seen Hinv Hlen; simpl.
  - destruct (ODict.get thislevel target) as [p|] eqn:Hget; [|done].
    intros [= <-]. apply odict_get_Some_elem in Hget. exists k. split.
    + apply Hinv. by apply (list_elem_of_fmap_2 fst) in Hget.
    + rewrite List.length_rev. by eapply Hlen.
  - destruct (ODict.get thislevel target) as [p|] eqn:Hget.
    + intros [= <-]. apply odict_get_Some_elem in Hget. exists k. split.
      * apply Hinv. by apply (list_elem_of_fmap_2 fst) in Hget.
      * rewrite List.length_rev. by eapply Hlen.
    + destruct thislevel as [|entry rest] eqn:Hlevel; [done|].
      rewrite <- Hlevel in *. clear Hlevel entry rest.
      destruct (sweep_paths_spec adj thislevel seen [])
        as (new & -> & Hnew & Hpaths).
      rewrite app_nil_l. apply (IH (S k)).
      * eapply level_inv_step; [exact Hinv|exact Hnew|].
        intros v. by rewrite elem_of_union, elem_of_list_to_set.
      * intros v p (v0 & p0 & Hv0 & ->)%Hpaths. simpl. f_equal.
        by eapply Hlen.
Qed.

(** The search finds the target when the fuel covers the levels between
    the current one and that of the target. *)
Lemma search_paths_complete adj s target fuel k thislevel seen d :
  level_inv (adj_rel adj) s k (λ v, v ∈ thislevel.*1) seen →
  at_distance (adj_rel adj) s d target →
  (k ≤ d)%nat → (d ≤ k + fuel)%nat →
  is_Some (nx.search_paths adj target fuel thislevel seen).
Proof.
  revert k thislevel seen.
  induction fuel as [|fuel IH]; intros k thislevel seen Hinv Hd Hle Hfuel; simpl.
  - destruct (ODict.get thislevel target) as [p|] eqn:Hget; [by eexists|].
    exfalso. apply odict_get_None in Hget. apply Hget, Hinv.
    by replace k with d by lia.
  - destruct (ODict.get thislevel target) as [p|] eqn:Hget; [by eexists|].
    assert (k ≠ d) as Hne.
    { intros ->. apply odict_get_None in Hget. by apply Hget, Hinv. }
    destruct (at_distance_prefix _ s k d target Hle Hd) as (v & Hv).
    apply Hinv in Hv.
    destruct thislevel as [|entry rest] eqn:Hlevel.
    { by apply elem_of_nil in Hv. }
    rewrite <- Hlevel in *. clear Hlevel entry rest.
    destruct (sweep_paths_spec adj thislevel seen [])
      as (new & -> & Hnew & _).
    rewrite app_nil_l. apply (IH (S k)); [|done|lia|lia].
    eapply level_inv_step; [exact Hinv|exact Hnew|].
    intros u. by rewrite elem_of_union, elem_of_list_to_set.
Qed.

(** A node at distance [d] lies behind [d] nodes that distinct edges
    enter, so no distance exceeds the number of edges. *)
Lemma at_distance_le_edges G s d w :
  at_distance (succ_rel G) s d w → (d ≤ length (nx._edges G))%nat.
Proof.
  intros Hd.
  destruct (at_distance_nodes _ s d w d Hd) as (l & <- & Hnd & Hl); [done|].
  rewrite <- (length_fmap Edge.v (nx._edges G)).
  apply submseteq_length, NoDup_submseteq; [done|].
  intros v (i & _ & [(u & _ & Hr)%walk_S_inv _])%Hl.
  apply successors_spec in Hr as (e & He & _ & <-).
  by apply list_elem_of_fmap_2.
Qed.

(** [find_shortest_path] returns a path whenever the two nodes are in the
    graph and some walk leads from the first to the second. *)
Lemma find_shortest_path_complete self source_id target_id m :
  nx.contains (graph self) source_id = true →
  nx.contains (graph self) target_id = true →
  walk (succ_rel (graph self)) m source_id target_id →
  is_Some (find_shortest_path self source_id target_id).
Proof.
  intros Hs Ht Hw. apply walk_at_distance in Hw as (d & _ & Hd).
  unfold find_shortest_path. rewrite Hs, Ht. simpl.
  unfold nx.shortest_path.
  destruct (search_paths_complete (nx.successors (graph self)) source_id
              target_id (length (nx._edges (graph self))) 0
              [(source_id, [source_id])] {[source_id]} d) as [p ->];
    [|done|lia| |by eexists].
  - destruct (level_inv_init (succ_rel (graph self)) source_id) as [H1 H2].
    split; [done|]. intros v. simpl. rewrite list_elem_of_singleton. apply H2.
  - simpl. by eapply at_distance_le_edges.
Qed.

(** In particular it returns one whenever [find_paths] does. *)
Lemma find_paths_has_shortest_path self source_id target_id max_depth cutoff q :
  q ∈ find_paths self source_id target_id max_depth cutoff →
  is_Some (find_shortest_path self source_id target_id).
Proof.
  intros Hq. destruct (find_paths_walk _ _ _ _ _ _ Hq) as (m & Hm & _).
  revert Hq. unfold find_paths.
  destruct (nx.contains (graph self) source_id) eqn:Hs; simpl.
  2:{ intros H. by apply elem_of_nil in H. }
  destruct (nx.contains (graph self) target_id) eqn:Ht; simpl.
  2:{ intros H. by apply elem_of_nil in H. }
  intros _. by eapply find_shortest_path_complete.
Qed.

Lemma find_shortest_path_distance self source_id target_id p :
  find_shortest_path self source_id target_id = Some p →
  ∃ d, at_distance (succ_rel (graph self)) source_id d target_id ∧
       length p = S d.
Proof.
  unfold find_shortest_path.
  destruct (negb (nx.contains (graph self) source_id)
            || negb (nx.contains (graph self) target_id)); [done|].
  unfold nx.shortest_path.
  destruct (nx.search_paths _ _ _ _ _) as [q|] eqn:Hs; [|done].
  intros [= <-]. eapply (search_paths_spec _ source_id _ _ 0); [| |exact Hs].
  - destruct (level_inv_init (succ_rel (graph self)) source_id) as [H1 H2].
    split; [done|]. intros v. simpl. rewrite list_elem_of_singleton. apply H2.
  - intros v p' [= -> ->]%list_elem_of_singleton. done.
Qed.

(** C7.  A path that [find_shortest_path] returns has at most as many
    nodes as any path that [find_paths] returns for the same pair of
    nodes, whatever [max_depth] and [cutoff]. *)
Theorem shortest_path_not_longer_than_found_paths
    (self : KnowledgeGraph.t) (source_id target_id : string)
    (max_depth : Z) (cutoff : option Z) (p q : list string) :
  find_shortest_path self source_id target_id = Some p →
  q ∈ find_paths self source_id target_id max_depth cutoff →
  (length p ≤ length q)%nat.
Proof.
  intros (d & Hd & ->)%find_shortest_path_distance
         (m & Hm & ->)%find_paths_walk.
  apply le_n_S. by eapply at_distance_le_walk.
Qed.
End PathFacts.

(** The graph [a -> b -> c], [a -> d -> c] with a direct edge [a -> c]:
    the shortest path has two nodes, the other paths three. *)
Definition diamond : KnowledgeGraph.t :=
  {| KnowledgeGraph.graph :=
       foldl (λ G e, nx.add_edge G e.1.1 e.1.2 e.2 (no_edge_attrs "uses")) nx.empty
         [("a", "b", "r1"); ("b", "c", "r2"); ("a", "d", "r3");
          ("d", "c", "r4"); ("a", "c", "r5")];
     KnowledgeGraph._last_refresh := None |}.

Example diamond_paths :
  KnowledgeGraph.find_paths diamond "a" "c" 3 None
    = [["a"; "b"; "c"]; ["a"; "d"; "c"]; ["a"; "c"]] ∧
  KnowledgeGraph.find_shortest_path diamond "a" "c" = Some ["a"; "c"] ∧
  KnowledgeGraph.find_shortest_path diamond "c" "a" = None.
Proof. repeat split; reflexivity. Qed.

Lemma shortest_path_not_longer_than_found_paths_witness :
  (length ["a"; "c"] ≤ length ["a"; "b"; "c"])%nat.
Proof.
  apply (shortest_path_not_longer_than_found_paths diamond "a" "c" 3 None
           ["a"; "c"] ["a"; "b"; "c"] eq_refl).
  apply (bool_decide_unpack _). vm_compute. exact I.
Defined.

(** ** Paths as node lists *)

Section Chains.
Context (R : string → string → Prop).

(** [chain l]: every node of [l] is joined to the next one. *)
Inductive chain : list string → Prop :=
  | chain_nil : chain []
  | chain_one a : chain [a]
  | chain_cons a b l : R a b → chain (b :: l) → chain (a :: b :: l).

(** [path s t q]: the node list [q] leads from [s] to [t] along [R]. *)
Definition path (s t : string) (q : list string) : Prop :=
  head q = Some s ∧ last q = Some t ∧ chain q.

Lemma chain_snoc l a b : chain (l ++ [a]) → R a b → chain (l ++ [a; b]).
Proof.
  induction l as [|x l IH]; simpl; intros Hc Hr.
  - constructor; [done|constructor].
  - destruct l as [|y l]; simpl in *; inversion Hc; subst;
      (constructor; [done|by apply IH]).
Qed.

Lemma walk_1 v w : R v w → walk R 1 v w.
Proof. intros Hr. econstructor; [constructor|done]. Qed.

Lemma chain_walk q :
  chain q → ∀ s t, head q = Some s → last q = Some t →
  walk R (pred (length q)) s t.
Proof.
  induction 1 as [|a|a b l Hr Hc IH]; intros s t Hs Ht.
  - done.
  - simpl in *. injection Hs as <-. injection Ht as <-. constructor.
  - simpl in Hs. injection Hs as <-. rewrite last_cons_cons in Ht.
    apply (walk_app R 1 (length l) a b t); [by apply walk_1|].
    by apply (IH b t).
Qed.

Lemma path_walk s t q : path s t q → walk R (pred (length q)) s t.
Proof. intros (Hs & Ht & Hc). by apply chain_walk. Qed.

Lemma walk_path n s w : walk R n s w → ∃ q, path s w q ∧ length q = S n.
Proof.
  induction 1 as [s|n s v w Hw (q & (Hh & Hl & Hc) & Hlen) Hr].
  - exists [s]. split; [|done]. split; [done|]. split; [done|constructor].
  - exists (q ++ [w]). split; [|rewrite length_app; simpl; lia].
    split; [|split].
    + by destruct q.
    + apply last_snoc.
    + apply last_Some in Hl as [q' ->]. rewrite <- app_assoc.
      by apply chain_snoc.
Qed.
End Chains.

Lemma rev_reverse {A : Type} (l : list A) : rev l = reverse l.
Proof. by rewrite rev_alt. Qed.

(** ** The paths that find_paths and find_shortest_path return *)

Section PathShape.
Import KnowledgeGraph.

Lemma successor_out_edge G n w :
  w ∈ nx.successors G n → ∃ e, e ∈ nx.out_edges G n ∧ e.1 = w.
Proof.
  intros Hw. pose proof Hw as (e & He & Hu & Hv)%successors_spec.
  exists (w, Edge.key e). split; [|done].
  unfold nx.out_edges. apply list_elem_of_In, in_flat_map. exists w.
  split; [by apply list_elem_of_In|]. apply list_elem_of_In.
  apply (list_elem_of_fmap_2 (λ kd : string * EdgeAttrs.t, (w, kd.1))
           _ (Edge.key e, Edge.data e)).
  unfold nx.get_edge_data.
  apply (list_elem_of_fmap_2 (λ e, (Edge.key e, Edge.data e))).
  by apply list_elem_of_filter.
Qed.

(** What the depth-first search appends to the current path: new nodes,
    each joined to the one before, ending at the target. *)
Lemma dfs_paths_shape G target budget path_rev n q :
  q ∈ nx.dfs_paths G target budget path_rev n →
  ∃ ext, q = rev path_rev ++ ext ∧ last ext = Some target ∧
    chain (succ_rel G) (n :: ext) ∧ (length ext ≤ budget)%nat ∧
    NoDup ext ∧ ∀ x, x ∈ ext → x ∉ path_rev.
Proof.
  revert path_rev n. induction budget as [|b IH]; intros path_rev n; simpl.
  - intros H. by apply elem_of_nil in H.
  - rewrite list_elem_of_In, in_flat_map. intros (e & He & Hq).
    apply list_elem_of_In, out_edges_successor in He.
    apply list_elem_of_In in Hq.
    destruct (decide (e.1 ∈ path_rev)) as [|Hnew]; [by apply elem_of_nil in Hq|].
    destruct (decide (e.1 = target)) as [Ht|Hne].
    + apply list_elem_of_singleton in Hq as ->. exists [e.1].
      split; [done|]. split; [by rewrite Ht|]. split.
      { constructor; [done|constructor]. }
      split; [simpl; lia|]. split; [apply NoDup_singleton|].
      by intros x ->%list_elem_of_singleton.
    + apply IH in Hq as (ext & -> & Hlast & Hc & Hlen & Hnd & Hdis).
      exists (e.1 :: ext). split; [simpl; by rewrite <- app_assoc|].
      split; [by rewrite last_cons, Hlast|]. split; [by constructor|].
      split; [simpl; lia|]. split.
      * constructor; [|done]. intros Hin. apply (Hdis _ Hin), list_elem_of_here.
      * intros x [->|Hx]%elem_of_cons; [done|].
        intros Hin. apply (Hdis _ Hx). by apply list_elem_of_further.
Qed.

(** Conversely the search finds every such extension. *)
Lemma dfs_paths_complete G target budget path_rev n ext :
  chain (succ_rel G) (n :: ext) → last ext = Some target → NoDup ext →
  (∀ x, x ∈ ext → x ∉ path_rev) → (length ext ≤ budget)%nat →
  rev path_rev ++ ext ∈ nx.dfs_paths G target budget path_rev n.
Proof.
  revert budget path_rev n.
  induction ext as [|w ext IH]; intros budget path_rev n Hc Hlast Hnd Hdis Hlen.
  { done. }
  destruct budget as [|b]; [simpl in Hlen; lia|]. simpl.
  inversion Hc as [| |? ? ? Hr Hc']; subst.
  apply NoDup_cons in Hnd as [Hw Hnd].
  destruct (successor_out_edge _ _ _ Hr) as (e & He & <-).
  apply list_elem_of_In, in_flat_map. exists e.
  split; [by apply list_elem_of_In|]. apply list_elem_of_In.
  rewrite decide_False by (apply Hdis, list_elem_of_here).
  destruct (decide (e.1 = target)) as [Ht|Hne].
  - destruct ext as [|x ext].
    + apply list_elem_of_singleton. done.
    + exfalso. apply Hw. rewrite last_cons_cons in Hlast.
      rewrite Ht. clear -Hlast. apply last_Some in Hlast as [l' ->].
      apply elem_of_app. right. apply list_elem_of_here.
  - assert (last ext = Some target) as Hlast'.
    { destruct ext as [|x ext]; [simpl in Hlast; congruence|].
      by rewrite last_cons_cons in Hlast. }
    replace (rev path_rev ++ e.1 :: ext) with (rev (e.1 :: path_rev) ++ ext)
      by (simpl; by rewrite <- app_assoc).
    apply IH; [done|done|done| |simpl in Hlen; lia].
    intros x Hx [->|Hin]%elem_of_cons; [done|].
    by apply (Hdis x); [apply list_elem_of_further|].
Qed.

Lemma all_simple_paths_spec G source target cutoff q :
  source ≠ target →
  q ∈ nx.all_simple_paths G source target cutoff
  ↔ path (succ_rel G) source target q ∧ NoDup q ∧
    (Z.of_nat (length q) ≤ cutoff + 1)%Z.
Proof.
  intros Hne. unfold nx.all_simple_paths. split.
  - destruct (cutoff <? 0)%Z eqn:Hc; [intros H; by apply elem_of_nil in H|].
    apply Z.ltb_ge in Hc. rewrite decide_False by done.
    intros (ext & -> & Hlast & Hch & Hlen & Hnd & Hdis)%dfs_paths_shape.
    simpl. split; [split; [done|split; [|done]]|split].
    + by rewrite last_cons, Hlast.
    + constructor; [|done]. intros Hin. apply (Hdis _ Hin), list_elem_of_here.
    + lia.
  - intros ((Hh & Hl & Hch) & Hnd & Hlen).
    destruct q as [|s ext]; [done|]. simpl in Hh. injection Hh as ->.
    assert (last ext = Some target) as Hlast.
    { destruct ext as [|x ext]; [simpl in Hl; congruence|].
      by rewrite last_cons_cons in Hl. }
    assert (ext ≠ []) as Hext by (by intros ->).
    assert (1 ≤ length ext)%nat by (destruct ext; [done|simpl; lia]).
    simpl in Hlen. rewrite (proj2 (Z.ltb_ge _ _)) by lia.
    rewrite decide_False by done.
    apply NoDup_cons in Hnd as [Hs Hnd].
    apply (dfs_paths_complete G target _ [source] source ext); [done..| |lia].
    intros x Hx ->%list_elem_of_singleton. done.
Qed.

Lemma find_paths_present self source_id target_id max_depth cutoff :
  nx.contains (graph self) source_id = true →
  nx.contains (graph self) target_id = true →
  find_paths self source_id target_id max_depth cutoff
  = let paths := nx.all_simple_paths (graph self) source_id target_id max_depth in
    match cutoff with
    | Some c => if bool_decide (c = 0%Z) then paths else py_slice_to paths c
    | None => paths
    end.
Proof. intros Hs Ht. unfold find_paths. by rewrite Hs, Ht. Qed.

(** X1.  For two different nodes of the graph, [find_paths] without a
    [cutoff] returns exactly the simple directed paths from the source to
    the target that have at most [max_depth] edges; a [cutoff] keeps some
    of them, and a positive one at most [cutoff]. *)
Theorem find_paths_simple_paths
    (self : KnowledgeGraph.t) (source_id target_id : string) (max_depth : Z) :
  nx.contains (graph self) source_id = true →
  nx.contains (graph self) target_id = true →
  source_id ≠ target_id →
  (∀ q, q ∈ find_paths self source_id target_id max_depth None
        ↔ path (succ_rel (graph self)) source_id target_id q ∧ NoDup q ∧
          (Z.of_nat (length q) ≤ max_depth + 1)%Z) ∧
  (∀ c q, q ∈ find_paths self source_id target_id max_depth (Some c) →
          q ∈ find_paths self source_id target_id max_depth None) ∧
  (∀ c, (0 < c)%Z →
        (Z.of_nat (length (find_paths self source_id target_id max_depth (Some c)))
         ≤ c)%Z).
Proof.
  intros Hs Ht Hne. rewrite !find_paths_present by done. cbn zeta.
  split; [|split].
  - intros q. by apply all_simple_paths_spec.
  - intros c q. rewrite find_paths_present by done. cbn zeta.
    destruct (bool_decide (c = 0%Z)); [done|]. apply py_slice_to_elem.
  - intros c Hc. rewrite find_paths_present by done. cbn zeta.
    rewrite bool_decide_eq_false_2 by lia.
    rewrite py_slice_to_nonneg by lia. rewrite length_take. lia.
Qed.

Lemma visit_paths_entries ws p seen next w q :
  (w, q) ∈ (nx.visit_paths ws p seen next).2 →
  (w, q) ∈ next ∨ (w ∈ ws ∧ q = w :: p).
Proof.
  revert seen next. induction ws as [|x ws IH]; intros seen next; simpl.
  - by left.
  - destruct (decide (x ∈ seen)).
    + intros [?|[? ->]]%IH; [by left|]. right. split; [|done].
      by apply list_elem_of_further.
    + intros [[?|[= -> ->]%list_elem_of_singleton]%elem_of_app|[? ->]]%IH.
      * by left.
      * right. split; [apply list_elem_of_here|done].
      * right. split; [by apply list_elem_of_further|done].
Qed.

Lemma sweep_paths_entries adj thislevel seen next w q :
  (w, q) ∈ (nx.sweep_paths adj thislevel seen next).2 →
  (w, q) ∈ next ∨ ∃ v p, (v, p) ∈ thislevel ∧ w ∈ adj v ∧ q = w :: p.
Proof.
  revert seen next.
  induction thislevel as [|[x px] thislevel IH]; intros seen next; simpl.
  - by left.
  - destruct (nx.visit_paths (adj x) px seen next) as [seen' next'] eqn:Hv.
    intros [Hin|(v & p & Hvp & Hw & ->)]%IH.
    + change next' with (seen', next').2 in Hin. rewrite <- Hv in Hin.
      apply visit_paths_entries in Hin as [?|[? ->]]; [by left|].
      right. exists x, px. split; [apply list_elem_of_here|done].
    + right. exists v, p. split; [by apply list_elem_of_further|done].
Qed.

(** A frontier entry of the search at level [k]: a node with the path that
    reached it, last node first, whose [i]-th node from the source is at
    distance [i]. *)
Definition entry_ok (R : string → string → Prop) (s : string) (k : nat)
    (entry : string * list string) : Prop :=
  head entry.2 = Some entry.1 ∧ length entry.2 = S k ∧
  path R s entry.1 (rev entry.2) ∧
  ∀ i u, rev entry.2 !! i = Some u → at_distance R s i u.

Lemma entry_ok_step R s k v p w :
  entry_ok R s k (v, p) → R v w → at_distance R s (S k) w →
  entry_ok R s (S k) (w, w :: p).
Proof.
  intros (Hh & Hlen & (Hs & Hl & Hc) & Hd) Hr Hw. simpl in *.
  unfold entry_ok, path. simpl.
  split; [done|]. split; [simpl; by rewrite Hlen|]. split; [split; [|split]|].
  - clear -Hs. by destruct (rev p).
  - apply last_snoc.
  - apply last_Some in Hl as [l' Hl]. rewrite Hl, <- app_assoc.
    apply chain_snoc; [by rewrite <- Hl|done].
  - intros i u Hi. destruct (decide (i < length (rev p))%nat) as [Hlt|Hge].
    + rewrite lookup_app_l in Hi by done. by apply Hd.
    + rewrite lookup_app_r in Hi by lia.
      rewrite List.length_rev, Hlen in *.
      destruct (i - S k)%nat as [|j] eqn:Hj; [|done]. simpl in Hi.
      injection Hi as <-. by replace i with (S k) by lia.
Qed.

Lemma search_paths_path adj s target fuel k thislevel seen q :
  level_inv (adj_rel adj) s k (λ v, v ∈ thislevel.*1) seen →
  (∀ entry, entry ∈ thislevel → entry_ok (adj_rel adj) s k entry) →
  nx.search_paths adj target fuel thislevel seen = Some q →
  path (adj_rel adj) s target q ∧
  ∀ i u, q !! i = Some u → at_distance (adj_rel adj) s i u.
Proof.
  revert k thislevel seen.
  assert (∀ k thislevel p,
    (∀ entry, entry ∈ thislevel → entry_ok (adj_rel adj) s k entry) →
    ODict.get thislevel target = Some p →
    path (adj_rel adj) s target (rev p) ∧
    ∀ i u, rev p !! i = Some u → at_distance (adj_rel adj) s i u) as Hfound.
  { intros k thislevel p Hok Hget%odict_get_Some_elem.
    by destruct (Hok _ Hget) as (_ & _ & ? & ?). }
  induction fuel as [|fuel IH]; intros k thislevel seen Hinv Hok; simpl.
  - destruct (ODict.get thislevel target) as [p|] eqn:Hget; [|done].
    intros [= <-]. by eapply Hfound.
  - destruct (ODict.get thislevel target) as [p|] eqn:Hget.
    + intros [= <-]. by eapply Hfound.
    + destruct thislevel as [|entry rest] eqn:Hlevel; [done|].
      rewrite <- Hlevel in *. clear Hlevel entry rest.
      pose proof (sweep_paths_entries adj thislevel seen []) as Hent.
      destruct (sweep_paths_spec adj thislevel seen [])
        as (new & Heq & Hnew & _).
      rewrite Heq in Hent |- *. rewrite app_nil_l in Hent |- *.
      assert (level_inv (adj_rel adj) s (S k) (λ v, v ∈ new.*1)
                (seen ∪ list_to_set new.*1)) as Hinv'.
      { eapply level_inv_step; [exact Hinv|exact Hnew|].
        intros v. by rewrite elem_of_union, elem_of_list_to_set. }
      apply (IH (S k)); [done|].
      intros [w p'] Hin.
      destruct (Hent w p' Hin) as [H|(v & p & Hvp & Hw & ->)].
      { by apply elem_of_nil in H. }
      eapply entry_ok_step; [by apply Hok|done|].
      apply Hinv'. by apply (list_elem_of_fmap_2 fst) in Hin.
Qed.

Lemma find_shortest_path_path self source_id target_id p :
  find_shortest_path self source_id target_id = Some p →
  nx.contains (graph self) source_id = true ∧
  nx.contains (graph self) target_id = true ∧
  path (succ_rel (graph self)) source_id target_id p ∧
  ∀ i u, p !! i = Some u → at_distance (succ_rel (graph self)) source_id i u.
Proof.
  unfold find_shortest_path.
  destruct (nx.contains (graph self) source_id); [|done].
  destruct (nx.contains (graph self) target_id); [|done]. simpl.
  unfold nx.shortest_path.
  destruct (nx.search_paths _ _ _ _ _) as [q|] eqn:Hs; [|done].
  intros [= <-]. split; [done|]. split; [done|].
  eapply (search_paths_path _ source_id _ _ 0); [| |exact Hs].
  - destruct (level_inv_init (succ_rel (graph self)) source_id) as [H1 H2].
    split; [done|]. intros v. simpl. rewrite list_elem_of_singleton. apply H2.
  - intros entry ->%list_elem_of_singleton. split; [done|]. split; [done|].
    split.
    + split; [done|]. split; [done|constructor].
    + intros [|i] u; simpl; [|done]. intros [= <-]. by apply at_distance_0.
Qed.

(** X2.  A path that [find_shortest_path] returns is a directed path of
    the graph from the source to the target, it visits no node twice, and
    no directed path from the source to the target has fewer nodes. *)
Theorem find_shortest_path_is_shortest
    (self : KnowledgeGraph.t) (source_id target_id : string) (p : list string) :
  find_shortest_path self source_id target_id = Some p →
  path (succ_rel (graph self)) source_id target_id p ∧ NoDup p ∧
  ∀ q, path (succ_rel (graph self)) source_id target_id q →
       (length p ≤ length q)%nat.
Proof.
  intros (_ & _ & Hp & Hd)%find_shortest_path_path.
  split; [done|]. split.
  - apply NoDup_alt. intros i j u Hi%Hd Hj%Hd. by eapply at_distance_unique.
  - intros q Hq. pose proof (path_walk _ _ _ _ Hq) as Hw.
    destruct Hp as (_ & Hl & _). rewrite last_lookup in Hl. apply Hd in Hl.
    pose proof (at_distance_le_walk _ _ _ _ _ Hl Hw).
    destruct Hq as (Hh & _ & _). destruct q; [done|]. simpl in *. lia.
Qed.

(** X3.  [find_shortest_path] returns a path exactly when both nodes are
    in the graph and some directed path leads from the source to the
    target; otherwise it returns [None]. *)
Theorem find_shortest_path_returns_iff_reachable
    (self : KnowledgeGraph.t) (source_id target_id : string) :
  is_Some (find_shortest_path self source_id target_id)
  ↔ nx.contains (graph self) source_id = true ∧
    nx.contains (graph self) target_id = true ∧
    ∃ q, path (succ_rel (graph self)) source_id target_id q.
Proof.
  split.
  - intros [p (Hs & Ht & Hp & _)%find_shortest_path_path]. eauto.
  - intros (Hs & Ht & q & Hq). eapply find_shortest_path_complete; [done..|].
    by apply path_walk.
Qed.
End PathShape.

Lemma find_paths_simple_paths_witness :
  path (succ_rel (KnowledgeGraph.graph diamond)) "a" "c" ["a"; "b"; "c"].
Proof.
  apply (find_paths_simple_paths diamond "a" "c" 3 eq_refl eq_refl ltac:(done)).
  apply (bool_decide_unpack _). vm_compute. exact I.
Defined.

Lemma find_shortest_path_is_shortest_witness :
  NoDup ["a"; "c"].
Proof.
  apply (find_shortest_path_is_shortest diamond "a" "c" ["a"; "c"] eq_refl).
Defined.

(** ** build_graph: what a build keeps and counts *)

Section BuildFacts.
Import KnowledgeGraph.

(** X4.  The graph that a build leaves and the outcome of the build (the
    count or the exception) depend on the store and on [as_of] only:
    nothing of the graph that was there before the call survives, so a
    second build from the same store leaves the same graph. *)
Theorem build_graph_rebuilds_from_store
    (session : AsyncSession.t) (as_of : option Z) (utcnow utcnow' : Z)
    (self1 self2 : KnowledgeGraph.t) :
  graph (build_graph session as_of utcnow utcnow' self1).1
  = graph (build_graph session as_of utcnow utcnow' self2).1 ∧
  (build_graph session as_of utcnow utcnow' self1).2
  = (build_graph session as_of utcnow utcnow' self2).2.
Proof.
  destruct (AsyncSession.fails session Entities) as [e|] eqn:H1.
  { by rewrite !(build_graph_entities_fail _ _ _ _ _ e). }
  destruct (AsyncSession.fails session Relationships) as [e|] eqn:H2.
  { by rewrite !(build_graph_relationships_fail _ _ _ _ _ e). }
  by rewrite !build_graph_ok.
Qed.

Lemma add_entities_dom G entities :
  dom (nx._node (foldl add_entity G entities))
  = dom (nx._node G) ∪ list_to_set (Entity.id <$> entities).
Proof.
  revert G. induction entities as [|x l IH]; intros G; simpl.
  - set_solver.
  - rewrite IH. simpl. rewrite dom_insert_L. set_solver.
Qed.

Lemma add_relationships_dom G rels :
  dom (nx._node (foldl add_relationship G rels))
  = dom (nx._node G) ∪ list_to_set (endpoints rels).
Proof.
  apply set_eq. intros n.
  rewrite elem_of_union, elem_of_list_to_set, !elem_of_dom.
  rewrite add_relationships_lookup.
  destruct (nx._node G !! n) as [a|] eqn:Hn.
  - split; [intros _; left; by eexists|by eexists].
  - destruct (decide (n ∈ endpoints rels)) as [Hin|Hnin].
    + split; [by right|by eexists].
    + split; [by intros [? ?]|]. intros [[? ?]|?]; done.
Qed.

Lemma built_graph_dom session as_of :
  dom (nx._node (built_graph session as_of))
  = list_to_set (Entity.id <$> valid_entities session as_of)
    ∪ list_to_set (endpoints (valid_relationships session as_of)).
Proof.
  unfold built_graph. rewrite add_relationships_dom, add_entities_dom.
  simpl. set_solver.
Qed.

Lemma build_graph_returns session as_of utcnow utcnow' self self' count :
  build_graph session as_of utcnow utcnow' self = (self', Ok count) →
  graph self' = built_graph session (default utcnow as_of) ∧
  _last_refresh self' = Some utcnow' ∧
  count = nx.number_of_nodes (built_graph session (default utcnow as_of)).
Proof.
  destruct (AsyncSession.fails session Entities) as [e|] eqn:H1.
  { by rewrite (build_graph_entities_fail _ _ _ _ _ e). }
  destruct (AsyncSession.fails session Relationships) as [e|] eqn:H2.
  { by rewrite (build_graph_relationships_fail _ _ _ _ _ e). }
  rewrite build_graph_ok by done. by intros [= <- <-].
Qed.

(** X5.  The number that a successful build returns is the number of
    distinct ids among the entities that are valid at [as_of] and the end
    points of the relationships that are valid then.  With entity ids as
    the primary key it is at least the number of valid entities, and equal
    to it when every end point of a valid relationship is a valid
    entity. *)
Theorem build_graph_counts_nodes
    (session : AsyncSession.t) (as_of : option Z) (utcnow utcnow' : Z)
    (self self' : KnowledgeGraph.t) (count : Z) :
  build_graph session as_of utcnow utcnow' self = (self', Ok count) →
  let t := default utcnow as_of in
  let ids : gset string := list_to_set (Entity.id <$> valid_entities session t) in
  let ends : gset string := list_to_set (endpoints (valid_relationships session t)) in
  count = Z.of_nat (size (ids ∪ ends)) ∧
  (NoDup (Entity.id <$> AsyncSession.entities session) →
   (Z.of_nat (length (valid_entities session t)) ≤ count)%Z ∧
   (ends ⊆ ids → count = Z.of_nat (length (valid_entities session t)))).
Proof.
  intros (_ & _ & ->)%build_graph_returns t ids ends.
  unfold nx.number_of_nodes. rewrite <- size_dom, built_graph_dom.
  fold t ids ends. split; [done|]. intros Hnd.
  assert (size ids = length (valid_entities session t)) as Hsize.
  { unfold ids. rewrite size_list_to_set, length_fmap; [done|].
    unfold valid_entities. eapply sublist_NoDup; [exact Hnd|].
    apply fmap_sublist, sublist_filter. }
  split.
  - rewrite <- Hsize. apply inj_le, subseteq_size. set_solver.
  - intros Hsub. rewrite <- Hsize. f_equal. f_equal. set_solver.
Qed.
End BuildFacts.

Lemma build_graph_counts_nodes_witness :
  2%Z = Z.of_nat (size (list_to_set (Entity.id <$> valid_entities store_e1_e2 5)
                        ∪ list_to_set (endpoints (valid_relationships store_e1_e2 5))
                        : gset string)).
Proof.
  apply (build_graph_counts_nodes store_e1_e2 (Some 5%Z) 0 0
           KnowledgeGraph.__init__
           (KnowledgeGraph.build_graph store_e1_e2 (Some 5%Z) 0 0
              KnowledgeGraph.__init__).1 2 eq_refl).
Defined.

(** ** Loops that may raise *)

Section MapM.
Context {A B : Type} (f : A → result B).

Lemma mapM_Ok_inv l ys :
  mapM f l = Ok ys → Forall2 (λ x y, f x = Ok y) l ys.
Proof.
  revert ys. induction l as [|x l IH]; intros ys; simpl.
  - intros [= <-]. constructor.
  - destruct (f x) as [y|e] eqn:Hx; simpl; [|done].
    destruct (mapM f l) as [ys'|e] eqn:Hl; simpl; [|done].
    intros [= <-]. constructor; [done|]. by apply IH.
Qed.

Lemma mapM_Raise_inv l e : mapM f l = Raise e → ∃ x, x ∈ l ∧ f x = Raise e.
Proof.
  induction l as [|x l IH]; simpl; [done|].
  destruct (f x) as [y|e'] eqn:Hx; simpl.
  - destruct (mapM f l) as [ys'|e'] eqn:Hl; simpl; [done|].
    intros [= <-]. destruct IH as (x' & Hin & Hx'); [done|].
    exists x'. split; [by apply list_elem_of_further|done].
  - intros [= <-]. exists x. split; [apply list_elem_of_here|done].
Qed.

Lemma mapM_Ok_elem l ys x :
  mapM f l = Ok ys → x ∈ l → ∃ y, y ∈ ys ∧ f x = Ok y.
Proof.
  intros H%mapM_Ok_inv Hx. induction H as [|x' y' l' ys' Hxy H IH].
  - by apply elem_of_nil in Hx.
  - apply elem_of_cons in Hx as [->|Hx].
    + exists y'. split; [apply list_elem_of_here|done].
    + destruct (IH Hx) as (y & Hy & Hfy). exists y.
      split; [by apply list_elem_of_further|done].
Qed.

Lemma mapM_Ok l :
  (∀ x, x ∈ l → ∃ y, f x = Ok y) → ∃ ys, mapM f l = Ok ys.
Proof.
  intros H. destruct (mapM f l) as [ys|e] eqn:Hl; [by eexists|].
  apply mapM_Raise_inv in Hl as (x & Hin & Hx).
  destruct (H x Hin) as [y Hy]. congruence.
Qed.
End MapM.

Lemma flat_map_filter_key_perm {A : Type} (key : A → string) (l : list A)
    (ks : list string) :
  NoDup ks → (∀ x, x ∈ l → key x ∈ ks) →
  flat_map (λ k, filter (λ x, key x = k) l) ks ≡ₚ l.
Proof.
  intros Hnd. induction l as [|r rs IH]; intros Hks.
  - clear. induction ks as [|k ks IHk]; simpl; [done|]. exact IHk.
  - assert (key r ∈ ks) as Hin by (apply Hks, list_elem_of_here).
    apply list_elem_of_split in Hin as (k1 & k2 & ->).
    apply NoDup_app in Hnd as Hnd'. destruct Hnd' as (_ & Hk1 & Hk2).
    apply NoDup_cons in Hk2 as [Hk2 _].
    assert (∀ ks', key r ∉ ks' →
       flat_map (λ k, filter (λ x, key x = k) (r :: rs)) ks'
       = flat_map (λ k, filter (λ x, key x = k) rs) ks') as Hsame.
    { intros ks' Hn. induction ks' as [|k ks' IHk]; simpl; [done|].
      apply not_elem_of_cons in Hn as [Hne Hn].
      rewrite filter_cons, decide_False by done. by rewrite IHk. }
    rewrite flat_map_app. simpl. rewrite filter_cons, decide_True by done.
    rewrite !Hsame.
    + assert (flat_map (λ k, filter (λ x, key x = k) rs) (k1 ++ key r :: k2) ≡ₚ rs)
        as Hrs.
      { apply IH. intros r' Hr'. by apply Hks, list_elem_of_further. }
      rewrite flat_map_app in Hrs. simpl in Hrs.
      rewrite <- Hrs at 2. simpl.
      by rewrite <- Permutation_middle.
    + done.
    + intros Hn. apply (Hk1 _ Hn). apply list_elem_of_here.
Qed.

Lemma fmap_flat_map {A B C : Type} (g : B → C) (f : A → list B) (l : list A) :
  g <$> flat_map f l = flat_map (λ x, g <$> f x) l.
Proof.
  induction l as [|x l IH]; simpl; [done|]. by rewrite fmap_app, IH.
Qed.

(** ** get_entity_context *)

Section ContextFacts.
Import KnowledgeGraph.

Lemma predecessors_spec G v w :
  w ∈ nx.predecessors G v ↔ ∃ e, e ∈ nx._edges G ∧ Edge.u e = w ∧ Edge.v e = v.
Proof.
  unfold nx.predecessors. rewrite unique_first_elem, list_elem_of_fmap. split.
  - intros (e & -> & [Hu He]%list_elem_of_filter). eauto.
  - intros (e & He & Hu & Hv). exists e. split; [done|].
    by apply list_elem_of_filter.
Qed.

(** What the context keeps of an edge: the node at its other end, its type,
    its confidence and its properties. *)
Definition edge_view (other : string) (data : EdgeAttrs.t)
    : string * string * Q * gmap string PyVal :=
  (other, EdgeAttrs.relationship_type data, EdgeAttrs.confidence data,
   EdgeAttrs.properties data).

Definition outgoing_view (o : OutgoingRelationship.t)
    : string * string * Q * gmap string PyVal :=
  (OutgoingRelationship.target_id o, OutgoingRelationship.relationship_type o,
   OutgoingRelationship.confidence o, OutgoingRelationship.properties o).

Definition incoming_view (i : IncomingRelationship.t)
    : string * string * Q * gmap string PyVal :=
  (IncomingRelationship.source_id i, IncomingRelationship.relationship_type i,
   IncomingRelationship.confidence i, IncomingRelationship.properties i).

Lemma outgoing_items_perm G n :
  (λ item : string * (string * EdgeAttrs.t), edge_view item.1 item.2.2)
    <$> outgoing_items G n
  ≡ₚ (λ e, edge_view (Edge.v e) (Edge.data e))
       <$> filter (λ e, Edge.u e = n) (nx._edges G).
Proof.
  transitivity ((λ e, edge_view (Edge.v e) (Edge.data e))
    <$> flat_map (λ k, filter (λ e, Edge.v e = k)
                         (filter (λ e, Edge.u e = n) (nx._edges G)))
          (nx.successors G n)).
  - apply reflexive_eq. unfold outgoing_items. rewrite !fmap_flat_map.
    apply flat_map_ext. intros w.
    unfold nx.get_edge_data. rewrite <- !list_fmap_compose.
    rewrite list_filter_filter.
    transitivity ((λ e, edge_view (Edge.v e) (Edge.data e))
                    <$> filter (λ e, Edge.u e = n ∧ Edge.v e = w) (nx._edges G)).
    + apply Forall_fmap_ext_1, Forall_forall.
      intros e [[_ <-] _]%list_elem_of_filter. done.
    + f_equal. apply list_filter_iff. tauto.
  - apply fmap_Permutation, flat_map_filter_key_perm.
    + apply unique_first_NoDup.
    + intros e [Hu He]%list_elem_of_filter. apply successors_spec. eauto.
Qed.

Lemma incoming_items_perm G n :
  (λ item : string * (string * EdgeAttrs.t), edge_view item.1 item.2.2)
    <$> incoming_items G n
  ≡ₚ (λ e, edge_view (Edge.u e) (Edge.data e))
       <$> filter (λ e, Edge.v e = n) (nx._edges G).
Proof.
  transitivity ((λ e, edge_view (Edge.u e) (Edge.data e))
    <$> flat_map (λ k, filter (λ e, Edge.u e = k)
                         (filter (λ e, Edge.v e = n) (nx._edges G)))
          (nx.predecessors G n)).
  - apply reflexive_eq. unfold incoming_items. rewrite !fmap_flat_map.
    apply flat_map_ext. intros w.
    unfold nx.get_edge_data. rewrite <- !list_fmap_compose.
    rewrite list_filter_filter.
    transitivity ((λ e, edge_view (Edge.u e) (Edge.data e))
                    <$> filter (λ e, Edge.u e = w ∧ Edge.v e = n) (nx._edges G)).
    + apply Forall_fmap_ext_1, Forall_forall.
      intros e [[<- _] _]%list_elem_of_filter. done.
    + done.
  - apply fmap_Permutation, flat_map_filter_key_perm.
    + apply unique_first_NoDup.
    + intros e [Hu He]%list_elem_of_filter. apply predecessors_spec. eauto.
Qed.

Lemma outgoing_items_elem G n item :
  item ∈ outgoing_items G n → item.1 ∈ nx.successors G n.
Proof.
  unfold outgoing_items. rewrite list_elem_of_In, in_flat_map.
  intros (w & Hw%list_elem_of_In & (kd & -> & _)%list_elem_of_In%list_elem_of_fmap).
  done.
Qed.

Lemma incoming_items_elem G n item :
  item ∈ incoming_items G n → item.1 ∈ nx.predecessors G n.
Proof.
  unfold incoming_items. rewrite list_elem_of_In, in_flat_map.
  intros (w & Hw%list_elem_of_In & (kd & -> & _)%list_elem_of_In%list_elem_of_fmap).
  done.
Qed.

Lemma successor_outgoing_item G n w :
  w ∈ nx.successors G n → ∃ kd, (w, kd) ∈ outgoing_items G n.
Proof.
  intros Hw. pose proof Hw as (e & He & Hu & Hv)%successors_spec.
  exists (Edge.key e, Edge.data e).
  unfold outgoing_items. apply list_elem_of_In, in_flat_map. exists w.
  split; [by apply list_elem_of_In|]. apply list_elem_of_In.
  apply list_elem_of_fmap_2.
  apply (list_elem_of_fmap_2 (λ e, (Edge.key e, Edge.data e))).
  by apply list_elem_of_filter.
Qed.

Lemma predecessor_incoming_item G n w :
  w ∈ nx.predecessors G n → ∃ kd, (w, kd) ∈ incoming_items G n.
Proof.
  intros Hw. pose proof Hw as (e & He & Hu & Hv)%predecessors_spec.
  exists (Edge.key e, Edge.data e).
  unfold incoming_items. apply list_elem_of_In, in_flat_map. exists w.
  split; [by apply list_elem_of_In|]. apply list_elem_of_In.
  apply list_elem_of_fmap_2.
  apply (list_elem_of_fmap_2 (λ e, (Edge.key e, Edge.data e))).
  by apply list_elem_of_filter.
Qed.

Lemma outgoing_relationship_Ok G item o :
  outgoing_relationship G item = Ok o →
  outgoing_view o = edge_view item.1 item.2.2 ∧
  NodeAttrs.name <$> nx.node_data G item.1 = Some (OutgoingRelationship.target_name o).
Proof.
  destruct item as [w [k d]]. unfold outgoing_relationship, node_name. simpl.
  destruct (nx.node_data G w) as [a|]; simpl; [|done]. by intros [= <-].
Qed.

Lemma incoming_relationship_Ok G item i :
  incoming_relationship G item = Ok i →
  incoming_view i = edge_view item.1 item.2.2 ∧
  NodeAttrs.name <$> nx.node_data G item.1 = Some (IncomingRelationship.source_name i).
Proof.
  destruct item as [w [k d]]. unfold incoming_relationship, node_name. simpl.
  destruct (nx.node_data G w) as [a|]; simpl; [|done]. by intros [= <-].
Qed.

Lemma outgoing_relationship_Raise G item e :
  outgoing_relationship G item = Raise e ↔
  nx.node_data G item.1 = None ∧ e = "KeyError: 'name'".
Proof.
  destruct item as [w [k d]]. unfold outgoing_relationship, node_name. simpl.
  destruct (nx.node_data G w) as [a|]; simpl.
  - split; [done|]. by intros [? _].
  - split; [by intros [= <-]|]. by intros [_ ->].
Qed.

Lemma incoming_relationship_Raise G item e :
  incoming_relationship G item = Raise e ↔
  nx.node_data G item.1 = None ∧ e = "KeyError: 'name'".
Proof.
  destruct item as [w [k d]]. unfold incoming_relationship, node_name. simpl.
  destruct (nx.node_data G w) as [a|]; simpl.
  - split; [done|]. by intros [? _].
  - split; [by intros [= <-]|]. by intros [_ ->].
Qed.

(** The node at the other end of some edge at [n] has no attributes. *)
Definition bare_neighbor (G : nx.MultiDiGraph) (n : string) : Prop :=
  ∃ w, (w ∈ nx.successors G n ∨ w ∈ nx.predecessors G n) ∧ nx.node_data G w = None.

Lemma get_entity_context_present self entity_id depth :
  nx.contains (graph self) entity_id = true →
  get_entity_context self entity_id depth
  = (out_edges ← mapM (outgoing_relationship (graph self))
       (outgoing_items (graph self) entity_id);
     in_edges ← mapM (incoming_relationship (graph self))
       (incoming_items (graph self) entity_id);
     mret (Some
       {| EntityContext.entity := nx.node_data (graph self) entity_id;
          EntityContext.neighbors := get_neighbors self entity_id depth None;
          EntityContext.outgoing_relationships := out_edges;
          EntityContext.incoming_relationships := in_edges;
          EntityContext.out_degree := nx.out_degree (graph self) entity_id;
          EntityContext.in_degree := nx.in_degree (graph self) entity_id;
          EntityContext.total_degree := nx.degree (graph self) entity_id |})).
Proof. intros H. unfold get_entity_context. by rewrite H. Qed.

Lemma get_entity_context_raises self entity_id depth :
  nx.contains (graph self) entity_id = true →
  (∃ e, get_entity_context self entity_id depth = Raise e)
  ↔ bare_neighbor (graph self) entity_id.
Proof.
  intros Hin. rewrite get_entity_context_present by done. split.
  - intros [e He].
    destruct (mapM _ (outgoing_items _ _)) as [outs|e1] eqn:Ho; simpl in He.
    + destruct (mapM _ (incoming_items _ _)) as [ins|e2] eqn:Hi; simpl in He;
        [done|].
      apply mapM_Raise_inv in Hi as (item & Hitem & [Hn _]%incoming_relationship_Raise).
      exists item.1. split; [|done]. right. by apply incoming_items_elem.
    + apply mapM_Raise_inv in Ho as (item & Hitem & [Hn _]%outgoing_relationship_Raise).
      exists item.1. split; [|done]. left. by apply outgoing_items_elem.
  - intros (w & Hw & Hn).
    destruct (mapM _ (outgoing_items _ _)) as [outs|e1] eqn:Ho; simpl;
      [|by eexists].
    destruct (mapM _ (incoming_items _ _)) as [ins|e2] eqn:Hi; simpl;
      [|by eexists].

    exfalso. destruct Hw as [Hw|Hw].
    + apply successor_outgoing_item in Hw as [kd Hitem].
      destruct (mapM_Ok_elem _ _ _ _ Ho Hitem) as (o & _ & Hok).
      apply outgoing_relationship_Ok in Hok as [_ Hname]. simpl in Hname.
      by rewrite Hn in Hname.
    + apply predecessor_incoming_item in Hw as [kd Hitem].
      destruct (mapM_Ok_elem _ _ _ _ Hi Hitem) as (o & _ & Hok).
      apply incoming_relationship_Ok in Hok as [_ Hname]. simpl in Hname.
      by rewrite Hn in Hname.
Qed.

(** X6.  [get_entity_context] returns the empty dictionary for an entity
    that is not in the graph.  For an entity of the graph it raises exactly
    when the node at the other end of one of its edges has no attributes (a
    node that [add_edge] created): the exception is then the [KeyError] of
    the lookup of its name; otherwise the context is returned. *)
Theorem get_entity_context_key_error
    (self : KnowledgeGraph.t) (entity_id : string) (depth : Z) :
  (nx.contains (graph self) entity_id = false →
   get_entity_context self entity_id depth = Ok None) ∧
  (nx.contains (graph self) entity_id = true →
   ((∃ e, get_entity_context self entity_id depth = Raise e)
    ↔ bare_neighbor (graph self) entity_id) ∧
   (∀ e, get_entity_context self entity_id depth = Raise e →
         e = "KeyError: 'name'") ∧
   (¬ bare_neighbor (graph self) entity_id →
    ∃ ctx, get_entity_context self entity_id depth = Ok (Some ctx))).
Proof.
  split.
  { intros H. unfold get_entity_context. by rewrite H. }
  intros Hin. split; [by apply get_entity_context_raises|]. split.
  - intros e. rewrite get_entity_context_present by done.
    destruct (mapM _ (outgoing_items _ _)) as [outs|e1] eqn:Ho; simpl.
    + destruct (mapM _ (incoming_items _ _)) as [ins|e2] eqn:Hi; simpl; [done|].
      intros [= <-].
      by apply mapM_Raise_inv in Hi as (item & _ & [_ ?]%incoming_relationship_Raise).
    + intros [= <-].
      by apply mapM_Raise_inv in Ho as (item & _ & [_ ?]%outgoing_relationship_Raise).
  - intros Hbare.
    destruct (get_entity_context self entity_id depth) as [[ctx|]|e] eqn:Hc.
    + by eexists.
    + rewrite get_entity_context_present in Hc by done.
      destruct (mapM _ (outgoing_items _ _)); simpl in Hc; [|done].
      by destruct (mapM _ (incoming_items _ _)).
    + destruct Hbare. apply (get_entity_context_raises self entity_id depth Hin).
      by eexists.
Qed.

Lemma Forall2_fmap_eq {A B C : Type} (g : A → C) (h : B → C) l k :
  Forall2 (λ x y, h y = g x) l k → h <$> k = g <$> l.
Proof.
  induction 1 as [|x y l k Hxy _ IH]; [done|]. rewrite !fmap_cons. by f_equal.
Qed.

(** X7.  In a context that [get_entity_context] returns, every edge that
    leaves the entity is listed once among the outgoing relationships,
    with its target, type, confidence and properties, and every edge that
    enters it once among the incoming ones; the names are those of the
    nodes at the other end; and the three degrees are the two lengths and
    their sum. *)
Theorem get_entity_context_lists_every_edge
    (self : KnowledgeGraph.t) (entity_id : string) (depth : Z)
    (ctx : EntityContext.t) :
  get_entity_context self entity_id depth = Ok (Some ctx) →
  outgoing_view <$> EntityContext.outgoing_relationships ctx
  ≡ₚ (λ e, edge_view (Edge.v e) (Edge.data e))
       <$> filter (λ e, Edge.u e = entity_id) (nx._edges (graph self)) ∧
  incoming_view <$> EntityContext.incoming_relationships ctx
  ≡ₚ (λ e, edge_view (Edge.u e) (Edge.data e))
       <$> filter (λ e, Edge.v e = entity_id) (nx._edges (graph self)) ∧
  (∀ o, o ∈ EntityContext.outgoing_relationships ctx →
        NodeAttrs.name <$> nx.node_data (graph self) (OutgoingRelationship.target_id o)
        = Some (OutgoingRelationship.target_name o)) ∧
  (∀ i, i ∈ EntityContext.incoming_relationships ctx →
        NodeAttrs.name <$> nx.node_data (graph self) (IncomingRelationship.source_id i)
        = Some (IncomingRelationship.source_name i)) ∧
  EntityContext.out_degree ctx = length (EntityContext.outgoing_relationships ctx) ∧
  EntityContext.in_degree ctx = length (EntityContext.incoming_relationships ctx) ∧
  EntityContext.total_degree ctx
  = (EntityContext.in_degree ctx + EntityContext.out_degree ctx)%nat.
Proof.
  unfold get_entity_context.
  destruct (nx.contains (graph self) entity_id); simpl; [|done].
  destruct (mapM _ (outgoing_items _ _)) as [outs|e1] eqn:Ho; simpl; [|done].
  destruct (mapM _ (incoming_items _ _)) as [ins|e2] eqn:Hi; simpl; [|done].
  intros [= <-]. simpl.
  apply mapM_Ok_inv in Ho, Hi.
  assert (outgoing_view <$> outs
          = (λ item : string * (string * EdgeAttrs.t), edge_view item.1 item.2.2)
              <$> outgoing_items (graph self) entity_id) as Houts.
  { apply Forall2_fmap_eq. eapply Forall2_impl; [exact Ho|].
    intros item o Hok. by apply outgoing_relationship_Ok in Hok as [? _]. }
  assert (incoming_view <$> ins
          = (λ item : string * (string * EdgeAttrs.t), edge_view item.1 item.2.2)
              <$> incoming_items (graph self) entity_id) as Hins.
  { apply Forall2_fmap_eq. eapply Forall2_impl; [exact Hi|].
    intros item o Hok. by apply incoming_relationship_Ok in Hok as [? _]. }
  pose proof (outgoing_items_perm (graph self) entity_id) as Hpo.
  pose proof (incoming_items_perm (graph self) entity_id) as Hpi.
  rewrite <- Houts in Hpo. rewrite <- Hins in Hpi.
  split; [done|]. split; [done|]. split; [|split]; [| |split; [|split]].
  - intros o Ho'. apply list_elem_of_lookup in Ho' as [j Hj].
    destruct (Forall2_lookup_r _ _ _ _ _ Ho Hj) as (item & _ & Hok).
    apply outgoing_relationship_Ok in Hok as [Hv Hname].
    unfold outgoing_view, edge_view in Hv. injection Hv as Hid _ _ _.
    by rewrite Hid.
  - intros o Hi'. apply list_elem_of_lookup in Hi' as [j Hj].
    destruct (Forall2_lookup_r _ _ _ _ _ Hi Hj) as (item & _ & Hok).
    apply incoming_relationship_Ok in Hok as [Hv Hname].
    unfold incoming_view, edge_view in Hv. injection Hv as Hid _ _ _.
    by rewrite Hid.
  - unfold nx.out_degree. apply Permutation_length in Hpo.
    by rewrite !length_fmap in Hpo.
  - unfold nx.in_degree. apply Permutation_length in Hpi.
    by rewrite !length_fmap in Hpi.
  - done.
Qed.

(** *** After a build *)

Lemma built_graph_edges session as_of u v :
  (∃ e, e ∈ nx._edges (built_graph session as_of) ∧ Edge.u e = u ∧ Edge.v e = v)
  ↔ ∃ rel, rel ∈ valid_relationships session as_of ∧
      Relationship.source_entity_id rel = u ∧
      Relationship.target_entity_id rel = v.
Proof.
  split.
  - intros (e & He & <- & <-).
    assert (edge_id e ∈ edge_id <$> nx._edges (built_graph session as_of)) as Hid
      by (by apply list_elem_of_fmap_2).
    unfold built_graph in Hid. rewrite add_relationships_edge_ids in Hid.
    rewrite add_entities_edges in Hid. simpl in Hid.
    destruct Hid as [Hid|Hid]; [by apply elem_of_nil in Hid|].
    apply list_elem_of_fmap in Hid as (rel & Heq & Hrel).
    exists rel. unfold edge_id, relationship_edge_id in Heq.
    injection Heq as -> -> _. done.
  - intros (rel & Hrel & <- & <-).
    assert (relationship_edge_id rel
            ∈ edge_id <$> nx._edges (built_graph session as_of)) as Hid.
    { unfold built_graph. rewrite add_relationships_edge_ids. right.
      by apply list_elem_of_fmap_2. }
    apply list_elem_of_fmap in Hid as (e & Heq & He).
    exists e. unfold edge_id, relationship_edge_id in Heq.
    injection Heq as -> -> _. done.
Qed.

Lemma add_entities_lookup_some G entities n :
  n ∈ Entity.id <$> entities →
  ∃ attrs, nx._node (foldl add_entity G entities) !! n = Some (Some attrs).
Proof.
  revert G. induction entities as [|x l IH]; intros G Hn; simpl.
  - by apply elem_of_nil in Hn.
  - destruct (decide (n ∈ Entity.id <$> l)) as [Hin|Hnin]; [by apply IH|].
    rewrite fmap_cons in Hn. apply elem_of_cons in Hn as [->|?]; [|done].
    rewrite add_entities_lookup_notin by done. simpl.
    rewrite lookup_insert_eq. by eexists.
Qed.

Lemma built_graph_node_data session as_of n :
  nx.node_data (built_graph session as_of) n = None
  ↔ n ∉ Entity.id <$> valid_entities session as_of.
Proof.
  unfold nx.node_data, built_graph. rewrite add_relationships_lookup.
  destruct (decide (n ∈ Entity.id <$> valid_entities session as_of)) as [Hin|Hnin].
  - destruct (add_entities_lookup_some nx.empty _ _ Hin) as [attrs ->]. simpl.
    split; [done|]. by intros [].
  - rewrite add_entities_lookup_notin by done. simpl. rewrite lookup_empty.
    split; [done|]. intros _. by destruct (decide _).
Qed.

(** X8.  After a successful build, [get_entity_context] of a node raises
    exactly when a relationship that is valid at the time of the build
    joins the node to an id that is not the id of an entity valid at that
    time. *)
Theorem build_graph_context_raises_iff
    (session : AsyncSession.t) (as_of : option Z) (utcnow utcnow' : Z)
    (self self' : KnowledgeGraph.t) (count : Z) (entity_id : string) (depth : Z) :
  build_graph session as_of utcnow utcnow' self = (self', Ok count) →
  nx.contains (graph self') entity_id = true →
  let t := default utcnow as_of in
  (∃ e, get_entity_context self' entity_id depth = Raise e)
  ↔ ∃ rel other, rel ∈ valid_relationships session t ∧
      ((Relationship.source_entity_id rel = entity_id ∧
        Relationship.target_entity_id rel = other) ∨
       (Relationship.target_entity_id rel = entity_id ∧
        Relationship.source_entity_id rel = other)) ∧
      other ∉ Entity.id <$> valid_entities session t.
Proof.
  intros (HG & _)%build_graph_returns Hin t.
  rewrite get_entity_context_raises by done. unfold bare_neighbor.
  rewrite HG. fold t. split.
  - intros (w & Hw & Hn%built_graph_node_data).
    destruct Hw as [Hw%successors_spec|Hw%predecessors_spec].
    + apply built_graph_edges in Hw as (rel & Hrel & Hs & Ht).
      exists rel, w. split; [done|]. split; [by left|done].
    + apply built_graph_edges in Hw as (rel & Hrel & Hs & Ht).
      exists rel, w. split; [done|]. split; [by right|done].
  - intros (rel & w & Hrel & Hends & Hn%built_graph_node_data).
    exists w. split; [|done]. destruct Hends as [[Hs Ht]|[Ht Hs]].
    + left. apply successors_spec, built_graph_edges. eauto.
    + right. apply predecessors_spec, built_graph_edges. eauto.
Qed.
End ContextFacts.

(** ** get_neighbors: the shape of the dictionary *)

Section BucketFacts.
Import KnowledgeGraph.

(** A bucket of the dictionary, for a level from 1 to below [hi]. *)
Definition bucket_ok (G : nx.MultiDiGraph) (hi : nat) (key : string)
    (l : list (string * option NodeAttrs.t)) : Prop :=
  l ≠ [] ∧ NoDup l.*1 ∧ (∀ r, r ∈ l → r.2 = nx.node_data G r.1) ∧
  ∃ k, key = depth_key k ∧ (1 ≤ k < hi)%nat.

Lemma bucket_ok_mono G hi hi' key l :
  (hi ≤ hi')%nat → bucket_ok G hi key l → bucket_ok G hi' key l.
Proof.
  intros Hle (H1 & H2 & H3 & k & H4 & H5).
  split; [done|]. split; [done|]. split; [done|]. exists k. split; [done|lia].
Qed.

Lemma levels_loop_buckets G relationship_types n level current visited buckets :
  (1 ≤ level)%nat →
  (∀ key l, buckets !! key = Some l → bucket_ok G level key l) →
  ∀ key l,
    levels_loop G relationship_types n level current visited buckets !! key = Some l →
    bucket_ok G (level + n) key l.
Proof.
  revert level current visited buckets.
  induction n as [|n IH]; intros level current visited buckets Hlevel Hok key l;
    simpl.
  - rewrite Nat.add_0_r. apply Hok.
  - destruct (expand_level G relationship_types current visited)
      as [next visited'].
    replace (level + S n)%nat with (S level + n)%nat by lia.
    apply IH; [lia|]. clear key l. intros key l.
    destruct (decide (next = ∅)) as [Hempty|Hne].
    { intros H. eapply bucket_ok_mono; [|by apply Hok]. lia. }
    destruct (decide (key = depth_key level)) as [->|Hkey].
    + rewrite lookup_insert_eq. intros [= <-]. split; [|split; [|split]].
      * intros Hnil. apply fmap_nil_inv in Hnil.
        by apply elements_empty_inv, leibniz_equiv in Hnil.
      * assert (∀ ids, (neighbor_record G <$> ids).*1 = ids) as ->.
        { intros ids. induction ids as [|x ids IHids]; [done|].
          rewrite !fmap_cons. simpl. by f_equal. }
        apply NoDup_elements.
      * by intros r (nid & -> & _)%list_elem_of_fmap.
      * exists level. split; [done|lia].
    + rewrite lookup_insert_ne by done.
      intros H. eapply bucket_ok_mono; [|by apply Hok]. lia.
Qed.

(** X9.  Every entry of the dictionary that [get_neighbors] returns has a
    key [depth_k] with [1 <= k <= depth] and a list that is not empty, has
    no node twice and gives each node with its attributes in the graph;
    and the keys are consecutive: when [depth_(k+1)] is present, so is
    [depth_k]. *)
Theorem get_neighbors_buckets
    (self : KnowledgeGraph.t) (entity_id : string) (depth : Z)
    (relationship_types : option (list string)) :
  let buckets := get_neighbors self entity_id depth relationship_types in
  (∀ key l, buckets !! key = Some l →
     l ≠ [] ∧ NoDup l.*1 ∧
     (∀ r, r ∈ l → r.2 = nx.node_data (graph self) r.1) ∧
     ∃ k, key = depth_key k ∧ (1 ≤ k)%nat ∧ (Z.of_nat k ≤ depth)%Z) ∧
  (∀ k, (1 ≤ k)%nat → is_Some (buckets !! depth_key (S k)) →
        is_Some (buckets !! depth_key k)).
Proof.
  intros buckets. assert (∀ key l, buckets !! key = Some l →
    bucket_ok (graph self) (1 + Z.to_nat depth) key l) as Hok.
  { unfold buckets, get_neighbors.
    destruct (nx.contains (graph self) entity_id); simpl; [|done].
    apply levels_loop_buckets; [done|]. intros key l. by rewrite lookup_empty. }
  split.
  - intros key l (H1 & H2 & H3 & k & H4 & H5)%Hok.
    split; [done|]. split; [done|]. split; [done|]. exists k.
    split; [done|]. lia.
  - intros k Hk [l Hl]. pose proof (Hok _ _ Hl) as (Hne & _ & _ & k' & Hk' & Hle).
    apply depth_key_inj in Hk' as <-.
    unfold buckets, get_neighbors in Hl |- *.
    destruct (nx.contains (graph self) entity_id); simpl in *; [|done].
    set (R := directed_edge (graph self) relationship_types).
    assert (∀ j w, (1 ≤ j)%nat →
      w ∈ bucket_ids (levels_loop (graph self) relationship_types
                        (Z.to_nat depth) 1 {[entity_id]} {[entity_id]} ∅) j
      ↔ (j ≤ Z.to_nat depth)%nat ∧ at_distance R entity_id j w) as Hmain.
    { intros j w Hj.
      rewrite (levels_loop_spec _ _ entity_id _ 0); [done| | |lia].
      - destruct (level_inv_init R entity_id) as [H1 H2]. split; [done|].
        intros v. rewrite elem_of_singleton. apply H2.
      - intros j' _. unfold bucket_ids. by rewrite lookup_empty. }
    destruct l as [|[w a] l]; [done|].
    assert (w ∈ bucket_ids (levels_loop (graph self) relationship_types
                              (Z.to_nat depth) 1 {[entity_id]} {[entity_id]} ∅)
                   (S k)) as Hw.
    { unfold bucket_ids. rewrite Hl. simpl. apply list_elem_of_here. }
    apply Hmain in Hw as [_ Hw]; [|lia].
    destruct (at_distance_prefix R entity_id k (S k) w) as (v & Hv); [lia|done|].
    assert (v ∈ bucket_ids (levels_loop (graph self) relationship_types
                              (Z.to_nat depth) 1 {[entity_id]} {[entity_id]} ∅) k)
      as Hvk by (apply Hmain; [done|split; [lia|done]]).
    unfold bucket_ids in Hvk.
    destruct (_ !! depth_key k) as [lk|]; [by eexists|].
    by apply elem_of_nil in Hvk.
Qed.
End BucketFacts.

(** ** search: modes, ranking and the graph strategy *)

Lemma StronglySorted_sublist {A : Type} (R : relation A) (l1 l2 : list A) :
  l1 `sublist_of` l2 → StronglySorted R l2 → StronglySorted R l1.
Proof.
  induction 1 as [|x l1 l2 Hsub IH|x l1 l2 Hsub IH]; intros Hs.
  - constructor.
  - apply StronglySorted_cons in Hs as [Hx Hs]. constructor; [by apply IH|].
    apply Forall_forall. intros y Hy. eapply Forall_forall; [exact Hx|].
    by eapply elem_of_sublist.
  - apply StronglySorted_cons in Hs as [_ Hs]. by apply IH.
Qed.

Lemma filter_all {A : Type} (P : A → Prop) `{∀ x, Decision (P x)} (l : list A) :
  (∀ x, x ∈ l → P x) → filter P l = l.
Proof.
  induction l as [|x l IH]; intros Hl; [done|].
  rewrite filter_cons_True by (apply Hl, list_elem_of_here).
  f_equal. apply IH. intros y Hy. by apply Hl, list_elem_of_further.
Qed.

Section ModeFacts.
Import HybridSearch.
Context (lower : string → string) (isoformat : Z → string).

Lemma keyword_search_raises self session query filters limit :
  _keyword_search lower isoformat self session query filters limit
  = Raise "NameError: name 'Message' is not defined".
Proof. done. Qed.

Lemma search_keyword_modes_raise_aux self session query filters limit min_score :
  search lower isoformat self session query "keyword" filters limit min_score
  = Raise "NameError: name 'Message' is not defined" ∧
  search lower isoformat self session query "hybrid" filters limit min_score
  = match embedding_model self query with
    | Ok _ => Raise "NameError: name 'Message' is not defined"
    | Raise e => Raise e
    end.
Proof.
  split.
  - done.
  - unfold search, run_strategies, extend_if.
    rewrite !bool_decide_eq_true_2 by (apply (bool_decide_unpack _); by vm_compute).
    unfold _semantic_search.
    destruct (embedding_model self query) as [v|e]; simpl; [|done].
    by destruct (qdrant self "messages" v (limit * 2)%Z min_score).
Qed.

(** X10.  [search] never returns in the modes that run the keyword
    strategy: [_keyword_search] evaluates the name [Message], which the
    module imports under [TYPE_CHECKING] only.  In keyword mode the call
    raises that [NameError]; in hybrid mode it raises what the embedding
    model raised, and that [NameError] when the model raised nothing. *)
Theorem search_keyword_modes_raise
    (self : HybridSearch.t) (session : AsyncSession.t) (query : string)
    (filters : option (gmap string string)) (limit : Z) (min_score : Q) :
  search lower isoformat self session query "keyword" filters limit min_score
  = Raise "NameError: name 'Message' is not defined" ∧
  search lower isoformat self session query "hybrid" filters limit min_score
  = match embedding_model self query with
    | Ok _ => Raise "NameError: name 'Message' is not defined"
    | Raise e => Raise e
    end.
Proof. apply search_keyword_modes_raise_aux. Qed.

Lemma score_desc_total x y : score_desc x y = true ∨ score_desc y x = true.
Proof.
  unfold score_desc. rewrite !Qle_bool_iff.
  destruct (Qlt_le_dec (SearchResult.score x) (SearchResult.score y)) as [H|H];
    [right; by apply Qlt_le_weak|by left].
Qed.

Lemma score_desc_trans x y z :
  score_desc x y = true → score_desc y z = true → score_desc x z = true.
Proof.
  unfold score_desc. rewrite !Qle_bool_iff. intros H1 H2. by eapply Qle_trans.
Qed.

Lemma rank_and_filter_ranked mode results limit min_score :
  StronglySorted (λ a b, (SearchResult.score b <= SearchResult.score a)%Q)
    (rank_and_filter mode results limit min_score) ∧
  ((0 ≤ limit)%Z →
   (Z.of_nat (length (rank_and_filter mode results limit min_score)) ≤ limit)%Z).
Proof.
  unfold rank_and_filter. split.
  - eapply StronglySorted_sublist; [apply sublist_filter|].
    destruct (bool_decide (mode = "hybrid")).
    + destruct (fuse_results_by_key results limit) as (fused & -> & _ & _ & _ & Hs).
      eapply StronglySorted_sublist; [apply py_slice_to_sublist|done].
    + eapply StronglySorted_sublist; [apply py_slice_to_sublist|].
      eapply StronglySorted_weaken;
        [|apply sorted_stable_sorted;
           [apply score_desc_total|apply score_desc_trans]].
      intros a b. unfold score_desc. by rewrite Qle_bool_iff.
  - intros Hl. etrans; [apply inj_le, length_filter|].
    destruct (bool_decide (mode = "hybrid")).
    + destruct (fuse_results_by_key results limit) as (fused & -> & _).
      rewrite py_slice_to_nonneg by done. rewrite length_take. lia.
    + rewrite py_slice_to_nonneg by done. rewrite length_take. lia.
Qed.

(** X11.  The results that [search] returns are ranked: no result has a
    higher score than one before it; and for a [limit] that is not
    negative there are at most [limit] of them. *)
Theorem search_results_ranked
    (self : HybridSearch.t) (session : AsyncSession.t) (query mode : string)
    (filters : option (gmap string string)) (limit : Z) (min_score : Q)
    (out : list SearchResult.t) :
  search lower isoformat self session query mode filters limit min_score = Ok out →
  StronglySorted (λ a b, (SearchResult.score b <= SearchResult.score a)%Q) out ∧
  ((0 ≤ limit)%Z → (Z.of_nat (length out) ≤ limit)%Z).
Proof.
  intros (candidates & _ & ->)%search_unfold. apply rank_and_filter_ranked.
Qed.

(** *** The graph strategy *)

Lemma find_related_entities_distance kg entity_id entity_type r :
  r ∈ KnowledgeGraph.find_related_entities kg entity_id entity_type 2 →
  KnowledgeGraph.Related.distance r = 1%nat ∨ KnowledgeGraph.Related.distance r = 2%nat.
Proof.
  unfold KnowledgeGraph.find_related_entities.
  destruct (negb (nx.contains _ _)); [intros H; by apply elem_of_nil in H|].
  rewrite sorted_stable_elem, related_fold.
  intros [H|(w & d & Hin & Hne & _ & ->)]; [by apply elem_of_nil in H|].
  apply single_source_shortest_path_length_spec in Hin as [Hd Hle]. simpl.
  destruct d as [|[|[|d]]]; [|by left|by right|lia].
  by apply at_distance_0 in Hd.
Qed.

Lemma graph_fold self filters limit results seeds r :
  r ∈ foldl (graph_step self filters limit) results seeds →
  r ∈ results ∨
  ∃ seed rel, seed ∈ seeds ∧
    rel ∈ KnowledgeGraph.find_related_entities (kg self) (Entity.id seed)
            (filters !! "entity_type") 2 ∧
    r = graph_result seed rel.
Proof.
  revert results. induction seeds as [|seed seeds IH]; intros results; simpl.
  - by left.
  - intros [Hr|(seed' & rel & Hs & Hrel & ->)]%IH.
    + unfold graph_step in Hr. destruct (negb _); [by left|].
      apply elem_of_app in Hr as [?|(rel & -> & Hrel)%list_elem_of_fmap];
        [by left|].
      right. exists seed, rel. split; [apply list_elem_of_here|].
      split; [by eapply py_slice_to_elem|done].
    + right. exists seed', rel. split; [by apply list_elem_of_further|done].
Qed.

Lemma graph_search_result self session query filters limit out r :
  _graph_search self session query filters limit = Ok out → r ∈ out →
  SearchResult.source r = "graph" ∧ SearchResult.item_type r = "entity" ∧
  ((SearchResult.score r == 10 # 13)%Q ∨ (SearchResult.score r == 5 # 8)%Q).
Proof.
  unfold _graph_search, execute.
  destruct (AsyncSession.fails session Entities); simpl; [done|].
  intros [= <-] [H|(seed & rel & _ & Hrel & ->)]%graph_fold;
    [by apply elem_of_nil in H|].
  split; [done|]. split; [done|]. simpl.
  destruct (find_related_entities_distance _ _ _ _ Hrel) as [->| ->];
    [by left|by right].
Qed.

Lemma search_graph_mode self session query filters limit out :
  _graph_search self session query filters limit = Ok out →
  search lower isoformat self session query "graph" (Some filters) limit (1 # 2)
  = Ok (py_slice_to (sorted_stable score_desc out) limit).
Proof.
  intros Hout.
  unfold search, run_strategies, extend_if. simpl. rewrite Hout. simpl.
  unfold rank_and_filter. simpl. f_equal.
  apply filter_all. intros r Hr.
  apply py_slice_to_elem, sorted_stable_elem in Hr.
  destruct (graph_search_result _ _ _ _ _ _ _ Hout Hr) as (_ & _ & [Hs|Hs]);
    apply Qle_bool_iff; rewrite Hs; done.
Qed.

(** X12.  Every candidate of the graph strategy is an entity result of
    source [graph] whose score is [10/13] (a node next to a seed entity)
    or [5/8] (a node two steps away), so none is below the default
    [min_score] of [search], and in graph mode with that threshold [search]
    returns the first [limit] candidates by score, dropping none. *)
Theorem graph_search_scores
    (self : HybridSearch.t) (session : AsyncSession.t) (query : string)
    (filters : gmap string string) (limit : Z) (out : list SearchResult.t) :
  _graph_search self session query filters limit = Ok out →
  (∀ r, r ∈ out →
     SearchResult.source r = "graph" ∧ SearchResult.item_type r = "entity" ∧
     ((SearchResult.score r == 10 # 13)%Q ∨ (SearchResult.score r == 5 # 8)%Q)) ∧
  search lower isoformat self session query "graph" (Some filters) limit (1 # 2)
  = Ok (py_slice_to (sorted_stable score_desc out) limit).
Proof.
  intros Hout. split; [intros r; by eapply graph_search_result|].
  by apply search_graph_mode.
Qed.

(** *** Searches by entity and by time range *)

(** X13.  [search_by_time_range] never returns: when the entity query has
    run, the message query evaluates the name [Message], which the module
    does not define, so the call raises what the store raised or that
    [NameError]. *)
Theorem search_by_time_range_raises
    (self : HybridSearch.t) (session : AsyncSession.t) (start_time end_time : Z)
    (entity_types : option (list string)) (limit : Z) :
  search_by_time_range isoformat self session start_time end_time entity_types limit
  = match AsyncSession.fails session Entities with
    | Some e => Raise e
    | None => Raise "NameError: name 'Message' is not defined"
    end.
Proof.
  unfold search_by_time_range, execute.
  by destruct (AsyncSession.fails session Entities).
Qed.

(** X14.  [search_by_entity] returns the error dictionary for an entity
    that is not in the graph.  It never returns related messages: for an
    entity of the graph whose row has a conversation id the call raises
    (the message query evaluates the undefined name [Message], unless the
    context has raised before), and a context that is returned has no
    ["related_messages"]. *)
Theorem search_by_entity_never_lists_messages
    (self : HybridSearch.t) (session : AsyncSession.t) (entity_id : string)
    (depth limit : Z) :
  (nx.contains (KnowledgeGraph.graph (kg self)) entity_id = false →
   search_by_entity isoformat self session entity_id depth limit
   = Ok (EntityNotFound "Entity not found in knowledge graph")) ∧
  (∀ context related_messages,
     search_by_entity isoformat self session entity_id depth limit
     = Ok (EntityFound context related_messages) →
     related_messages = None) ∧
  (∀ entity,
     nx.contains (KnowledgeGraph.graph (kg self)) entity_id = true →
     session_get session entity_id = Ok (Some entity) →
     truthy (Entity.conversation_id entity) = true →
     ∃ e, search_by_entity isoformat self session entity_id depth limit = Raise e).
Proof.
  unfold search_by_entity. split; [by intros ->|]. split.
  - intros context related_messages.
    destruct (negb (nx.contains _ _)); [done|].
    destruct (KnowledgeGraph.get_entity_context _ _ _) as [ctx|e]; simpl; [|done].
    destruct (session_get session entity_id) as [[entity|]|e]; simpl; [| |done].
    + destruct (truthy (Entity.conversation_id entity)); simpl; [done|].
      by intros [= _ <-].
    + by intros [= _ <-].
  - intros entity -> Hget Hcid. simpl.
    destruct (KnowledgeGraph.get_entity_context _ _ _) as [ctx|e]; simpl;
      [|by eexists].
    rewrite Hget. simpl. rewrite Hcid. simpl. by eexists.
Qed.
End ModeFacts.

(** ** server.py: the search tool *)

Section ToolFacts.
Context (lower : string → string) (isoformat : Z → string).

(** X15.  The tool [search_hybrid] never returns in its default mode
    [hybrid], nor in keyword mode: the search raises, after the graph has
    been rebuilt if it was empty.  In graph mode the graph is rebuilt only
    when it has no node, and the results are the first [limit] candidates
    of the graph strategy by score: the threshold [0.5] that [search]
    applies removes none. *)
Theorem search_hybrid_modes
    (hybrid_search : HybridSearch.t) (session : AsyncSession.t) (query : string)
    (filters : option (gmap string string)) (limit : Z) (utcnow utcnow' : Z) :
  (∀ mode, mode = "hybrid" ∨ mode = "keyword" →
     ∃ e, (server.search_hybrid lower isoformat hybrid_search session query mode
             filters limit utcnow utcnow').2 = Raise e) ∧
  (∀ out,
     let run := server.search_hybrid lower isoformat hybrid_search session query
                  "graph" filters limit utcnow utcnow' in
     run.2 = Ok out →
     HybridSearch.kg run.1
     = (if (nx.number_of_nodes (KnowledgeGraph.graph (HybridSearch.kg hybrid_search))
            =? 0)%Z
        then (KnowledgeGraph.build_graph session None utcnow utcnow'
                (HybridSearch.kg hybrid_search)).1
        else HybridSearch.kg hybrid_search) ∧
     ∃ candidates,
       HybridSearch._graph_search run.1 session query (default ∅ filters) limit
       = Ok candidates ∧
       out = py_slice_to (sorted_stable HybridSearch.score_desc candidates) limit).
Proof.
  split.
  - intros mode Hmode. unfold server.search_hybrid.
    destruct (bool_decide (mode ∈ ["hybrid"; "graph"]) && _).
    + destruct (KnowledgeGraph.build_graph _ _ _ _ _) as [kg' [n|e]]; simpl;
        [|by eexists].
      destruct Hmode as [-> | ->].
      * rewrite (proj2 (search_keyword_modes_raise_aux lower isoformat _ _ _ _ _ _)).
        destruct (HybridSearch.embedding_model _ _); by eexists.
      * rewrite (proj1 (search_keyword_modes_raise_aux lower isoformat _ _ _ _ _ _)).
        by eexists.
    + simpl. destruct Hmode as [-> | ->].
      * rewrite (proj2 (search_keyword_modes_raise_aux lower isoformat _ _ _ _ _ _)).
        destruct (HybridSearch.embedding_model _ _); by eexists.
      * rewrite (proj1 (search_keyword_modes_raise_aux lower isoformat _ _ _ _ _ _)).
        by eexists.
  - intros out run. unfold run, server.search_hybrid.
    rewrite bool_decide_eq_true_2 by (apply (bool_decide_unpack _); by vm_compute).
    rewrite andb_true_l.
    destruct (nx.number_of_nodes _ =? 0)%Z.
    + destruct (KnowledgeGraph.build_graph _ _ _ _ _) as [kg' [n|e]]; simpl;
        [|done].
      intros Hout. split; [done|].
      destruct (HybridSearch._graph_search _ session query (default ∅ filters) limit)
        as [candidates|e] eqn:Hc.
      * exists candidates. split; [done|].
        rewrite (search_graph_mode lower isoformat _ _ _ _ _ _ Hc) in Hout.
        by injection Hout as <-.
      * exfalso. revert Hout.
        unfold HybridSearch.search, HybridSearch.run_strategies,
          HybridSearch.extend_if. simpl. by rewrite Hc.
    + simpl. intros Hout. split; [done|].
      destruct (HybridSearch._graph_search _ session query (default ∅ filters) limit)
        as [candidates|e] eqn:Hc.
      * exists candidates. split; [done|].
        rewrite (search_graph_mode lower isoformat _ _ _ _ _ _ Hc) in Hout.
        by injection Hout as <-.
      * exfalso. revert Hout.
        unfold HybridSearch.search, HybridSearch.run_strategies,
          HybridSearch.extend_if. simpl. by rewrite Hc.
Qed.
End ToolFacts.

(** ** deduplicate_entities: order and idempotence *)

(** The distinct elements of a list in the order of their first
    occurrence. *)
Definition first_occurrences {A : Type} `{EqDecision A} (l : list A) : list A :=
  foldl (λ acc x, if decide (x ∈ acc) then acc else acc ++ [x]) [] l.

Section DedupOrder.
Import EntityExtractor.
Context (lower : string → string).

Lemma odict_set_absent {K V : Type} `{EqDecision K} (d : list (K * V)) k v :
  k ∉ ODict.keys d → ODict.set d k v = d ++ [(k, v)].
Proof.
  unfold ODict.keys. induction d as [|[k' v'] d IH]; simpl; [done|].
  rewrite not_elem_of_cons. intros [Hne Hd].
  rewrite decide_False by done. by rewrite IH.
Qed.

Lemma dedup_step_keys seen x :
  ODict.keys (dedup_step lower seen x)
  = if decide (dedup_key lower x ∈ ODict.keys seen) then ODict.keys seen
    else ODict.keys seen ++ [dedup_key lower x].
Proof.
  unfold dedup_step.
  destruct (ODict.get seen (dedup_key lower x)) as [kept|] eqn:Hget.
  - assert (dedup_key lower x ∈ ODict.keys seen) as Hin.
    { destruct (decide (dedup_key lower x ∈ ODict.keys seen)) as [|Hn]; [done|].
      apply odict_get_None in Hn. congruence. }
    rewrite decide_True by done.
    destruct (Qlt_bool _ _); [by apply odict_keys_set_present|done].
  - apply odict_get_None in Hget. rewrite decide_False by done.
    by apply odict_keys_set_absent.
Qed.

Lemma dedup_fold_keys seen entities :
  ODict.keys (foldl (dedup_step lower) seen entities)
  = foldl (λ acc x, if decide (x ∈ acc) then acc else acc ++ [x])
      (ODict.keys seen) (dedup_key lower <$> entities).
Proof.
  revert seen. induction entities as [|x l IH]; intros seen; simpl; [done|].
  by rewrite IH, dedup_step_keys.
Qed.

Lemma dedup_fold_distinct seen entities :
  NoDup (ODict.keys seen ++ (dedup_key lower <$> entities)) →
  foldl (dedup_step lower) seen entities
  = seen ++ ((λ e, (dedup_key lower e, e)) <$> entities).
Proof.
  revert seen. induction entities as [|x l IH]; intros seen Hnd; simpl.
  - by rewrite app_nil_r.
  - rewrite fmap_cons in Hnd.
    assert (dedup_key lower x ∉ ODict.keys seen) as Hx.
    { apply NoDup_app in Hnd as (_ & Hdis & _). intros Hin.
      apply (Hdis _ Hin), list_elem_of_here. }
    assert (dedup_step lower seen x = seen ++ [(dedup_key lower x, x)]) as ->.
    { unfold dedup_step. rewrite (proj2 (odict_get_None _ _) Hx).
      by apply odict_set_absent. }
    rewrite IH.
    + by rewrite <- app_assoc.
    + unfold ODict.keys. rewrite fmap_app. simpl. rewrite <- app_assoc. done.
Qed.

Lemma deduplicate_entities_distinct entities :
  NoDup (dedup_key lower <$> entities) →
  deduplicate_entities lower entities = entities.
Proof.
  intros Hnd. unfold deduplicate_entities.
  rewrite dedup_fold_distinct by done. simpl. unfold ODict.values.
  rewrite <- list_fmap_compose. apply list_fmap_id.
Qed.

Lemma deduplicate_entities_keys entities :
  dedup_key lower <$> deduplicate_entities lower entities
  = ODict.keys (foldl (dedup_step lower) [] entities).
Proof.
  unfold deduplicate_entities.
  apply (dedup_inv_keys lower entities).
  apply (dedup_loop_inv lower [] [] entities), dedup_inv_nil.
Qed.

Lemma dedup_step_length seen x :
  (length (dedup_step lower seen x) ≤ S (length seen))%nat.
Proof.
  pose proof (dedup_step_keys seen x) as H.
  apply (f_equal length) in H. unfold ODict.keys in H.
  rewrite length_fmap in H. rewrite H.
  destruct (decide _); rewrite ?length_app, !length_fmap; simpl; lia.
Qed.

(** X16.  [deduplicate_entities] is idempotent, returns a list whose keys
    [(name.lower(), entity_type)] are distinct as it is, and never returns
    more entities than it was given. *)
Theorem deduplicate_entities_idempotent (entities : list EntityDict) :
  deduplicate_entities lower (deduplicate_entities lower entities)
  = deduplicate_entities lower entities ∧
  (NoDup (dedup_key lower <$> entities) →
   deduplicate_entities lower entities = entities) ∧
  (length (deduplicate_entities lower entities) ≤ length entities)%nat.
Proof.
  split; [|split].
  - apply deduplicate_entities_distinct. rewrite deduplicate_entities_keys.
    apply (dedup_loop_inv lower [] [] entities), dedup_inv_nil.
  - apply deduplicate_entities_distinct.
  - unfold deduplicate_entities, ODict.values. rewrite length_fmap.
    assert (∀ seen, length (foldl (dedup_step lower) seen entities)
                    ≤ length seen + length entities)%nat as H; [|apply (H [])].
    induction entities as [|x l IH]; intros seen; simpl; [lia|].
    etrans; [apply IH|]. pose proof (dedup_step_length seen x). lia.
Qed.

(** X17.  The entities that [deduplicate_entities] returns come in the
    order in which their keys first occur in the input. *)
Theorem deduplicate_entities_order (entities : list EntityDict) :
  dedup_key lower <$> deduplicate_entities lower entities
  = first_occurrences (dedup_key lower <$> entities).
Proof. rewrite deduplicate_entities_keys. apply dedup_fold_keys. Qed.
End DedupOrder.

(** ** extract_entity_mentions *)

Section MentionFacts.
Import EntityExtractor.
Context (lower : string → string) (utcnow : nat → Z).

(** [sub] occurs in [s] at [q]. *)
Definition occurs_at (sub s : string) (q : nat) : Prop :=
  String.substring q (String.length sub) s = sub.

Lemma str_find_ge s sub start m : str_find s sub start = Some m → (start ≤ m)%nat.
Proof.
  unfold str_find. revert start m.
  induction s as [|c s IH]; intros start m; simpl.
  - destruct start; [|done]. destruct sub; [|done]. intros [= <-]. lia.
  - destruct start as [|start]; [lia|].
    destruct (index start sub s) as [n|] eqn:Hn; [|done].
    intros [= <-]. apply IH in Hn. lia.
Qed.

Lemma str_find_le s sub start m :
  str_find s sub start = Some m → (m ≤ String.length s)%nat.
Proof.
  unfold str_find. revert start m.
  induction s as [|c s IH]; intros start m; simpl.
  - destruct start; [|done]. destruct sub; [|done]. intros [= <-]. lia.
  - intros H. repeat case_match; simplify_eq; try lia;
      match goal with Hn : index _ _ _ = Some _ |- _ => apply IH in Hn end; lia.
Qed.

Lemma str_find_empty s : str_find s "" 0 = Some 0%nat.
Proof. unfold str_find. by destruct s. Qed.

Lemma mentions_loop_terminates text entity_name conversation_id message_id
    context_window fuel pos mentions :
  entity_name ≠ "" →
  (1 ≤ fuel)%nat → (String.length (lower text) + 1 < fuel + pos)%nat →
  is_Some (mentions_loop lower utcnow fuel text entity_name conversation_id
             message_id context_window pos mentions).
Proof.
  intros Hname. assert (1 ≤ String.length entity_name)%nat as HL.
  { destruct entity_name; [done|simpl; lia]. }
  revert pos mentions. induction fuel as [|fuel IH]; intros pos mentions Hf Hm.
  { lia. }
  simpl. destruct (str_find (lower text) (lower entity_name) pos) as [m|] eqn:Hfind;
    [|by eexists].
  pose proof (str_find_ge _ _ _ _ Hfind). pose proof (str_find_le _ _ _ _ Hfind).
  apply IH; lia.
Qed.

Lemma mentions_loop_fuel text entity_name conversation_id message_id
    context_window fuel fuel' pos mentions ms :
  mentions_loop lower utcnow fuel text entity_name conversation_id message_id
    context_window pos mentions = Some ms →
  (fuel ≤ fuel')%nat →
  mentions_loop lower utcnow fuel' text entity_name conversation_id message_id
    context_window pos mentions = Some ms.
Proof.
  revert fuel' pos mentions. induction fuel as [|fuel IH];
    intros fuel' pos mentions; simpl; [done|].
  intros H Hle. destruct fuel' as [|fuel']; [lia|]. simpl.
  destruct (str_find (lower text) (lower entity_name) pos) as [m|]; [|done].
  apply IH; [done|lia].
Qed.

(** X18.  For an entity name that is not empty the loop of
    [extract_entity_mentions] ends: [len(text.lower()) + 2] rounds are
    always enough, and more rounds give the same list. *)
Theorem extract_entity_mentions_terminates
    (text entity_name conversation_id : string) (message_id context_window : Z) :
  entity_name ≠ "" →
  ∃ ms, ∀ fuel, (String.length (lower text) + 2 ≤ fuel)%nat →
    extract_entity_mentions lower utcnow fuel text entity_name conversation_id
      message_id context_window = Some ms.
Proof.
  intros Hname.
  destruct (mentions_loop_terminates text entity_name conversation_id message_id
              context_window (String.length (lower text) + 2) 0 [] Hname)
    as [ms Hms]; [lia|lia|].
  exists ms. intros fuel Hfuel. unfold extract_entity_mentions.
  by eapply mentions_loop_fuel.
Qed.

(** X19.  For the empty entity name the loop never ends: the empty string
    is found at position 0, a mention is appended, and the position
    advances by the length of the name, which is 0. *)
Theorem extract_entity_mentions_empty_name_never_ends
    (text conversation_id : string) (message_id context_window : Z) (fuel : nat) :
  lower "" = "" →
  extract_entity_mentions lower utcnow fuel text "" conversation_id message_id
    context_window = None.
Proof.
  intros Hlower. unfold extract_entity_mentions. generalize (@nil Mention.t).
  induction fuel as [|fuel IH]; intros mentions; simpl; [done|].
  rewrite Hlower, str_find_empty. simpl. apply IH.
Qed.

(** The loop keeps the mentions in step with the scan: every mention is the
    dictionary built for an occurrence, later mentions start after earlier
    ones end, and every occurrence before the current position starts
    inside a mention. *)
Definition scanned (text entity_name conversation_id : string)
    (message_id context_window : Z) (pos : nat) (mentions : list Mention.t) : Prop :=
  (∀ i m, mentions !! i = Some m →
     occurs_at (lower entity_name) (lower text) (Mention.position m) ∧
     (Mention.position m + String.length entity_name ≤ pos)%nat ∧
     m = mention text entity_name conversation_id message_id context_window
           (Mention.position m) (utcnow i)) ∧
  (∀ i a b, mentions !! i = Some a → mentions !! S i = Some b →
     (Mention.position a + String.length entity_name ≤ Mention.position b)%nat) ∧
  (∀ q, occurs_at (lower entity_name) (lower text) q → (q < pos)%nat →
     ∃ m, m ∈ mentions ∧
       (q = Mention.position m ∨
        (Mention.position m < q < Mention.position m + String.length entity_name)%nat)).

Lemma scanned_step text entity_name conversation_id message_id context_window
    pos m mentions :
  scanned text entity_name conversation_id message_id context_window pos mentions →
  str_find (lower text) (lower entity_name) pos = Some m →
  scanned text entity_name conversation_id message_id context_window
    (m + String.length entity_name)
    (mentions ++ [mention text entity_name conversation_id message_id
                    context_window m (utcnow (length mentions))]).
Proof.
  intros (Hocc & Hgap & Hcov) Hfind.
  pose proof (str_find_ge _ _ _ _ Hfind) as Hge.
  split; [|split].
  - intros i a Ha. destruct (decide (i < length mentions)%nat) as [Hlt|Hnlt].
    + rewrite lookup_app_l in Ha by lia.
      destruct (Hocc i a Ha) as (? & ? & ?). split; [done|]. split; [lia|done].
    + rewrite lookup_app_r in Ha by lia.
      destruct (i - length mentions)%nat as [|j] eqn:Hj; [|by destruct j].
      simpl in Ha. injection Ha as <-. simpl.
      split; [by apply (index_correct1 pos)|]. split; [lia|].
      by replace i with (length mentions) by lia.
  - intros i a b Ha Hb.
    destruct (decide (S i < length mentions)%nat) as [Hlt|Hnlt].
    + rewrite lookup_app_l in Ha, Hb by lia. by eapply Hgap.
    + rewrite lookup_app_r in Hb by lia.
      destruct (S i - length mentions)%nat as [|j] eqn:Hj; [|by destruct j].
      simpl in Hb. injection Hb as <-. simpl.
      rewrite lookup_app_l in Ha by lia.
      destruct (Hocc i a Ha) as (_ & ? & _). lia.
  - intros q Hq Hlt. destruct (decide (q < pos)%nat) as [Hqp|Hqp].
    + destruct (Hcov q Hq Hqp) as (a & Ha & Hqa). exists a.
      split; [apply elem_of_app; by left|done].
    + eexists. split; [apply elem_of_app; right; apply list_elem_of_here|]. simpl.
      destruct (decide (q = m)) as [|Hne]; [by left|]. right.
      destruct (decide (q < m)%nat) as [Hqm|]; [|lia].
      destruct (index_correct2 _ _ _ _ Hfind q); [lia|done|done].
Qed.

Lemma mentions_loop_scanned text entity_name conversation_id message_id
    context_window fuel pos mentions ms :
  lower entity_name ≠ "" →
  scanned text entity_name conversation_id message_id context_window pos mentions →
  mentions_loop lower utcnow fuel text entity_name conversation_id message_id
    context_window pos mentions = Some ms →
  ∃ pos',
    scanned text entity_name conversation_id message_id context_window pos' ms ∧
    ∀ q, occurs_at (lower entity_name) (lower text) q → (q < pos')%nat.
Proof.
  intros Hname. revert pos mentions.
  induction fuel as [|fuel IH]; intros pos mentions Hs; simpl; [done|].
  destruct (str_find (lower text) (lower entity_name) pos) as [m|] eqn:Hfind.
  - apply IH. by eapply scanned_step.
  - intros [= <-]. exists (pos + S (String.length (lower text)))%nat. split.
    + destruct Hs as (Hocc & Hgap & Hcov). split; [|split]; [|done|].
      * intros i a Ha. destruct (Hocc i a Ha) as (? & ? & ?).
        split; [done|]. split; [lia|done].
      * intros q Hq Hlt. destruct (decide (q < pos)%nat) as [|Hqp]; [by apply Hcov|].
        destruct (index_correct3 _ q _ _ Hfind Hname); [lia|done].
    + intros q Hq. destruct (decide (q < pos)%nat) as [|Hqp]; [lia|].
      destruct (index_correct3 _ q _ _ Hfind Hname); [lia|done].
Qed.

(** X20.  The mentions that [extract_entity_mentions] returns are the
    occurrences of the lower-cased name in the lower-cased text, found
    from the left without overlap: every mention is the dictionary built
    for an occurrence (the ids given, the slice of the text at that
    position, confidence 1); the next mention starts at or after the end
    of the one before; and every occurrence is a mention or starts inside
    one. *)
Theorem extract_entity_mentions_occurrences
    (fuel : nat) (text entity_name conversation_id : string)
    (message_id context_window : Z) (ms : list Mention.t) :
  lower entity_name ≠ "" →
  extract_entity_mentions lower utcnow fuel text entity_name conversation_id
    message_id context_window = Some ms →
  (∀ i m, ms !! i = Some m →
     occurs_at (lower entity_name) (lower text) (Mention.position m) ∧
     m = mention text entity_name conversation_id message_id context_window
           (Mention.position m) (utcnow i)) ∧
  (∀ i a b, ms !! i = Some a → ms !! S i = Some b →
     (Mention.position a + String.length entity_name ≤ Mention.position b)%nat) ∧
  (∀ q, occurs_at (lower entity_name) (lower text) q →
     ∃ m, m ∈ ms ∧
       (q = Mention.position m ∨
        (Mention.position m < q < Mention.position m + String.length entity_name)%nat)).
Proof.
  intros Hname Hms.
  destruct (mentions_loop_scanned text entity_name conversation_id message_id
              context_window fuel 0 [] ms Hname) as (pos' & (Hocc & Hgap & Hcov) & Hall);
    [|done|].
  { split; [|split].
    - intros i m Hm. by rewrite lookup_nil in Hm.
    - intros i a b Ha. by rewrite lookup_nil in Ha.
    - intros q _ Hq. lia. }
  split; [|split].
  - intros i m Hm. by destruct (Hocc i m Hm) as (? & _ & ?).
  - done.
  - intros q Hq. apply Hcov; [done|]. by apply Hall.
Qed.
End MentionFacts.

(** ** server.py: the hashing embedding *)

Section HasherFacts.

(** The sum of the token ids that [enumerate] pairs with an index congruent
    to [j] modulo [n]. *)
Definition slot_sum (n : nat) (items : list (nat * Z)) (j : nat) : Q :=
  Qsum ((λ item : nat * Z,
           if decide (item.1 mod n = j)%nat then inject_Z item.2 else 0%Q)
          <$> items).

Lemma hash_step_length vector item :
  length (server.hash_step vector item) = length vector.
Proof. destruct item. apply length_alter. Qed.

Lemma hash_fold_length vector items :
  length (foldl server.hash_step vector items) = length vector.
Proof.
  revert vector. induction items as [|item items IH]; intros vector; simpl; [done|].
  by rewrite IH, hash_step_length.
Qed.

Lemma hash_fold_slot vector items j x :
  vector !! j = Some x →
  ∃ y, foldl server.hash_step vector items !! j = Some y ∧
       (y == x + slot_sum (length vector) items j)%Q.
Proof.
  revert vector x. induction items as [|[idx tok] items IH]; intros vector x Hj; simpl.
  - exists x. split; [done|]. unfold slot_sum. simpl. ring.
  - destruct (decide (idx mod length vector = j)%nat) as [Heq|Hne].
    + destruct (IH (alter (λ x, x + inject_Z tok)%Q (idx mod length vector) vector)
                  (x + inject_Z tok)%Q) as (y & Hy & Hsum).
      { rewrite Heq, list_lookup_alter_eq, Hj. done. }
      exists y. split; [done|]. rewrite Hsum, length_alter.
      unfold slot_sum. rewrite fmap_cons. simpl.
      rewrite decide_True by done. ring.
    + destruct (IH (alter (λ x, x + inject_Z tok)%Q (idx mod length vector) vector)
                  x) as (y & Hy & Hsum).
      { by rewrite list_lookup_alter_ne. }
      exists y. split; [done|]. rewrite Hsum, length_alter.
      unfold slot_sum. rewrite fmap_cons. simpl.
      rewrite decide_False by done. ring.
Qed.

(** X21.  The hashing embedding always has 384 components, the size of
    the vector collection.  Without a tokenizer it is the zero vector;
    with one, component [j] is the sum of the ids of the tokens whose
    index is congruent to [j] modulo 384. *)
Theorem token_hasher_encode_slots
    (tokenizer : option (string → list Z)) (text : string) :
  length (server.token_hasher_encode tokenizer text) = 384%nat ∧
  (tokenizer = None →
   server.token_hasher_encode tokenizer text = replicate 384 0%Q) ∧
  (∀ encode j, tokenizer = Some encode → (j < 384)%nat →
     ∃ y, server.token_hasher_encode tokenizer text !! j = Some y ∧
          (y == slot_sum 384 (enumerate 0 (encode text)) j)%Q).
Proof.
  unfold server.token_hasher_encode. split; [|split].
  - destruct tokenizer; [|done]. by rewrite hash_fold_length.
  - by intros ->.
  - intros encode j -> Hj.
    destruct (hash_fold_slot (replicate 384 0%Q) (enumerate 0 (encode text)) j 0%Q)
      as (y & Hy & Hsum); [by apply lookup_replicate_2|].
    exists y. split; [done|]. rewrite Hsum, length_replicate. ring.
Qed.
End HasherFacts.

(** ** The history of an entity and its invalidation *)

Lemma filter_key_NoDup {A : Type} (key : A → string) (k : string) (l : list A) :
  NoDup (key <$> l) →
  filter (λ x, bool_decide (key x = k) = true) l = [] ∧ k ∉ key <$> l ∨
  ∃ v, v ∈ l ∧ key v = k ∧ filter (λ x, bool_decide (key x = k) = true) l = [v].
Proof.
  induction l as [|x l IH]; intros Hnd.
  - left. split; [done|]. apply not_elem_of_nil.
  - rewrite fmap_cons in Hnd. apply NoDup_cons in Hnd as [Hx Hnd].
    rewrite filter_cons. destruct (decide (bool_decide (key x = k) = true)) as [Hk|Hk].
    + apply bool_decide_eq_true in Hk. right. exists x.
      split; [apply list_elem_of_here|]. split; [done|]. f_equal.
      destruct (IH Hnd) as [[-> _]|(v & Hv & Hkv & _)]; [done|].
      destruct Hx. rewrite Hk, <- Hkv. by apply list_elem_of_fmap_2.
    + rewrite bool_decide_eq_true in Hk.
      destruct (IH Hnd) as [[-> Hn]|(v & Hv & Hkv & ->)].
      * left. split; [done|]. rewrite fmap_cons, not_elem_of_cons. split; [|done].
        congruence.
      * right. exists v. split; [by apply list_elem_of_further|done].
Qed.

Section HistoryFacts.
Context (lower : string → string) (isoformat : Z → string).

(** X22.  With entity ids as the primary key, the history that the tool
    [get_entity_history] returns has exactly one version, that of the row
    of the id, whose name is the current name; the error dictionary is
    returned exactly when no row has the id. *)
Theorem get_entity_history_single_version
    (session : AsyncSession.t) (entity_id : string) (r : server.EntityHistory) :
  NoDup (Entity.id <$> AsyncSession.entities session) →
  server.get_entity_history isoformat session entity_id = Ok r →
  (r = server.HistoryNotFound "Entity not found" ∧
   entity_id ∉ Entity.id <$> AsyncSession.entities session) ∨
  ∃ v, v ∈ AsyncSession.entities session ∧ Entity.id v = entity_id ∧
       r = server.History entity_id (Entity.name v) 1 [server.version isoformat v].
Proof.
  intros Hnd. unfold server.get_entity_history, execute.
  destruct (AsyncSession.fails session Entities); simpl; [done|].
  destruct (filter_key_NoDup Entity.id entity_id _ Hnd)
    as [[-> Hn]|(v & Hv & Hk & ->)]; simpl.
  - intros [= <-]. by left.
  - intros [= <-]. right. by exists v.
Qed.
End HistoryFacts.

Section InvalidateFacts.
Import KnowledgeGraph models_enhanced.

Lemma update_first_NoDup (k : string) (f : Entity.t → Entity.t)
    (l : list Entity.t) :
  (∀ e, Entity.id (f e) = Entity.id e) →
  NoDup (Entity.id <$> l) →
  Entity.id <$> update_first (λ e, bool_decide (Entity.id e = k)) f l
  = Entity.id <$> l ∧
  ∀ e', e' ∈ update_first (λ e, bool_decide (Entity.id e = k)) f l ↔
        (∃ e, e ∈ l ∧ Entity.id e = k ∧ e' = f e) ∨
        (e' ∈ l ∧ Entity.id e' ≠ k).
Proof.
  intros Hf. induction l as [|x l IH]; intros Hnd; simpl.
  - split; [done|]. intros e'. split.
    + intros H. by apply elem_of_nil in H.
    + intros [(e & H & _)|[H _]]; by apply elem_of_nil in H.
  - rewrite fmap_cons in Hnd. apply NoDup_cons in Hnd as [Hx Hnd].
    destruct (IH Hnd) as [Hids Hel].
    destruct (bool_decide (Entity.id x = k)) eqn:Hk.
    + apply bool_decide_eq_true in Hk. split.
      { rewrite !fmap_cons. by rewrite Hf. }
      intros e'. rewrite elem_of_cons. split.
      * intros [->|Hin].
        -- left. exists x. split; [apply list_elem_of_here|done].
        -- right. split; [by apply list_elem_of_further|].
           intros He'. apply Hx. rewrite Hk, <- He'. by apply list_elem_of_fmap_2.
      * intros [(e & [->|Hin]%elem_of_cons & He & ->)|[[->|Hin]%elem_of_cons Hne]].
        -- by left.
        -- destruct Hx. rewrite Hk, <- He. by apply list_elem_of_fmap_2.
        -- done.
        -- by right.
    + apply bool_decide_eq_false in Hk. split.
      { rewrite !fmap_cons. by rewrite Hids. }
      intros e'. rewrite elem_of_cons, Hel. split.
      * intros [->|[(e & Hin & He & ->)|[Hin Hne]]].
        -- right. split; [apply list_elem_of_here|done].
        -- left. exists e. split; [by apply list_elem_of_further|done].
        -- right. split; [by apply list_elem_of_further|done].
      * intros [(e & [->|Hin]%elem_of_cons & He & ->)|[[->|Hin]%elem_of_cons Hne]].
        -- done.
        -- right. left. eauto.
        -- by left.
        -- right. by right.
Qed.

Lemma update_first_none {A : Type} (p : A → bool) (f : A → A) (l : list A) :
  filter (λ x, p x = true) l = [] → update_first p f l = l.
Proof.
  induction l as [|x l IH]; simpl; [done|]. rewrite filter_cons.
  destruct (decide (p x = true)) as [Hp|Hp]; [done|].
  apply not_true_is_false in Hp. rewrite Hp. intros H. by rewrite IH.
Qed.

Lemma invalidate_entity_Ok session entity_id as_of utcnow session' :
  invalidate_entity session entity_id as_of utcnow = Ok session' →
  AsyncSession.fails session Entities = None ∧
  AsyncSession.entities session'
  = update_first (λ entity, bool_decide (Entity.id entity = entity_id))
      (λ entity, set_valid_until entity (default utcnow as_of))
      (AsyncSession.entities session) ∧
  AsyncSession.relationships session' = AsyncSession.relationships session ∧
  AsyncSession.fails session' = AsyncSession.fails session.
Proof.
  unfold invalidate_entity, execute.
  destruct (AsyncSession.fails session Entities) eqn:Hf; simpl; [done|].
  destruct (filter _ (AsyncSession.entities session)) as [|row rows] eqn:Hrows;
    simpl; intros [= <-]; simpl; [|done].
  split; [done|]. split; [|done]. by rewrite update_first_none.
Qed.

(** X23.  After [invalidate_entity(session, entity_id, as_of)], with entity
    ids as the primary key, the entities valid at a time [t] are the row
    of [entity_id] with its new end when [valid_from <= t < as_of],
    whatever its end was before (a row that had ended earlier is valid
    again up to [as_of]), and the other rows that were valid at [t]. *)
Theorem invalidate_entity_validity
    (session session' : AsyncSession.t) (entity_id : string) (as_of : option Z)
    (utcnow t : Z) :
  NoDup (Entity.id <$> AsyncSession.entities session) →
  invalidate_entity session entity_id as_of utcnow = Ok session' →
  let a := default utcnow as_of in
  ∃ rows,
    get_valid_entities_at_time session' t = Ok rows ∧
    ∀ e', e' ∈ rows ↔
      (∃ e, e ∈ AsyncSession.entities session ∧ Entity.id e = entity_id ∧
            e' = set_valid_until e a ∧ (Entity.valid_from e ≤ t < a)%Z) ∨
      (e' ∈ AsyncSession.entities session ∧ Entity.id e' ≠ entity_id ∧
       valid_interval (Entity.valid_from e') (Entity.valid_until e') t).
Proof.
  intros Hnd (Hf & Hents & _ & Hfails)%invalidate_entity_Ok a.
  unfold get_valid_entities_at_time, execute. rewrite Hfails, Hf.
  eexists. split; [done|]. intros e'.
  rewrite list_elem_of_filter, valid_at_spec, Hents.
  rewrite (proj2 (update_first_NoDup entity_id
                    (λ entity, set_valid_until entity (default utcnow as_of))
                    _ (λ _, eq_refl) Hnd)).
  fold a. split.
  - intros [Hv [(e & He & Hid & ->)|[He Hid]]].
    + left. exists e. split; [done|]. split; [done|]. split; [done|].
      destruct Hv as [H1 H2]. simpl in H1, H2. lia.
    + right. done.
  - intros [(e & He & Hid & -> & Ht)|(He & Hid & Hv)].
    + split; [|left; eauto]. split; simpl; lia.
    + split; [done|]. by right.
Qed.

(** X24.  [invalidate_entity] leaves the relationships of the entity as
    they are.  In a graph built as of a time from the invalidation on, the
    node of the entity has no attributes, and [get_entity_context] raises
    for every node that a relationship valid at that time joins to it. *)
Theorem invalidated_entity_breaks_neighbor_context
    (session session' : AsyncSession.t) (entity_id : string) (as_of : option Z)
    (utcnow t utcnow1 utcnow2 : Z) (self self' : KnowledgeGraph.t) (count : Z) :
  NoDup (Entity.id <$> AsyncSession.entities session) →
  invalidate_entity session entity_id as_of utcnow = Ok session' →
  (default utcnow as_of ≤ t)%Z →
  build_graph session' (Some t) utcnow1 utcnow2 self = (self', Ok count) →
  AsyncSession.relationships session' = AsyncSession.relationships session ∧
  nx.node_data (graph self') entity_id = None ∧
  ∀ rel n depth, rel ∈ valid_relationships session t →
    (Relationship.source_entity_id rel = entity_id ∧
     Relationship.target_entity_id rel = n) ∨
    (Relationship.target_entity_id rel = entity_id ∧
     Relationship.source_entity_id rel = n) →
    ∃ e, get_entity_context self' n depth = Raise e.
Proof.
  intros Hnd (Hf & Hents & Hrels & Hfails)%invalidate_entity_Ok Ha
         (HG & _)%build_graph_returns.
  simpl in HG.
  assert (entity_id ∉ Entity.id <$> valid_entities session' t) as Hgone.
  { intros (e' & Hid & [Hv Hin]%list_elem_of_filter)%list_elem_of_fmap.
    rewrite Hents in Hin.
    apply (proj2 (update_first_NoDup entity_id
                    (λ entity, set_valid_until entity (default utcnow as_of))
                    _ (λ _, eq_refl) Hnd)) in Hin
      as [(e & _ & _ & ->)|[_ Hne]]; [|done].
    apply valid_at_spec in Hv as [_ Hv]. simpl in Hv. lia. }
  assert (valid_relationships session' t = valid_relationships session t) as Hvr.
  { unfold valid_relationships. by rewrite Hrels. }
  split; [done|]. split.
  { rewrite HG. by apply built_graph_node_data. }
  intros rel n depth Hrel Hends. rewrite <- Hvr in Hrel.
  apply get_entity_context_raises.
  - unfold nx.contains. apply bool_decide_eq_true. apply elem_of_dom.
    rewrite HG, built_graph_dom. apply elem_of_union. right.
    apply elem_of_list_to_set, endpoints_elem. exists rel. split; [done|].
    destruct Hends as [[_ ?]|[_ ?]]; [by right|by left].
  - exists entity_id. rewrite HG. split; [|by apply built_graph_node_data].
    destruct Hends as [[Hs Ht]|[Ht Hs]].
    + right. apply predecessors_spec, built_graph_edges. eauto.
    + left. apply successors_spec, built_graph_edges. eauto.
Qed.
End InvalidateFacts.

(** ** The theorems at work *)

(** The graph built from [store_e1_e2] as of 15, when both entities are
    valid, and as of 5, when [e1] is not valid yet but the relationship
    from [e1] to [e2] is. *)
Definition kg_as_of_15 : KnowledgeGraph.t :=
  (KnowledgeGraph.build_graph store_e1_e2 (Some 15%Z) 0 0 KnowledgeGraph.__init__).1.

Definition kg_as_of_5 : KnowledgeGraph.t :=
  (KnowledgeGraph.build_graph store_e1_e2 (Some 5%Z) 0 0 KnowledgeGraph.__init__).1.

Lemma get_entity_context_lists_every_edge_witness :
  match KnowledgeGraph.get_entity_context kg_as_of_15 "e1" 1 with
  | Ok (Some ctx) =>
      KnowledgeGraph.EntityContext.out_degree ctx
      = length (KnowledgeGraph.EntityContext.outgoing_relationships ctx)
  | _ => False
  end.
Proof.
  destruct (KnowledgeGraph.get_entity_context kg_as_of_15 "e1" 1)
    as [[ctx|]|e] eqn:H.
  - apply (get_entity_context_lists_every_edge kg_as_of_15 "e1" 1 ctx H).
  - vm_compute in H. discriminate H.
  - vm_compute in H. discriminate H.
Defined.

Lemma build_graph_context_raises_iff_witness :
  ∃ e, KnowledgeGraph.get_entity_context kg_as_of_5 "e2" 1 = Raise e.
Proof.
  apply (build_graph_context_raises_iff store_e1_e2 (Some 5%Z) 0 0
           KnowledgeGraph.__init__ kg_as_of_5 2 "e2" 1 eq_refl eq_refl).
  exists (relationship_row "r1" "e1" "e2" 0), "e1". split.
  - apply list_elem_of_filter. split; [reflexivity|apply list_elem_of_here].
  - split; [by right|]. apply (bool_decide_unpack _). vm_compute. exact I.
Defined.

Lemma search_results_ranked_witness :
  ∃ out,
    HybridSearch.search ascii_lower pretty searcher_two_hits empty_store
      "api" "semantic" None 10 (9 # 10) = Ok out ∧
    (Z.of_nat (length out) ≤ 10)%Z.
Proof.
  eexists. split; [reflexivity|].
  apply (search_results_ranked ascii_lower pretty searcher_two_hits empty_store
           "api" "semantic" None 10 (9 # 10) _ eq_refl).
  lia.
Defined.

Lemma graph_search_scores_witness :
  ∃ out,
    HybridSearch._graph_search searcher_hub store_hub "seed" ∅ 10 = Ok out ∧
    HybridSearch.search ascii_lower pretty searcher_hub store_hub "seed" "graph"
      (Some ∅) 10 (1 # 2)
    = Ok (py_slice_to (sorted_stable HybridSearch.score_desc out) 10).
Proof.
  eexists. split; [reflexivity|].
  apply (graph_search_scores ascii_lower pretty searcher_hub store_hub "seed" ∅ 10
           _ eq_refl).
Defined.

Lemma extract_entity_mentions_terminates_witness :
  ∃ ms, ∀ fuel, (String.length (ascii_lower "Redis and redis") + 2 ≤ fuel)%nat →
    EntityExtractor.extract_entity_mentions ascii_lower (λ _, 0%Z) fuel
      "Redis and redis" "Redis" "c1" 7 3 = Some ms.
Proof.
  apply (extract_entity_mentions_terminates ascii_lower (λ _, 0%Z)
           "Redis and redis" "Redis" "c1" 7 3).
  discriminate.
Defined.

Lemma extract_entity_mentions_empty_name_never_ends_witness :
  EntityExtractor.extract_entity_mentions ascii_lower (λ _, 0%Z) 1000
    "Redis and redis" "" "c1" 7 3 = None.
Proof.
  apply (extract_entity_mentions_empty_name_never_ends ascii_lower (λ _, 0%Z)
           "Redis and redis" "c1" 7 3 1000).
  reflexivity.
Defined.

(** The two mentions of [Redis] in ["Redis and redis"] are at 0 and 10. *)
Lemma extract_entity_mentions_occurrences_witness :
  ∃ ms,
    EntityExtractor.extract_entity_mentions ascii_lower (λ _, 0%Z) 20
      "Redis and redis" "Redis" "c1" 7 3 = Some ms ∧
    EntityExtractor.Mention.position <$> ms = [0; 10]%nat ∧
    ∀ i a b, ms !! i = Some a → ms !! S i = Some b →
      (EntityExtractor.Mention.position a + 5
       ≤ EntityExtractor.Mention.position b)%nat.
Proof.
  eexists. split; [reflexivity|]. split; [reflexivity|].
  apply (extract_entity_mentions_occurrences ascii_lower (λ _, 0%Z) 20
           "Redis and redis" "Redis" "c1" 7 3 _ ltac:(discriminate) eq_refl).
Defined.

Lemma get_entity_history_single_version_witness :
  ∃ r, server.get_entity_history pretty store_e1_e2 "e1" = Ok r ∧
    ((r = server.HistoryNotFound "Entity not found" ∧
      "e1" ∉ Entity.id <$> AsyncSession.entities store_e1_e2) ∨
     ∃ v, v ∈ AsyncSession.entities store_e1_e2 ∧ Entity.id v = "e1" ∧
          r = server.History "e1" (Entity.name v) 1 [server.version pretty v]).
Proof.
  eexists. split; [reflexivity|].
  apply (get_entity_history_single_version pretty store_e1_e2 "e1").
  - apply (bool_decide_unpack _). vm_compute. exact I.
  - reflexivity.
Defined.

(** [store_e1_e2] after [e2], which never ended, has been invalidated as of
    [a]. *)
Definition store_e2_ended (a : Z) : AsyncSession.t :=
  match models_enhanced.invalidate_entity store_e1_e2 "e2" (Some a) 0 with
  | Ok session' => session'
  | Raise _ => store_e1_e2
  end.

(** Invalidated as of 30, [e2] is still valid at 25. *)
Lemma invalidate_entity_validity_witness :
  ∃ rows,
    models_enhanced.get_valid_entities_at_time (store_e2_ended 30) 25 = Ok rows ∧
    models_enhanced.set_valid_until e2_row 30 ∈ rows.
Proof.
  destruct (invalidate_entity_validity store_e1_e2 (store_e2_ended 30) "e2"
              (Some 30%Z) 0 25) as (rows & Hrows & Hspec).
  - apply (bool_decide_unpack _). vm_compute. exact I.
  - reflexivity.
  - exists rows. split; [exact Hrows|].
    apply Hspec. left. exists e2_row.
    split; [apply list_elem_of_further, list_elem_of_here|].
    split; [reflexivity|]. split; [reflexivity|]. simpl. lia.
Defined.

(** [e2] invalidated as of 12: in the graph built as of 15 the context of
    [e1], which the relationship [r1] joins to [e2], cannot be built. *)
Lemma invalidated_entity_breaks_neighbor_context_witness :
  ∃ e,
    KnowledgeGraph.get_entity_context
      (KnowledgeGraph.build_graph (store_e2_ended 12) (Some 15%Z) 0 0
         KnowledgeGraph.__init__).1
      "e1" 1 = Raise e.
Proof.
  assert (NoDup (Entity.id <$> AsyncSession.entities store_e1_e2)) as Hnd.
  { apply (bool_decide_unpack _). vm_compute. exact I. }
  destruct (invalidated_entity_breaks_neighbor_context store_e1_e2
              (store_e2_ended 12) "e2" (Some 12%Z) 0 15 0 0 KnowledgeGraph.__init__
              (KnowledgeGraph.build_graph (store_e2_ended 12) (Some 15%Z) 0 0
                 KnowledgeGraph.__init__).1 2 Hnd eq_refl ltac:(simpl; lia) eq_refl)
    as (_ & _ & H).
  apply (H (relationship_row "r1" "e1" "e2" 0) "e1" 1%Z).
  - apply list_elem_of_filter.
    split; [reflexivity|apply list_elem_of_here].
  - right. split; reflexivity.
Defined.

(** ** How the graph queries agree *)

Section QueryAgreement.
Import KnowledgeGraph.

Lemma get_neighbors_bucket self entity_id depth relationship_types k w :
  nx.contains (graph self) entity_id = true → (1 ≤ k)%nat →
  w ∈ bucket_ids (get_neighbors self entity_id depth relationship_types) k
  ↔ (Z.of_nat k ≤ depth)%Z ∧
    at_distance (directed_edge (graph self) relationship_types) entity_id k w.
Proof.
  intros Hin Hk. unfold get_neighbors. rewrite Hin. simpl.
  rewrite (levels_loop_spec _ _ entity_id _ 0); [| | |lia].
  - split; (intros [? ?]; split; [lia|done]).
  - destruct (level_inv_init (directed_edge (graph self) relationship_types)
                entity_id) as [H1 H2].
    split; [done|]. intros v. rewrite elem_of_singleton. apply H2.
  - intros k' _. unfold bucket_ids. by rewrite lookup_empty.
Qed.

Lemma find_related_entities_elem self entity_id entity_type max_distance r :
  nx.contains (graph self) entity_id = true →
  r ∈ find_related_entities self entity_id entity_type max_distance
  ↔ ∃ w d, at_distance (undirected_edge (graph self)) entity_id d w ∧
      (Z.of_nat d ≤ max_distance)%Z ∧ w ≠ entity_id ∧
      type_filtered_out (graph self) entity_type w = false ∧
      r = related_record (graph self) w d.
Proof.
  intros Hin. unfold find_related_entities. rewrite Hin. cbn [negb].
  rewrite sorted_stable_elem, related_fold. rewrite elem_of_nil.
  assert (∀ d w, at_distance (adj_rel (nx.undirected_neighbors (graph self)))
                   entity_id d w
                 ↔ at_distance (undirected_edge (graph self)) entity_id d w) as Hrel.
  { intros d w. apply at_distance_ext. intros v u.
    apply undirected_neighbors_spec. }
  split.
  - intros [[]|(w & d & Hd & Hne & Hty & ->)].
    apply single_source_shortest_path_length_spec in Hd as [Hd Hle].
    exists w, d. split; [by apply Hrel|]. split; [|done].
    destruct Hle as [->|?]; [|done]. by apply at_distance_0 in Hd.
  - intros (w & d & Hd & Hle & Hne & Hty & ->). right. exists w, d.
    split; [|done]. apply single_source_shortest_path_length_spec.
    split; [by apply Hrel|by right].
Qed.

Lemma directed_edge_undirected G relationship_types v w :
  directed_edge G relationship_types v w → undirected_edge G v w.
Proof. intros (e & He & Hu & Hv & _). exists e. split; [done|by left]. Qed.

Lemma directed_edge_all G v w : directed_edge G None v w ↔ succ_rel G v w.
Proof.
  unfold succ_rel, adj_rel. rewrite successors_spec. unfold directed_edge. simpl.
  split; intros (e & He & Hu & Hv); [intros|]; exists e; tauto.
Qed.

(** X25.  A node that [get_neighbors] lists at depth [k] is among the
    entities that [find_related_entities] (without a type filter, with
    [max_distance = depth]) returns, at a distance of at most [k]: taking
    edges in either direction can only shorten the way. *)
Theorem neighbors_are_related
    (self : KnowledgeGraph.t) (entity_id : string) (depth : Z)
    (relationship_types : option (list string)) (k : nat) (w : string) :
  nx.contains (graph self) entity_id = true →
  (1 ≤ k)%nat →
  w ∈ bucket_ids (get_neighbors self entity_id depth relationship_types) k →
  ∃ d, (1 ≤ d ≤ k)%nat ∧
    related_record (graph self) w d
    ∈ find_related_entities self entity_id None depth.
Proof.
  intros Hin Hk [Hle Hd]%get_neighbors_bucket; [|done|done].
  assert (w ≠ entity_id) as Hne.
  { intros ->. assert (at_distance (directed_edge (graph self) relationship_types)
                         entity_id 0 entity_id) as H0 by (by apply at_distance_0).
    pose proof (at_distance_unique _ _ _ _ _ Hd H0). lia. }
  destruct Hd as [Hw _].
  apply (walk_ext _ (adj_rel (nx.undirected_neighbors (graph self)))) in Hw.
  2:{ intros v u Hvu. apply undirected_neighbors_spec.
      by eapply directed_edge_undirected. }
  apply walk_at_distance in Hw as (d & Hdk & Hd).
  assert (d ≠ 0%nat) by (intros ->; by apply at_distance_0 in Hd).
  exists d. split; [lia|]. apply find_related_entities_elem; [done|].
  exists w, d. split; [|split; [lia|done]].
  eapply at_distance_ext; [|exact Hd]. intros v u. symmetry.
  apply undirected_neighbors_spec.
Qed.

(** X26.  Without a type filter, a node of the graph is in the bucket
    [depth_k] of [get_neighbors] exactly when [k <= depth] and
    [find_shortest_path] from the entity to it returns a path of [k]
    edges. *)
Theorem neighbor_depth_is_shortest_path_length
    (self : KnowledgeGraph.t) (entity_id : string) (depth : Z)
    (k : nat) (w : string) :
  nx.contains (graph self) entity_id = true →
  nx.contains (graph self) w = true →
  (1 ≤ k)%nat →
  w ∈ bucket_ids (get_neighbors self entity_id depth None) k
  ↔ (Z.of_nat k ≤ depth)%Z ∧
    ∃ p, find_shortest_path self entity_id w = Some p ∧ length p = S k.
Proof.
  intros Hin Hw Hk. rewrite get_neighbors_bucket by done.
  assert (∀ d, at_distance (directed_edge (graph self) None) entity_id d w
               ↔ at_distance (succ_rel (graph self)) entity_id d w) as Hrel.
  { intros d. apply at_distance_ext. intros v u. apply directed_edge_all. }
  split.
  - intros [Hle Hd%Hrel]. split; [done|].
    destruct (find_shortest_path_complete self entity_id w k Hin Hw) as [p Hp];
      [by destruct Hd|].
    exists p. split; [done|].
    apply find_shortest_path_distance in Hp as (d & Hd' & ->).
    f_equal. by eapply at_distance_unique.
  - intros [Hle (p & Hp & Hlen)]. split; [done|]. apply Hrel.
    apply find_shortest_path_distance in Hp as (d & Hd & Hlen').
    by replace k with d by lia.
Qed.

(** X27.  When [find_shortest_path] returns no path, [find_paths] returns
    none either.  When it returns a path between two different nodes, this
    path is among those that [find_paths] returns without a [cutoff]
    exactly when it has at most [max_depth] edges, and otherwise
    [find_paths] returns no path at all. *)
Theorem shortest_path_among_found_paths
    (self : KnowledgeGraph.t) (source_id target_id : string) (max_depth : Z) :
  (find_shortest_path self source_id target_id = None →
   ∀ cutoff, find_paths self source_id target_id max_depth cutoff = []) ∧
  (∀ p, find_shortest_path self source_id target_id = Some p →
     source_id ≠ target_id →
     (p ∈ find_paths self source_id target_id max_depth None
      ↔ (Z.of_nat (length p) ≤ max_depth + 1)%Z) ∧
     (¬ (Z.of_nat (length p) ≤ max_depth + 1)%Z →
      ∀ cutoff, find_paths self source_id target_id max_depth cutoff = [])).
Proof.
  split.
  - intros Hnone cutoff.
    destruct (find_paths self source_id target_id max_depth cutoff) as [|q l] eqn:Hq;
      [done|].
    destruct (find_paths_has_shortest_path self source_id target_id max_depth
                cutoff q) as [p Hp]; [rewrite Hq; apply list_elem_of_here|].
    congruence.
  - intros p Hp Hne.
    pose proof (find_shortest_path_path _ _ _ _ Hp) as (Hs & Ht & Hpath & Hd).
    assert (NoDup p) as Hnd.
    { apply NoDup_alt. intros i j u Hi%Hd Hj%Hd. by eapply at_distance_unique. }
    split.
    + rewrite find_paths_present by done. cbn zeta.
      rewrite all_simple_paths_spec by done. tauto.
    + intros Hlong cutoff.
      destruct (find_paths self source_id target_id max_depth cutoff) as [|q l]
        eqn:Hq; [done|]. exfalso. apply Hlong.
      assert (q ∈ find_paths self source_id target_id max_depth cutoff) as Hin
        by (rewrite Hq; apply list_elem_of_here).
      assert (q ∈ nx.all_simple_paths (graph self) source_id target_id max_depth)
        as Hall.
      { rewrite find_paths_present in Hin by done. cbn zeta in Hin.
        destruct cutoff as [c|]; [|done].
        destruct (bool_decide (c = 0%Z)); [done|]. by eapply py_slice_to_elem. }
      apply all_simple_paths_spec in Hall as (Hq' & _ & Hlen); [|done].
      pose proof (path_walk _ _ _ _ Hq') as Hw.
      destruct Hpath as (_ & Hl & _). rewrite last_lookup in Hl. apply Hd in Hl.
      pose proof (at_distance_le_walk _ _ _ _ _ Hl Hw).
      destruct Hq' as (Hh & _ & _). destruct q; [done|]. simpl in *. lia.
Qed.
End QueryAgreement.

Lemma neighbors_are_related_witness :
  ∃ d, (1 ≤ d ≤ 1)%nat ∧
    KnowledgeGraph.related_record (KnowledgeGraph.graph diamond) "b" d
    ∈ KnowledgeGraph.find_related_entities diamond "a" None 2.
Proof.
  apply (neighbors_are_related diamond "a" 2 None 1 "b" eq_refl).
  - lia.
  - apply (bool_decide_unpack _). vm_compute. exact I.
Defined.

Lemma neighbor_depth_is_shortest_path_length_witness :
  (Z.of_nat 1 ≤ 2)%Z ∧
  ∃ p, KnowledgeGraph.find_shortest_path diamond "a" "c" = Some p ∧ length p = 2%nat.
Proof.
  apply (proj1 (neighbor_depth_is_shortest_path_length diamond "a" 2 1 "c"
                  eq_refl eq_refl ltac:(lia))).
  apply (bool_decide_unpack _). vm_compute. exact I.
Defined.
